(** * Reels playback engine: audio manager, feed navigation, media cache,
      music resolver and price mapping.

    Shallow embedding of the TypeScript sources:
    - [AudioManager] (class AudioManager);
    - the Reels page with the preload cache and the audio engine
      (called the "engine page" below);
    - src/pages/Reels.tsx (called the "legacy page" below). *)

From Stdlib Require Import ZArith QArith Lia Bool.
From stdpp Require Import base strings gmap list.

Open Scope Z_scope.
Open Scope list_scope.

(** ** JavaScript helpers *)

(** [Math.min] and [Math.max] on numbers, modelled on rationals. *)
Definition js_min (a b : Q) : Q := if Qle_bool a b then a else b.
Definition js_max (a b : Q) : Q := if Qle_bool a b then b else a.

(** Truthiness of a string: the empty string is falsy. *)
Definition truthy (s : string) : bool :=
  match s with EmptyString => false | _ => true end.

(** ** The audio playback engine *)

Module AudioManager.

Inductive SoundState :=
  idle | loading | ready | playing | stopping | unloading.

Definition SoundState_eqb (a b : SoundState) : bool :=
  match a, b with
  | idle, idle | loading, loading | ready, ready
  | playing, playing | stopping, stopping | unloading, unloading => true
  | _, _ => false
  end.

(** An [AudioBufferSourceNode]: the buffer it plays (named by the URL it
    was decoded from) and its [loop] flag. *)
Record SourceNode := { sn_buffer : option string; sn_loop : bool }.

(** Effects of the engine on the outside world, in the order they happen. *)
Inductive Effect :=
| StateChange (s : SoundState)          (* onStateChange?.(s) *)
| ContextCreated (c : nat)              (* new AudioContext() *)
| ContextClosed (c : nat)               (* audioContext.close() *)
| FetchIssued (url : string)            (* fetch(url) *)
| SourceStarted (url : option string) (c : nat)   (* sourceNode.start(0) *)
| SourceStopped                         (* sourceNode.stop() *)
| SourceDisconnected
| GainDisconnected
| GainSet (v : Q)                       (* write to gainNode.gain *)
| TimerSet (t : nat)                    (* setTimeout for the next fade frame *)
| TimerCleared (t : nat)                (* clearTimeout(fadeTimeout) *)
| Warned.                               (* console.warn *)

(** The fields of the class, followed by two ghost fields: the trace of
    effects and a counter naming freshly created objects. A [GainNode] is
    represented by the value of its [gain]. *)
Record Mgr := mkMgr {
  audioContext : option nat;
  audioBuffer : option string;
  sourceNode : option SourceNode;
  gainNode : option Q;
  state : SoundState;
  currentUrl : option string;
  transitionId : nat;
  volume : Q;
  isMuted : bool;
  fadeTimeout : option nat;
  sound : bool;                 (* truthiness of the field [sound: any] *)
  trace : list Effect;
  fresh : nat
}.

(** The manager as the constructor leaves it. *)
Definition new_manager : Mgr :=
  {| audioContext := None; audioBuffer := None; sourceNode := None;
     gainNode := None; state := idle; currentUrl := None;
     transitionId := 0; volume := 1%Q; isMuted := false;
     fadeTimeout := None; sound := false; trace := []; fresh := 0 |}.

Definition set_audioContext x m :=
  mkMgr x (audioBuffer m) (sourceNode m) (gainNode m) (state m) (currentUrl m)
    (transitionId m) (volume m) (isMuted m) (fadeTimeout m) (sound m)
    (trace m) (fresh m).
Definition set_audioBuffer x m :=
  mkMgr (audioContext m) x (sourceNode m) (gainNode m) (state m) (currentUrl m)
    (transitionId m) (volume m) (isMuted m) (fadeTimeout m) (sound m)
    (trace m) (fresh m).
Definition set_sourceNode x m :=
  mkMgr (audioContext m) (audioBuffer m) x (gainNode m) (state m) (currentUrl m)
    (transitionId m) (volume m) (isMuted m) (fadeTimeout m) (sound m)
    (trace m) (fresh m).
Definition set_gainNode x m :=
  mkMgr (audioContext m) (audioBuffer m) (sourceNode m) x (state m) (currentUrl m)
    (transitionId m) (volume m) (isMuted m) (fadeTimeout m) (sound m)
    (trace m) (fresh m).
Definition set_state x m :=
  mkMgr (audioContext m) (audioBuffer m) (sourceNode m) (gainNode m) x (currentUrl m)
    (transitionId m) (volume m) (isMuted m) (fadeTimeout m) (sound m)
    (trace m) (fresh m).
Definition set_currentUrl x m :=
  mkMgr (audioContext m) (audioBuffer m) (sourceNode m) (gainNode m) (state m) x
    (transitionId m) (volume m) (isMuted m) (fadeTimeout m) (sound m)
    (trace m) (fresh m).
Definition set_transitionId x m :=
  mkMgr (audioContext m) (audioBuffer m) (sourceNode m) (gainNode m) (state m)
    (currentUrl m) x (volume m) (isMuted m) (fadeTimeout m) (sound m)
    (trace m) (fresh m).
Definition set_volume x m :=
  mkMgr (audioContext m) (audioBuffer m) (sourceNode m) (gainNode m) (state m)
    (currentUrl m) (transitionId m) x (isMuted m) (fadeTimeout m) (sound m)
    (trace m) (fresh m).
Definition set_isMuted x m :=
  mkMgr (audioContext m) (audioBuffer m) (sourceNode m) (gainNode m) (state m)
    (currentUrl m) (transitionId m) (volume m) x (fadeTimeout m) (sound m)
    (trace m) (fresh m).
Definition set_fadeTimeout x m :=
  mkMgr (audioContext m) (audioBuffer m) (sourceNode m) (gainNode m) (state m)
    (currentUrl m) (transitionId m) (volume m) (isMuted m) x (sound m)
    (trace m) (fresh m).
Definition emit (e : Effect) m :=
  mkMgr (audioContext m) (audioBuffer m) (sourceNode m) (gainNode m) (state m)
    (currentUrl m) (transitionId m) (volume m) (isMuted m) (fadeTimeout m)
    (sound m) (trace m ++ [e]) (fresh m).
Definition bump_fresh m :=
  mkMgr (audioContext m) (audioBuffer m) (sourceNode m) (gainNode m) (state m)
    (currentUrl m) (transitionId m) (volume m) (isMuted m) (fadeTimeout m)
    (sound m) (trace m) (S (fresh m)).

(** [private setState(newState)] *)
Definition setState (s : SoundState) (m : Mgr) : Mgr :=
  emit (StateChange s) (set_state s m).

(** [private cleanup()] *)
Definition cleanup (m : Mgr) : Mgr :=
  let m1 := match fadeTimeout m with
            | Some t => set_fadeTimeout None (emit (TimerCleared t) m)
            | None => m
            end in
  let m2 := match audioContext m1 with
            | Some c => emit (ContextClosed c) m1
            | None => m1
            end in
  setState idle
    (set_currentUrl None
      (set_gainNode None
        (set_sourceNode None
          (set_audioBuffer None
            (set_audioContext None m2))))).

(** [private async setVolume(volume)]; its body has no suspension point. *)
Definition setVolume (v : Q) (m : Mgr) : Mgr :=
  let m1 := set_volume (js_max 0 (js_min 1 v)) m in
  let targetVolume := if isMuted m1 then 0%Q else volume m1 in
  match gainNode m1 with
  | Some _ => emit (GainSet targetVolume) (set_gainNode (Some targetVolume) m1)
  | None => m1
  end.

(** [async setMuted(muted)] *)
Definition setMuted (muted : bool) (m : Mgr) : Mgr :=
  let m1 := set_isMuted muted m in
  let targetVolume := if muted then 0%Q else volume m1 in
  setVolume targetVolume m1.

(** [private async unload()]; its body has no suspension point. *)
Definition unload (m : Mgr) : Mgr :=
  if SoundState_eqb (state m) idle then m else
  let m1 := setState unloading m in
  let m2 := match gainNode m1 with
            | Some _ => emit (GainSet 0) (set_gainNode (Some 0%Q) m1)
            | None => m1
            end in
  let m3 := match sourceNode m2 with
            | Some _ =>
                set_sourceNode None
                  (emit SourceDisconnected (emit SourceStopped m2))
            | None => m2
            end in
  let m4 := match gainNode m3 with
            | Some _ => set_gainNode None (emit GainDisconnected m3)
            | None => m3
            end in
  cleanup (set_audioBuffer None m4).


(** *** Asynchronous methods

    An [async] method runs synchronously up to its first [await]; what
    remains is a stack of frames, the top one being what is awaited. The
    event loop resumes the top frame of some pending task; everything between
    two suspension points is one atomic block. *)

(** What the environment decides when a block runs. *)
Inductive BuildStage := AtCreateSource | AtCreateGain | AtConnect | AtStart.

Record Env := {
  env_ok : bool;          (* the awaited fetch / arrayBuffer / decode resolved *)
  env_now : Q;            (* performance.now() or the animation timestamp *)
  env_ctx_ok : bool;      (* new AudioContext() did not throw *)
  env_build : option BuildStage   (* the Web Audio call that throws, if any *)
}.

Inductive Frame :=
| FRamp (from to duration start : Q)             (* requestAnimationFrame(step) *)
| FRampSet (from to duration start : Q) (more : bool)   (* step, after await setVolume *)
| FRampTimer (from to duration start : Q) (t : nat)     (* setTimeout(..., 16) *)
| FPoll                                          (* stop: setTimeout(check, 10) *)
| FStopUnload                                    (* stop: after await fadeTo *)
| FDisposeCleanup                                (* dispose: after await stop *)
| FPlayAfterStop (my : nat) (url : string) (fadeIn : bool)
| FPlayFetch (my : nat) (url : string) (fadeIn : bool)
| FPlayArrayBuffer (my : nat) (url : string) (fadeIn : bool)
| FPlayDecode (my : nat) (url : string) (fadeIn : bool).

(** How a resumed block ends: it awaits again ([Push], the frames replace the
    resumed one; none means the block's function returned), or it throws out
    of the method. *)
Inductive Outcome := Push (fs : list Frame) | Throw.

Definition timer_cleared (t : nat) (tr : list Effect) : bool :=
  existsb (fun e => match e with TimerCleared t' => Nat.eqb t t' | _ => false end) tr.

(** [private async fadeTo(from, to, duration)], up to the promise it returns. *)
Definition fadeTo_call (from to duration : Q) (env : Env) (m : Mgr)
  : Mgr * list Frame :=
  let m1 := match fadeTimeout m with
            | Some t => set_fadeTimeout None (emit (TimerCleared t) m)
            | None => m
            end in
  if negb (sound m1) then (m1, [])
  else (m1, [FRamp from to duration (env_now env)]).

(** [async stop(fadeOut = true)], up to its first suspension. *)
Definition stop_call (fadeOut : bool) (env : Env) (m : Mgr) : Mgr * list Frame :=
  if SoundState_eqb (state m) idle
     || (negb (bool_decide (is_Some (sourceNode m)))
         && negb (bool_decide (is_Some (audioBuffer m))))
  then (m, [])
  else if SoundState_eqb (state m) stopping || SoundState_eqb (state m) unloading
  then (m, [FPoll])
  else
    let m1 := setState stopping m in
    if fadeOut then
      let '(m2, fs) := fadeTo_call (volume m1) 0 500 env m1 in
      (m2, fs ++ [FStopUnload])
    else (unload m1, []).

(** [async play(url, options)], up to its first suspension. *)
Definition play_call (url : string) (fadeIn : bool) (env : Env) (m : Mgr)
  : Mgr * list Frame :=
  let my := S (transitionId m) in
  let m1 := set_transitionId my m in
  let '(m2, fs) := stop_call true env m1 in
  (m2, fs ++ [FPlayAfterStop my url fadeIn]).

(** [async dispose()], up to its first suspension. *)
Definition dispose_call (env : Env) (m : Mgr) : Mgr * list Frame :=
  let '(m1, fs) := stop_call true env m in
  (m1, fs ++ [FDisposeCleanup]).

(** The [catch] block of [play]. *)
Definition play_catch (m : Mgr) : Mgr * Outcome :=
  (cleanup (emit Warned m), Throw).

Definition fails_at (env : Env) (st : BuildStage) : bool :=
  match env_build env, st with
  | Some AtCreateSource, AtCreateSource | Some AtCreateGain, AtCreateGain
  | Some AtConnect, AtConnect | Some AtStart, AtStart => true
  | _, _ => false
  end.

(** [play], from the decoded buffer to the last [await]. *)
Definition play_build (fadeIn : bool) (env : Env) (m : Mgr) : Mgr * Outcome :=
  match audioContext m with
  | None => play_catch m
  | Some c =>
    if fails_at env AtCreateSource then play_catch m else
    let m3 := set_sourceNode (Some {| sn_buffer := None; sn_loop := false |}) m in
    if fails_at env AtCreateGain then play_catch m3 else
    let m4 := set_gainNode (Some 1%Q) m3 in
    let m5 := set_sourceNode
                (Some {| sn_buffer := audioBuffer m4; sn_loop := true |}) m4 in
    if fails_at env AtConnect then play_catch m5 else
    if fails_at env AtStart then play_catch m5 else
    let m6 := setState playing (emit (SourceStarted (audioBuffer m5) c) m5) in
    if fadeIn then
      let '(m7, fs) := fadeTo_call 0 (volume m6) 500 env m6 in (m7, Push fs)
    else (setVolume (volume m6) m6, Push [])
  end.

(** One atomic block: the code that runs when the awaited frame resumes. *)
Definition run_frame (f : Frame) (env : Env) (m : Mgr) : Mgr * Outcome :=
  match f with
  | FRamp from to duration start =>
      if negb (sound m) || SoundState_eqb (state m) unloading
         || SoundState_eqb (state m) idle
      then (m, Push [])
      else
        let elapsed := (env_now env - start)%Q in
        let progress := js_min (elapsed / duration)%Q 1 in
        let currentVolume := (from + (to - from) * progress)%Q in
        (setVolume currentVolume m,
         Push [FRampSet from to duration start (negb (Qle_bool 1 progress))])
  | FRampSet from to duration start more =>
      if more then
        let t := fresh m in
        (bump_fresh (emit (TimerSet t) (set_fadeTimeout (Some t) m)),
         Push [FRampTimer from to duration start t])
      else (set_fadeTimeout None m, Push [])
  | FRampTimer from to duration start t =>
      if timer_cleared t (trace m) then (m, Push [f])
      else (m, Push [FRamp from to duration start])
  | FPoll =>
      if SoundState_eqb (state m) idle then (m, Push []) else (m, Push [FPoll])
  | FStopUnload => (unload m, Push [])
  | FDisposeCleanup => (cleanup m, Push [])
  | FPlayAfterStop my url fadeIn =>
      if negb (Nat.eqb my (transitionId m)) then (m, Push []) else
      let m1 := setState loading (set_currentUrl (Some url) m) in
      match audioContext m1 with
      | Some _ => (emit (FetchIssued url) m1, Push [FPlayFetch my url fadeIn])
      | None =>
          if env_ctx_ok env then
            let c := fresh m1 in
            let m2 := bump_fresh
                        (emit (ContextCreated c) (set_audioContext (Some c) m1)) in
            (emit (FetchIssued url) m2, Push [FPlayFetch my url fadeIn])
          else play_catch m1
      end
  | FPlayFetch my url fadeIn =>
      if env_ok env then (m, Push [FPlayArrayBuffer my url fadeIn])
      else play_catch m
  | FPlayArrayBuffer my url fadeIn =>
      if env_ok env then
        match audioContext m with
        | Some _ => (m, Push [FPlayDecode my url fadeIn])
        | None => play_catch m
        end
      else play_catch m
  | FPlayDecode my url fadeIn =>
      if env_ok env then
        let m1 := set_audioBuffer (Some url) m in
        if negb (Nat.eqb my (transitionId m1)) then (cleanup m1, Push [])
        else play_build fadeIn env (setState ready m1)
      else play_catch m
  end.

(** *** The engine with its pending calls *)

Inductive Status := Running (fs : list Frame) | Resolved | Rejected.

Definition status_of (fs : list Frame) : Status :=
  match fs with [] => Resolved | _ => Running fs end.

Record Sys := { mgr : Mgr; tasks : list Status }.

Definition init_sys : Sys := {| mgr := new_manager; tasks := [] |}.

Inductive Input :=
| CallPlay (url : string) (fadeIn : bool)
| CallStop (fadeOut : bool)
| CallSetMuted (muted : bool)
| CallDispose
| Resume (i : nat).

Definition spawn (r : Mgr * list Frame) (s : Sys) : Sys :=
  {| mgr := r.1; tasks := tasks s ++ [status_of r.2] |}.

Definition step (env : Env) (inp : Input) (s : Sys) : Sys :=
  match inp with
  | CallPlay url fadeIn => spawn (play_call url fadeIn env (mgr s)) s
  | CallStop fadeOut => spawn (stop_call fadeOut env (mgr s)) s
  | CallSetMuted muted =>
      {| mgr := setMuted muted (mgr s); tasks := tasks s ++ [Resolved] |}
  | CallDispose => spawn (dispose_call env (mgr s)) s
  | Resume i =>
      match tasks s !! i with
      | Some (Running (f :: rest)) =>
          match run_frame f env (mgr s) with
          | (m', Push fs) =>
              {| mgr := m'; tasks := <[i := status_of (fs ++ rest)]> (tasks s) |}
          | (m', Throw) =>
              {| mgr := m'; tasks := <[i := Rejected]> (tasks s) |}
          end
      | _ => s
      end
  end.

Definition run (s : Sys) (sched : list (Env * Input)) : Sys :=
  foldl (fun s ei => step ei.1 ei.2 s) s sched.

Inductive Reachable : Sys -> Prop :=
| Reach_init : Reachable init_sys
| Reach_step env inp s : Reachable s -> Reachable (step env inp s).

(** The environment in which every awaited operation succeeds. *)
Definition env_good : Env :=
  {| env_ok := true; env_now := 0%Q; env_ctx_ok := true; env_build := None |}.

(** Number of [sourceNode.start] calls in a trace, and of gain writes. *)
Definition is_start (e : Effect) : bool :=
  match e with SourceStarted _ _ => true | _ => false end.
Definition is_gain_set (e : Effect) : bool :=
  match e with GainSet _ => true | _ => false end.
Definition started (m : Mgr) : nat := length (List.filter is_start (trace m)).
Definition gain_writes (m : Mgr) : nat := length (List.filter is_gain_set (trace m)).

(** The volume the listener hears: what [setVolume] writes to the gain. *)
Definition effective_volume (m : Mgr) : Q :=
  if isMuted m then 0%Q else volume m.

(** All playback resources released. *)
Definition released (m : Mgr) : Prop :=
  state m = idle /\ audioContext m = None /\ audioBuffer m = None /\
  sourceNode m = None /\ gainNode m = None /\ currentUrl m = None /\
  fadeTimeout m = None.


(** No fade ramp is pending in a frame, a call, the engine. *)
Definition ramp_free (f : Frame) : bool :=
  match f with
  | FRamp _ _ _ _ | FRampSet _ _ _ _ _ | FRampTimer _ _ _ _ _ => false
  | _ => true
  end.

Definition ramp_free_status (st : Status) : bool :=
  match st with Running fs => forallb ramp_free fs | _ => true end.

Definition quiet (s : Sys) : Prop :=
  sound (mgr s) = false /\ fadeTimeout (mgr s) = None
  /\ forallb ramp_free_status (tasks s) = true.





(** The calls the specification lets supersede a pending [play]. *)
Definition is_play_or_stop (inp : Input) : bool :=
  match inp with CallPlay _ _ | CallStop _ => true | _ => false end.

(** The engine while [play("a.mp3")] awaits its fetch. *)
Definition sys_loading : Sys :=
  step env_good (Resume 0) (step env_good (CallPlay "a.mp3" true) init_sys).

(** The engine once that [play] has started the track. *)
Definition sys_playing : Sys :=
  step env_good (Resume 0)
    (step env_good (Resume 0) (step env_good (Resume 0) sys_loading)).

(** Audio contexts created and not yet closed. *)
Definition is_created (e : Effect) : bool :=
  match e with ContextCreated _ => true | _ => false end.
Definition is_closed (e : Effect) : bool :=
  match e with ContextClosed _ => true | _ => false end.
Definition open_contexts (m : Mgr) : Z :=
  Z.of_nat (length (List.filter is_created (trace m)))
  - Z.of_nat (length (List.filter is_closed (trace m))).

Definition is_stop (e : Effect) : bool :=
  match e with SourceStopped => true | _ => false end.
Definition stops (m : Mgr) : nat := length (List.filter is_stop (trace m)).

Definition in_unit (q : Q) : Prop := (0 <= q)%Q /\ (q <= 1)%Q.

(** One open context exactly when the engine holds one. *)
Definition ctx_ok (m : Mgr) : Prop :=
  open_contexts m = match audioContext m with Some _ => 1 | None => 0 end.

(** The stored volume and the gain, when a gain node exists, lie in [0, 1]. *)
Definition vol_ok (m : Mgr) : Prop :=
  in_unit (volume m) /\ forall g, gainNode m = Some g -> in_unit g.

(** Number of [play] calls in a schedule. *)
Definition count_plays (sched : list (Env * Input)) : nat :=
  length (List.filter (fun ei => match ei.2 with CallPlay _ _ => true | _ => false end)
            sched).

End AudioManager.

(** ** Feed items *)

Record Music := {
  m_url : string;
  m_title : option string;
  m_artist : option string;
  m_startAt : option Q;
  m_endAt : option Q
}.

(** A JavaScript number that may be [NaN]. *)
Inductive jsnum := JNaN | JNum (q : Q).

(** The fields of [interface Reel] that the playback code reads. *)
Record Reel := {
  r_id : string;
  r_videoUrl : option string;
  r_posterImage : string;
  r_galleryImages : option (list string);
  r_primaryProductId : option string;
  r_productId : option jsnum;
  r_hasMusic : bool;
  r_music_url : option string;
  r_music_audio_url : option string;
  r_music : option Music
}.

(** [a || b] on optional strings: the first truthy operand, else the last. *)
Definition or_else (a b : option string) : option string :=
  match a with
  | Some s => if truthy s then a else b
  | None => b
  end.

Definition is_truthy (a : option string) : bool :=
  match a with Some s => truthy s | None => false end.

(** ** Price mapping of [generateReelsFromProducts] *)

Module Prices.

(** The two raw price columns of a product row; [None] is null/undefined. *)
Record RawProduct := { price : option Q; sale_price : option Q }.

(** The [price] and [originalPrice] of the generated shoppable product;
    [None] is [undefined]. *)
Record Resolved := { current : option Q; original : option Q }.

(** Engine page: "smaller value is current price, larger is compare-at". *)
Definition resolve_price (p : RawProduct) : Resolved :=
  let base := match price p with Some b => b | None => 0%Q end in
  match sale_price p with
  | None => {| current := Some base; original := None |}
  | Some alt =>
      if Qeq_bool alt base then {| current := Some base; original := None |}
      else {| current := Some (js_min base alt);
              original := Some (js_max base alt) |}
  end.

(** Truthiness of a number: zero is falsy. *)
Definition num_truthy (q : option Q) : bool :=
  match q with Some x => negb (Qeq_bool x 0) | None => false end.

(** Legacy page: [price: sale_price || price],
    [originalPrice: sale_price ? price : undefined]. *)
Definition resolve_price_legacy (p : RawProduct) : Resolved :=
  if num_truthy (sale_price p)
  then {| current := sale_price p; original := price p |}
  else {| current := price p; original := None |}.

End Prices.

(** ** The preload cache of the engine page *)

Module MediaCache.

Record ImageEl := { img_src : string; img_decoding : string }.

Record VideoEl := {
  ve_src : string;
  ve_preload : string;
  ve_muted : bool;
  ve_playsInline : bool;
  ve_loads : nat                 (* calls of load() *)
}.

(** The three caches, and the elements the prune has let go of. *)
Record Caches := {
  preloadedImages : gmap string ImageEl;
  preloadedVideos : gmap string VideoEl;
  prefetchLinks : gset string;
  evicted : list VideoEl
}.

Definition empty_caches : Caches :=
  {| preloadedImages := ∅; preloadedVideos := ∅; prefetchLinks := ∅;
     evicted := [] |}.

Definition PRELOAD_AHEAD : Z := 2.
Definition PRELOAD_BEHIND : Z := 1.

(** [addPrefetch(url)] *)
Definition addPrefetch (url : string) (c : Caches) : Caches :=
  if negb (truthy url) || bool_decide (url ∈ prefetchLinks c) then c
  else {| preloadedImages := preloadedImages c;
          preloadedVideos := preloadedVideos c;
          prefetchLinks := {[url]} ∪ prefetchLinks c;
          evicted := evicted c |}.

(** [preloadImage(url)]: the element is cached before the load settles. *)
Definition preloadImage (url : option string) (c : Caches) : Caches :=
  match url with
  | None => c
  | Some u =>
      if negb (truthy u) then c
      else if bool_decide (is_Some (preloadedImages c !! u)) then c
      else {| preloadedImages :=
                <[u := {| img_src := u; img_decoding := "async" |}]>
                  (preloadedImages c);
              preloadedVideos := preloadedVideos c;
              prefetchLinks := prefetchLinks c;
              evicted := evicted c |}
  end.

(** [preloadVideo(url)] *)
Definition preloadVideo (url : option string) (c : Caches) : Caches :=
  match url with
  | None => c
  | Some u =>
      if negb (truthy u) then c
      else if bool_decide (is_Some (preloadedVideos c !! u)) then c
      else {| preloadedImages := preloadedImages c;
              preloadedVideos :=
                <[u := {| ve_src := u; ve_preload := "auto"; ve_muted := true;
                          ve_playsInline := true; ve_loads := 1 |}]>
                  (preloadedVideos c);
              prefetchLinks := prefetchLinks c;
              evicted := evicted c |}
  end.

(** [reelStates[idx]] for a JavaScript index. *)
Definition reel_at (reelStates : list Reel) (idx : Z) : option Reel :=
  if idx <? 0 then None else reelStates !! Z.to_nat idx.

(** [music?.url || music_audio_url || music_url] *)
Definition music_url_of (r : Reel) : option string :=
  or_else (or_else (m_url <$> r_music r) (r_music_audio_url r)) (r_music_url r).

(** The indices the effect preloads, in the order the set is filled. *)
Definition indicesToPreload (cur len : Z) : list Z :=
  filter (fun idx => idx < len) [cur + 1; cur + 2]
  ++ filter (fun idx => 0 <= idx) [cur - 1].

(** The body of [indicesToPreload.forEach]. *)
Definition preload_reel (reelStates : list Reel) (c : Caches) (idx : Z) : Caches :=
  match reel_at reelStates idx with
  | None => c
  | Some reel =>
      let c1 := preloadImage (Some (r_posterImage reel)) c in
      let c2 := match r_galleryImages reel with
                | Some g => foldl (fun c u => preloadImage (Some u) c) c1 (take 2 g)
                | None => c1
                end in
      let c3 := if is_truthy (r_videoUrl reel)
                then preloadVideo (r_videoUrl reel) c2 else c2 in
      match music_url_of reel with
      | Some mu => if truthy mu then addPrefetch mu c3 else c3
      | None => c3
      end
  end.

(** The URLs one reel contributes to [urlsInWindow]. *)
Definition reel_urls (r : Reel) : list string :=
  (if truthy (r_posterImage r) then [r_posterImage r] else [])
  ++ match r_galleryImages r with Some g => take 2 g | None => [] end
  ++ (match r_videoUrl r with
      | Some v => if truthy v then [v] else []
      | None => []
      end)
  ++ (match music_url_of r with
      | Some a => if truthy a then [a] else []
      | None => []
      end).

Definition minKeep (cur : Z) : Z := Z.max 0 (cur - PRELOAD_BEHIND).
Definition maxKeep (cur len : Z) : Z := Z.min (len - 1) (cur + PRELOAD_AHEAD).

(** The loop [for (let i = minKeep; i <= maxKeep; i++)]. *)
Definition window_indices (cur len : Z) : list Z :=
  map (fun i => minKeep cur + Z.of_nat i)
      (seq 0 (Z.to_nat (maxKeep cur len - minKeep cur + 1))).

Definition urlsInWindow (reelStates : list Reel) (cur : Z) : list string :=
  concat (map (fun i => match reel_at reelStates i with
                        | Some r => reel_urls r
                        | None => []
                        end)
              (window_indices cur (Z.of_nat (length reelStates)))).

(** [v.src = ''; v.load()] *)
Definition release_video (v : VideoEl) : VideoEl :=
  {| ve_src := ""; ve_preload := ve_preload v; ve_muted := ve_muted v;
     ve_playsInline := ve_playsInline v; ve_loads := S (ve_loads v) |}.

(** The two pruning loops. *)
Definition prune (keep : list string) (c : Caches) : Caches :=
  {| preloadedImages :=
       filter (fun kv => kv.1 ∈ keep) (preloadedImages c);
     preloadedVideos :=
       filter (fun kv => kv.1 ∈ keep) (preloadedVideos c);
     prefetchLinks := prefetchLinks c;
     evicted :=
       evicted c ++
       map (fun kv => release_video kv.2)
           (map_to_list (filter (fun kv => kv.1 ∉ keep) (preloadedVideos c))) |}.

(** The preload effect, run when [currentReelIndex] or [reelStates] change. *)
Definition preload_effect (reelStates : list Reel) (cur : Z) (c : Caches) : Caches :=
  match reelStates with
  | [] => c
  | _ =>
      let len := Z.of_nat (length reelStates) in
      let c1 := foldl (preload_reel reelStates) c (indicesToPreload cur len) in
      prune (urlsInWindow reelStates cur) c1
  end.

(** The cleanup of the unmount effect. *)
Definition unmount_cleanup (c : Caches) : Caches :=
  {| preloadedImages := ∅;
     preloadedVideos := ∅;
     prefetchLinks := prefetchLinks c;
     evicted := evicted c ++
                map (fun kv => release_video kv.2)
                    (map_to_list (preloadedVideos c)) |}.


End MediaCache.

(** ** The music resolver *)

Module MusicResolver.

(** The query the page builds on the [product_music] table. *)
Record Query := {
  q_table : string;
  q_select : string;
  q_product_id : jsnum;          (* .eq('product_id', productId) *)
  q_is_active : bool;            (* .eq('is_active', true) *)
  q_order_by : string;           (* .order('priority', ...) *)
  q_ascending : bool;
  q_limit : nat
}.

(** One returned row, with the selected columns. *)
Record Row := {
  audio_url : option string;
  title : option string;
  artist : option string;
  start_at_seconds : option Q;
  end_at_seconds : option Q
}.

(** What awaiting the query gives: a rejection, or [{ data, error }]. *)
Inductive Response :=
| Rejects
| Answer (data : option (list Row)) (error : bool).

(** Requests sent to the backend. *)
Inductive Request :=
| Select (q : Query)
| RpcTableInfo (table_name : string).

(** The two pages differ in one probe before the query. *)
Inductive Variant := EnginePage | LegacyPage.

Definition music_query (productId : jsnum) : Query :=
  {| q_table := "product_music";
     q_select := "audio_url,title,artist,start_at_seconds,end_at_seconds";
     q_product_id := productId;
     q_is_active := true;
     q_order_by := "priority";
     q_ascending := true;
     q_limit := 1 |}.

(** [x || d] for an optional string and a default. *)
Definition or_default (x : option string) (d : string) : string :=
  match x with
  | Some s => if truthy s then s else d
  | None => d
  end.

(** [row.start_at_seconds || 0] *)
Definition num_or_zero (x : option Q) : Q :=
  match x with
  | Some q => if Qeq_bool q 0 then 0%Q else q
  | None => 0%Q
  end.

(** The result of a resolver run: the requests it sent, and the argument of
    [setMusic] if it was called ([Some None] is [setMusic(null)]). *)
Record Run := { sent : list Request; set_music : option (option Music) }.

Section Resolver.

(** [Number(s)] on strings, and the backend. *)
Variable Number : string -> jsnum.
Variable backend : Query -> Response.

Definition is_NaN (n : jsnum) : bool :=
  match n with JNaN => true | JNum _ => false end.

(** [fetchMusic] *)
Definition fetchMusic (v : Variant) (currentReel : option Reel) : Run :=
  match currentReel with
  | None => {| sent := []; set_music := None |}
  | Some reel =>
      let productIdRaw : option (jsnum + string) :=
        match r_productId reel with
        | Some n => Some (inl n)
        | None => inr <$> r_primaryProductId reel
        end in
      match productIdRaw with
      | None => {| sent := []; set_music := Some None |}
      | Some raw =>
          let productId := match raw with inl n => n | inr s => Number s end in
          if is_NaN productId then {| sent := []; set_music := Some None |}
          else
            let probe := match v with
                         | EnginePage => []
                         | LegacyPage => [RpcTableInfo "product_music"]
                         end in
            let q := music_query productId in
            let reqs := probe ++ [Select q] in
            match backend q with
            | Rejects => {| sent := reqs; set_music := Some None |}
            | Answer data error =>
                if error then {| sent := reqs; set_music := Some None |}
                else
                  let row := match data with
                             | Some (r :: _) => Some r
                             | _ => None
                             end in
                  match row with
                  | None => {| sent := reqs; set_music := Some None |}
                  | Some r =>
                      if is_truthy (audio_url r) then
                        {| sent := reqs;
                           set_music := Some (Some
                             {| m_url := default "" (audio_url r);
                                m_title := Some (or_default (title r) "Background Music");
                                m_artist := Some (or_default (artist r) "Ehsaas Jewels");
                                m_startAt := Some (num_or_zero (start_at_seconds r));
                                m_endAt := end_at_seconds r |}) |}
                      else {| sent := reqs; set_music := Some None |}
                  end
            end
      end
  end.

(** The effect "Set music when reel changes". *)
Definition music_effect (v : Variant) (currentReel : option Reel) : Run :=
  match currentReel with
  | Some reel =>
      match r_music reel with
      | Some mu =>
          if truthy (m_url mu) then
            {| sent := [];
               set_music := Some (Some
                 {| m_url := m_url mu;
                    m_title := Some (or_default (m_title mu) "Background Music");
                    m_artist := Some (or_default (m_artist mu) "Ehsaas Jewels");
                    m_startAt := None;
                    m_endAt := None |}) |}
          else fetchMusic v currentReel
      | None => fetchMusic v currentReel
      end
  | None => fetchMusic v currentReel
  end.

(** The product id [fetchMusic] works with: [productId ?? primaryProductId],
    strings passed through [Number]. *)
Definition product_id_of (reel : Reel) : option jsnum :=
  match r_productId reel with
  | Some n => Some n
  | None => Number <$> r_primaryProductId reel
  end.

(** The reel carries no usable embedded track. *)
Definition no_embedded_url (reel : Reel) : Prop :=
  match r_music reel with
  | Some mu => truthy (m_url mu) = false
  | None => True
  end.

Definition probe_of (v : Variant) : list Request :=
  match v with EnginePage => [] | LegacyPage => [RpcTableInfo "product_music"] end.

End Resolver.

(** A backend that evaluates the query on a table of music rows: equality
    filters, a stable sort on the order column, then the limit. *)
Record MusicRow := {
  mr_product_id : Q;
  mr_is_active : bool;
  mr_priority : Z;
  mr_row : Row
}.

Fixpoint insert_by_priority (x : MusicRow) (l : list MusicRow) : list MusicRow :=
  match l with
  | [] => [x]
  | y :: l' =>
      if mr_priority x <=? mr_priority y then x :: l
      else y :: insert_by_priority x l'
  end.

Definition sort_by_priority (l : list MusicRow) : list MusicRow :=
  foldr insert_by_priority [] l.

Definition matches (q : Query) (r : MusicRow) : bool :=
  match q_product_id q with
  | JNum pid => Qeq_bool (mr_product_id r) pid
  | JNaN => false
  end && Bool.eqb (mr_is_active r) (q_is_active q).

Definition table_backend (table : list MusicRow) (q : Query) : Response :=
  Answer (Some (map mr_row
                  (take (q_limit q) (sort_by_priority (filter (fun r => matches q r = true) table)))))
         false.

(** A reading of [Number] on plain decimal digit strings; everything else
    is [NaN], the empty string is [0]. *)
Fixpoint digits_value (s : string) (acc : Z) : option Z :=
  match s with
  | EmptyString => Some acc
  | String c rest =>
      let n := Z.of_nat (Ascii.nat_of_ascii c) in
      if (48 <=? n) && (n <=? 57) then digits_value rest (acc * 10 + (n - 48))
      else None
  end.

Definition Number_digits (s : string) : jsnum :=
  match digits_value s 0 with
  | Some z => JNum (inject_Z z)
  | None => JNaN
  end.

End MusicResolver.

(** ** The engine page (Reels with the preload cache and the audio engine) *)

Module EnginePage.

Inductive Direction := up | down.

(** The properties of the [<video>] and [<audio>] elements the page touches. *)
Record Video := {
  v_src : string; v_muted : bool; v_volume : Q;
  v_paused : bool; v_currentTime : Q; v_loads : nat
}.

Record AudioEl := {
  a_src : string; a_muted : bool; a_volume : Q;
  a_paused : bool; a_currentTime : Q; a_loads : nat
}.

Inductive PageEffect :=
| MgrStop (fadeOut : bool)                 (* audioManagerRef.current.stop *)
| MgrPlay (url : string) (fadeIn : bool)   (* audioManagerRef.current.play *)
| MgrSetMuted (muted : bool)               (* audioManagerRef.current.setMuted *)
| AudioPlay                                (* audio.play() *)
| VideoPlay                                (* video.play() *)
| Wait (ms : Z)                            (* await setTimeout *)
| Warn.

Record Page := mkPage {
  reelStates : list Reel;
  currentReelIndex : Z;
  slideDirection : option Direction;
  lastScrollTime : Z;
  music : option Music;
  isPlaying : bool;
  isMuted : bool;
  hasUserInteracted : bool;
  showControls : bool;
  videoError : bool;
  pendingAutoPlay : bool;
  transitionIdRef : nat;
  prevIndexRef : Z;
  preFadeActive : bool;
  videoRef : option Video;
  audioRef : option AudioEl;
  audioManagerRef : bool;   (* audioManagerRef.current is not null *)
  log : list PageEffect   (* calls made on the engine and the media elements *)
}.

Definition set_reelStates x p :=
  mkPage x (currentReelIndex p) (slideDirection p) (lastScrollTime p)
    (music p) (isPlaying p) (isMuted p) (hasUserInteracted p) (showControls p)
    (videoError p) (pendingAutoPlay p) (transitionIdRef p) (prevIndexRef p)
    (preFadeActive p) (videoRef p) (audioRef p) (audioManagerRef p) (log p).
Definition set_currentReelIndex x p :=
  mkPage (reelStates p) x (slideDirection p) (lastScrollTime p) (music p)
    (isPlaying p) (isMuted p) (hasUserInteracted p) (showControls p)
    (videoError p) (pendingAutoPlay p) (transitionIdRef p) (prevIndexRef p)
    (preFadeActive p) (videoRef p) (audioRef p) (audioManagerRef p) (log p).
Definition set_slideDirection x p :=
  mkPage (reelStates p) (currentReelIndex p) x (lastScrollTime p) (music p)
    (isPlaying p) (isMuted p) (hasUserInteracted p) (showControls p)
    (videoError p) (pendingAutoPlay p) (transitionIdRef p) (prevIndexRef p)
    (preFadeActive p) (videoRef p) (audioRef p) (audioManagerRef p) (log p).
Definition set_lastScrollTime x p :=
  mkPage (reelStates p) (currentReelIndex p) (slideDirection p) x (music p)
    (isPlaying p) (isMuted p) (hasUserInteracted p) (showControls p)
    (videoError p) (pendingAutoPlay p) (transitionIdRef p) (prevIndexRef p)
    (preFadeActive p) (videoRef p) (audioRef p) (audioManagerRef p) (log p).
Definition set_music x p :=
  mkPage (reelStates p) (currentReelIndex p) (slideDirection p)
    (lastScrollTime p) x (isPlaying p) (isMuted p) (hasUserInteracted p)
    (showControls p) (videoError p) (pendingAutoPlay p) (transitionIdRef p)
    (prevIndexRef p) (preFadeActive p) (videoRef p) (audioRef p)
    (audioManagerRef p) (log p).
Definition set_isPlaying x p :=
  mkPage (reelStates p) (currentReelIndex p) (slideDirection p)
    (lastScrollTime p) (music p) x (isMuted p) (hasUserInteracted p)
    (showControls p) (videoError p) (pendingAutoPlay p) (transitionIdRef p)
    (prevIndexRef p) (preFadeActive p) (videoRef p) (audioRef p)
    (audioManagerRef p) (log p).
Definition set_isMuted x p :=
  mkPage (reelStates p) (currentReelIndex p) (slideDirection p)
    (lastScrollTime p) (music p) (isPlaying p) x (hasUserInteracted p)
    (showControls p) (videoError p) (pendingAutoPlay p) (transitionIdRef p)
    (prevIndexRef p) (preFadeActive p) (videoRef p) (audioRef p)
    (audioManagerRef p) (log p).
Definition set_hasUserInteracted x p :=
  mkPage (reelStates p) (currentReelIndex p) (slideDirection p)
    (lastScrollTime p) (music p) (isPlaying p) (isMuted p) x (showControls p)
    (videoError p) (pendingAutoPlay p) (transitionIdRef p) (prevIndexRef p)
    (preFadeActive p) (videoRef p) (audioRef p) (audioManagerRef p) (log p).
Definition set_showControls x p :=
  mkPage (reelStates p) (currentReelIndex p) (slideDirection p)
    (lastScrollTime p) (music p) (isPlaying p) (isMuted p)
    (hasUserInteracted p) x (videoError p) (pendingAutoPlay p)
    (transitionIdRef p) (prevIndexRef p) (preFadeActive p) (videoRef p)
    (audioRef p) (audioManagerRef p) (log p).
Definition set_videoError x p :=
  mkPage (reelStates p) (currentReelIndex p) (slideDirection p)
    (lastScrollTime p) (music p) (isPlaying p) (isMuted p)
    (hasUserInteracted p) (showControls p) x (pendingAutoPlay p)
    (transitionIdRef p) (prevIndexRef p) (preFadeActive p) (videoRef p)
    (audioRef p) (audioManagerRef p) (log p).
Definition set_pendingAutoPlay x p :=
  mkPage (reelStates p) (currentReelIndex p) (slideDirection p)
    (lastScrollTime p) (music p) (isPlaying p) (isMuted p)
    (hasUserInteracted p) (showControls p) (videoError p) x
    (transitionIdRef p) (prevIndexRef p) (preFadeActive p) (videoRef p)
    (audioRef p) (audioManagerRef p) (log p).
Definition set_transitionIdRef x p :=
  mkPage (reelStates p) (currentReelIndex p) (slideDirection p)
    (lastScrollTime p) (music p) (isPlaying p) (isMuted p)
    (hasUserInteracted p) (showControls p) (videoError p) (pendingAutoPlay p)
    x (prevIndexRef p) (preFadeActive p) (videoRef p) (audioRef p)
    (audioManagerRef p) (log p).
Definition set_prevIndexRef x p :=
  mkPage (reelStates p) (currentReelIndex p) (slideDirection p)
    (lastScrollTime p) (music p) (isPlaying p) (isMuted p)
    (hasUserInteracted p) (showControls p) (videoError p) (pendingAutoPlay p)
    (transitionIdRef p) x (preFadeActive p) (videoRef p) (audioRef p)
    (audioManagerRef p) (log p).
Definition set_preFadeActive x p :=
  mkPage (reelStates p) (currentReelIndex p) (slideDirection p)
    (lastScrollTime p) (music p) (isPlaying p) (isMuted p)
    (hasUserInteracted p) (showControls p) (videoError p) (pendingAutoPlay p)
    (transitionIdRef p) (prevIndexRef p) x (videoRef p) (audioRef p)
    (audioManagerRef p) (log p).
Definition set_videoRef x p :=
  mkPage (reelStates p) (currentReelIndex p) (slideDirection p)
    (lastScrollTime p) (music p) (isPlaying p) (isMuted p)
    (hasUserInteracted p) (showControls p) (videoError p) (pendingAutoPlay p)
    (transitionIdRef p) (prevIndexRef p) (preFadeActive p) x (audioRef p)
    (audioManagerRef p) (log p).
Definition set_audioRef x p :=
  mkPage (reelStates p) (currentReelIndex p) (slideDirection p)
    (lastScrollTime p) (music p) (isPlaying p) (isMuted p)
    (hasUserInteracted p) (showControls p) (videoError p) (pendingAutoPlay p)
    (transitionIdRef p) (prevIndexRef p) (preFadeActive p) (videoRef p) x
    (audioManagerRef p) (log p).
Definition set_audioManagerRef x p :=
  mkPage (reelStates p) (currentReelIndex p) (slideDirection p)
    (lastScrollTime p) (music p) (isPlaying p) (isMuted p)
    (hasUserInteracted p) (showControls p) (videoError p) (pendingAutoPlay p)
    (transitionIdRef p) (prevIndexRef p) (preFadeActive p) (videoRef p)
    (audioRef p) x (log p).
Definition set_log x p :=
  mkPage (reelStates p) (currentReelIndex p) (slideDirection p)
    (lastScrollTime p) (music p) (isPlaying p) (isMuted p)
    (hasUserInteracted p) (showControls p) (videoError p) (pendingAutoPlay p)
    (transitionIdRef p) (prevIndexRef p) (preFadeActive p) (videoRef p)
    (audioRef p) (audioManagerRef p) x.

Definition scrollCooldown : Z := 900.
Definition touchThreshold : Z := 90.

Definition emit (e : PageEffect) (p : Page) : Page := set_log (log p ++ [e]) p.
Definition on_video (f : Video -> Video) (p : Page) : Page :=
  set_videoRef (f <$> videoRef p) p.
Definition on_audio (f : AudioEl -> AudioEl) (p : Page) : Page :=
  set_audioRef (f <$> audioRef p) p.

Definition v_set_muted b v :=
  {| v_src := v_src v; v_muted := b; v_volume := v_volume v;
     v_paused := v_paused v; v_currentTime := v_currentTime v; v_loads := v_loads v |}.
Definition v_set_volume x v :=
  {| v_src := v_src v; v_muted := v_muted v; v_volume := x;
     v_paused := v_paused v; v_currentTime := v_currentTime v; v_loads := v_loads v |}.
Definition v_set_paused b v :=
  {| v_src := v_src v; v_muted := v_muted v; v_volume := v_volume v;
     v_paused := b; v_currentTime := v_currentTime v; v_loads := v_loads v |}.
Definition v_set_currentTime x v :=
  {| v_src := v_src v; v_muted := v_muted v; v_volume := v_volume v;
     v_paused := v_paused v; v_currentTime := x; v_loads := v_loads v |}.
(** [v.src = s; v.load()] *)
Definition v_reload s v :=
  {| v_src := s; v_muted := v_muted v; v_volume := v_volume v;
     v_paused := v_paused v; v_currentTime := v_currentTime v;
     v_loads := S (v_loads v) |}.

Definition a_set_muted b a :=
  {| a_src := a_src a; a_muted := b; a_volume := a_volume a;
     a_paused := a_paused a; a_currentTime := a_currentTime a; a_loads := a_loads a |}.
Definition a_set_volume x a :=
  {| a_src := a_src a; a_muted := a_muted a; a_volume := x;
     a_paused := a_paused a; a_currentTime := a_currentTime a; a_loads := a_loads a |}.
Definition a_set_paused b a :=
  {| a_src := a_src a; a_muted := a_muted a; a_volume := a_volume a;
     a_paused := b; a_currentTime := a_currentTime a; a_loads := a_loads a |}.
Definition a_set_currentTime x a :=
  {| a_src := a_src a; a_muted := a_muted a; a_volume := a_volume a;
     a_paused := a_paused a; a_currentTime := x; a_loads := a_loads a |}.
Definition a_reload s a :=
  {| a_src := s; a_muted := a_muted a; a_volume := a_volume a;
     a_paused := a_paused a; a_currentTime := a_currentTime a;
     a_loads := S (a_loads a) |}.

(** [reelStates[currentReelIndex]] *)
Definition currentReel (p : Page) : option Reel :=
  MediaCache.reel_at (reelStates p) (currentReelIndex p).

(** [currentReel?.videoUrl], when truthy. *)
Definition videoUrl (p : Page) : option string :=
  match currentReel p with
  | Some r => if is_truthy (r_videoUrl r) then r_videoUrl r else None
  | None => None
  end.

(** [music?.url], when truthy. *)
Definition music_url (p : Page) : option string :=
  match music p with
  | Some m => if truthy (m_url m) then Some (m_url m) else None
  | None => None
  end.

(** The page as first rendered with a loaded feed; the refs are still empty
    and nothing in the page ever assigns [audioManagerRef.current]. *)
Definition mounted (reels : list Reel) : Page :=
  {| reelStates := reels; currentReelIndex := 0; slideDirection := None;
     lastScrollTime := 0; music := None; isPlaying := true; isMuted := true;
     hasUserInteracted := false; showControls := false; videoError := false;
     pendingAutoPlay := false; transitionIdRef := 0; prevIndexRef := 0;
     preFadeActive := false; videoRef := None; audioRef := None;
     audioManagerRef := false; log := [] |}.

(** React attaches the [<video ... muted>] element of the current reel. *)
Definition mount_video (p : Page) : Page :=
  set_videoRef
    (Some {| v_src := default "" (videoUrl p); v_muted := true; v_volume := 1%Q;
             v_paused := true; v_currentTime := 0%Q; v_loads := 0 |}) p.

(** React attaches the [<audio src={music.url}>] element. *)
Definition mount_audio (p : Page) : Page :=
  set_audioRef
    (Some {| a_src := default "" (music_url p); a_muted := false; a_volume := 1%Q;
             a_paused := true; a_currentTime := 0%Q; a_loads := 0 |}) p.

(** The "Tap to enable sound" overlay is rendered. *)
Definition overlay_visible (p : Page) : bool :=
  bool_decide (is_Some (music_url p)) && negb (hasUserInteracted p).

(** The document listener of the first-interaction effect; it is registered
    only while [hasUserInteracted] is false. *)
Definition onFirstInteract (p : Page) : Page :=
  if hasUserInteracted p then p else set_hasUserInteracted true p.

(** [strongStopAllMedia] *)
Definition strongStopAllMedia (p : Page) : Page :=
  let p1 := on_audio (fun a =>
              a_set_volume 0%Q
                (a_reload ""
                  (a_set_muted true
                    (a_set_currentTime 0%Q (a_set_paused true a))))) p in
  let p2 := on_video (fun v =>
              v_set_muted true (v_set_currentTime 0%Q (v_set_paused true v))) p1 in
  set_pendingAutoPlay false p2.

(** The cool-down test shared by [handleNextReel] and [handlePrevReel]. *)
Definition nav_dropped (now : Z) (p : Page) : bool :=
  bool_decide (length (reelStates p) = 0%nat)
  || (now - lastScrollTime p <? scrollCooldown).

(** The handlers up to [await new Promise(resolve => setTimeout(resolve, 50))]. *)
Definition nav_enter (now : Z) (p : Page) : Page :=
  let p1 := set_lastScrollTime now p in
  let p2 := strongStopAllMedia p1 in
  let p3 := set_music None p2 in
  emit (Wait 50) (set_transitionIdRef (S (transitionIdRef p3)) p3).

(** The handlers after the delay: the functional index update. *)
Definition nav_commit (d : Direction) (p : Page) : Page :=
  let len := Z.of_nat (length (reelStates p)) in
  let prev := currentReelIndex p in
  let next := match d with
              | up => Z.rem (prev + 1) len
              | down => Z.rem (prev - 1 + len) len
              end in
  set_currentReelIndex next (set_slideDirection (Some d) p).

Definition handleNextReel (now : Z) (p : Page) : Page :=
  if nav_dropped now p then p else nav_commit up (nav_enter now p).

Definition handlePrevReel (now : Z) (p : Page) : Page :=
  if nav_dropped now p then p else nav_commit down (nav_enter now p).

(** [onTouchEnd]: [touchStartY - touchEndY] decides the direction. *)
Definition onTouchEnd (now deltaY : Z) (p : Page) : Page :=
  if touchThreshold <? Z.abs deltaY then
    if 0 <? deltaY then handleNextReel now p else handlePrevReel now p
  else p.

(** [toggleMute] *)
Definition toggleMute (p : Page) : Page :=
  let newMutedState := negb (isMuted p) in
  let p1 := if audioManagerRef p then emit (MgrSetMuted newMutedState) p else p in
  let p2 := on_video (v_set_muted true) p1 in
  set_isMuted newMutedState p2.

(** A [play()] call on the video or audio element and its outcome. *)
Definition video_play (ok : bool) (p : Page) : Page :=
  emit VideoPlay (if ok then on_video (v_set_paused false) p else p).
Definition audio_play (ok : bool) (p : Page) : Page :=
  emit AudioPlay (if ok then on_audio (a_set_paused false) p else p).

(** [togglePlay] *)
Definition togglePlay (okv oka : bool) (p : Page) : Page :=
  let p1 :=
    match videoRef p, videoUrl p with
    | Some _, Some _ =>
        if isPlaying p then
          on_audio (a_set_paused true) (on_video (v_set_paused true) p)
        else
          let p' := video_play okv p in
          match audioRef p' with Some _ => audio_play oka p' | None => p' end
    | _, _ =>
        match audioRef p, music_url p with
        | Some a, Some _ =>
            if a_paused a then audio_play oka p
            else on_audio (a_set_paused true) p
        | _, _ => p
        end
    end in
  set_isPlaying (negb (isPlaying p)) p1.

(** What the environment decides during one run of the playback effect. *)
Record EffEnv := {
  video_ready : bool;       (* readyState >= 3, or canplay fires *)
  video_play_ok : bool;     (* the first v.play() resolves *)
  video_retry_ok : bool;    (* the second v.play() resolves *)
  mgr_play_ok : bool        (* audioManagerRef.current.play resolves *)
}.

(** [fadeOutAndStopPrevious] *)
Definition fadeOutAndStopPrevious (p : Page) : Page :=
  let indexChanged := negb (prevIndexRef p =? currentReelIndex p) in
  if negb indexChanged || negb (audioManagerRef p) then p
  else emit (MgrStop true) p.

(** [startAudioPlayback], run without interleaving. *)
Definition startAudioPlayback (myTransitionId : nat) (env : EffEnv) (p : Page) : Page :=
  match music_url p with
  | None => p
  | Some url =>
      if negb (audioManagerRef p) then p
      else if pendingAutoPlay p then p
      else
        let p1 := emit (Wait 50) (set_pendingAutoPlay true p) in
        let p2 :=
          if negb (Nat.eqb myTransitionId (transitionIdRef p1)) then p1
          else
            let p' := emit (MgrPlay url true) p1 in
            if mgr_play_ok env then emit (MgrSetMuted (isMuted p')) p'
            else emit Warn p' in
        set_pendingAutoPlay false p2
  end.

(** [startVideoPlayback], run without interleaving. *)
Definition startVideoPlayback (env : EffEnv) (p : Page) : Page :=
  match videoRef p, videoUrl p with
  | Some _, Some _ =>
      let p1 := on_video (fun v => v_set_volume 0%Q (v_set_muted true v)) p in
      let p2 := if video_play_ok env then video_play true p1
                else video_play (video_retry_ok env)
                       (on_video (v_set_muted true) (emit Warn (video_play false p1))) in
      set_isPlaying true p2
  | _, _ => p
  end.

(** The playback effect, re-run when the video URL, the music URL,
    [hasUserInteracted] or the index changes. *)
Definition playback_effect (env : EffEnv) (p : Page) : Page :=
  let p1 := set_preFadeActive false p in
  let my := S (transitionIdRef p1) in
  let p2 := set_transitionIdRef my p1 in
  let p3 := set_isPlaying true (set_videoError false p2) in
  let run p :=
    let p4 := fadeOutAndStopPrevious p in
    let p5 := match music_url p4 with
              | Some _ => startAudioPlayback my env p4
              | None => p4
              end in
    match videoUrl p5 with
    | Some _ => startVideoPlayback env p5
    | None => p5
    end in
  match videoRef p3, videoUrl p3 with
  | Some _, Some _ => if video_ready env then run p3 else p3
  | _, _ => run p3
  end.

(** The effect tracking the last active index. *)
Definition track_index (p : Page) : Page :=
  set_prevIndexRef (currentReelIndex p) p.

(** [onClick] of the background media container. *)
Definition backgroundClick (oka oka2 okv : bool) (p : Page) : Page :=
  let p1 := set_showControls true p in
  if hasUserInteracted p then p1
  else
    let p2 := set_hasUserInteracted true p1 in
    let withAudio :=
      match audioRef p2, music_url p2 with
      | Some _, Some _ => true
      | _, _ => false
      end in
    let p3 := if withAudio
              then audio_play oka (on_audio (a_set_muted false) p2) else p2 in
    let p4 := match videoRef p3, videoUrl p3 with
              | Some _, Some _ => video_play okv (on_video (v_set_muted true) p3)
              | _, _ => p3
              end in
    (* the [catch] of the first audio.play() runs after the handler *)
    if withAudio && negb oka
    then audio_play oka2 (on_audio (a_set_muted true) p4) else p4.

(** [s.includes(sub)] *)
Definition includes (sub s : string) : bool :=
  bool_decide (is_Some (String.index 0 sub s)).

(** Handlers on the [<video>] element. *)
Definition video_onWaiting (p : Page) : Page := on_video (v_set_muted true) p.

Definition video_onStalled (p : Page) : Page :=
  on_video (fun v => v_set_currentTime (js_max 0 (v_currentTime v - (1 # 10))%Q) v) p.

Definition video_onPlay (oka : bool) (p : Page) : Page :=
  let p1 := set_isPlaying true p in
  match audioRef p1 with
  | Some a =>
      if negb (a_paused a) then
        let t := match videoRef p1 with
                 | Some v => v_currentTime v
                 | None => 0%Q
                 end in
        audio_play oka (on_audio (a_set_currentTime t) p1)
      else p1
  | None => p1
  end.

Definition video_onPause (p : Page) : Page :=
  on_audio (a_set_paused true) (set_isPlaying false p).

(** [onLoadedData] and [onCanPlayThrough]. *)
Definition video_onLoaded (okv : bool) (p : Page) : Page :=
  match videoRef p with
  | Some v => if v_paused v && isPlaying p then video_play okv p else p
  | None => p
  end.

(** What the [onError] handler does to the element it fired on:
    [v.pause()], then the source is set again, with ".mp4" appended when it
    is missing, and [v.load()] is called. *)
Definition video_onError_reload (v : Video) : Video :=
  if truthy (v_src v) then
    let newSrc := if includes ".mp4" (v_src v) then v_src v
                  else (v_src v ++ ".mp4")%string in
    v_reload newSrc (v_set_paused true v)
  else v.

(** [onError] of the [<video>] element together with the render it causes:
    the element is rendered only while [hasVideo && !videoError], so after
    [setVideoError(true)] React detaches it and clears [videoRef]; the
    reloaded element is not on the page any more. *)
Definition video_onError (p : Page) : Page :=
  let p1 := set_videoError true p in
  let p2 := on_video video_onError_reload p1 in
  set_videoRef None p2.

(** [onVisibilityChange] *)
Definition onVisibilityChange (hidden okv : bool) (p : Page) : Page :=
  match videoRef p with
  | None => p
  | Some _ =>
      if hidden then set_isPlaying false (on_video (v_set_paused true) p)
      else match videoUrl p with
           | Some _ => video_play okv p
           | None => p
           end
  end.

(** Everything that can happen to the page. *)
Inductive Event :=
| EvPointerDown | EvKeyDown
| EvBackgroundClick (oka oka2 okv : bool)
| EvToggleMute
| EvTogglePlay (okv oka : bool)
| EvNext (now : Z) | EvPrev (now : Z)
| EvTouchEnd (now deltaY : Z)
| EvPlaybackEffect (env : EffEnv)
| EvTrackIndex
| EvSetMusic (m : option Music)
| EvMountVideo | EvUnmountVideo | EvMountAudio | EvUnmountAudio
| EvVideoWaiting | EvVideoStalled | EvVideoPlay (oka : bool) | EvVideoPause
| EvVideoLoaded (okv : bool) | EvVideoError
| EvVisibility (hidden okv : bool).

Definition handle (e : Event) (p : Page) : Page :=
  match e with
  | EvPointerDown | EvKeyDown => onFirstInteract p
  | EvBackgroundClick oka oka2 okv => backgroundClick oka oka2 okv p
  | EvToggleMute => toggleMute p
  | EvTogglePlay okv oka => togglePlay okv oka p
  | EvNext now => handleNextReel now p
  | EvPrev now => handlePrevReel now p
  | EvTouchEnd now dy => onTouchEnd now dy p
  | EvPlaybackEffect env => playback_effect env p
  | EvTrackIndex => track_index p
  | EvSetMusic m => set_music m p
  | EvMountVideo => mount_video p
  | EvUnmountVideo => set_videoRef None p
  | EvMountAudio => mount_audio p
  | EvUnmountAudio => set_audioRef None p
  | EvVideoWaiting => video_onWaiting p
  | EvVideoStalled => video_onStalled p
  | EvVideoPlay oka => video_onPlay oka p
  | EvVideoPause => video_onPause p
  | EvVideoLoaded okv => video_onLoaded okv p
  | EvVideoError => video_onError p
  | EvVisibility hidden okv => onVisibilityChange hidden okv p
  end.

Definition run_events (p : Page) (es : list Event) : Page :=
  foldl (fun p e => handle e p) p es.

(** The video element, if attached, is muted. *)
Definition video_muted (p : Page) : Prop :=
  forall v, videoRef p = Some v -> v_muted v = true.

(** Playback attempts on an audio source recorded in the log. *)
Definition is_audio_attempt (e : PageEffect) : bool :=
  match e with MgrPlay _ _ | AudioPlay => true | _ => false end.
Definition audio_attempts (p : Page) : nat :=
  length (List.filter is_audio_attempt (log p)).

(** The current index addresses an item of the feed. *)
Definition index_ok (p : Page) : Prop :=
  0 <= currentReelIndex p < Z.of_nat (length (reelStates p)).

(** Index updates committed by a list of navigation requests (times paired
    with directions), counted on the way. *)
Fixpoint navigate (reqs : list (Z * Direction)) (p : Page) : Page * nat :=
  match reqs with
  | [] => (p, 0%nat)
  | (now, d) :: rest =>
      if nav_dropped now p then navigate rest p
      else
        let '(p', n) := navigate rest (nav_commit d (nav_enter now p)) in
        (p', S n)
  end.

End EnginePage.

(** ** The legacy page (src/pages/Reels.tsx) *)

Module LegacyPage.

Import EnginePage (Direction, up, down, Video, AudioEl, PageEffect,
  AudioPlay, VideoPlay, Warn,
  v_src, v_muted, v_volume, v_paused, v_currentTime, v_loads,
  a_src, a_muted, a_volume, a_paused, a_currentTime, a_loads,
  v_set_muted, v_set_paused, v_set_currentTime,
  a_set_muted, a_set_paused, a_set_currentTime).

Record Page := mkPage {
  reelStates : list Reel;
  currentReelIndex : Z;
  slideDirection : option Direction;
  lastScrollTime : Z;
  music : option Music;
  isPlaying : bool;
  isMuted : bool;
  pendingAutoPlay : bool;
  videoRef : option Video;
  audioRef : option AudioEl;
  log : list PageEffect
}.

Definition set_reelStates x p :=
  mkPage x (currentReelIndex p) (slideDirection p) (lastScrollTime p)
    (music p) (isPlaying p) (isMuted p) (pendingAutoPlay p) (videoRef p)
    (audioRef p) (log p).
Definition set_currentReelIndex x p :=
  mkPage (reelStates p) x (slideDirection p) (lastScrollTime p) (music p)
    (isPlaying p) (isMuted p) (pendingAutoPlay p) (videoRef p) (audioRef p)
    (log p).
Definition set_slideDirection x p :=
  mkPage (reelStates p) (currentReelIndex p) x (lastScrollTime p) (music p)
    (isPlaying p) (isMuted p) (pendingAutoPlay p) (videoRef p) (audioRef p)
    (log p).
Definition set_lastScrollTime x p :=
  mkPage (reelStates p) (currentReelIndex p) (slideDirection p) x (music p)
    (isPlaying p) (isMuted p) (pendingAutoPlay p) (videoRef p) (audioRef p)
    (log p).
Definition set_music x p :=
  mkPage (reelStates p) (currentReelIndex p) (slideDirection p)
    (lastScrollTime p) x (isPlaying p) (isMuted p) (pendingAutoPlay p)
    (videoRef p) (audioRef p) (log p).
Definition set_isPlaying x p :=
  mkPage (reelStates p) (currentReelIndex p) (slideDirection p)
    (lastScrollTime p) (music p) x (isMuted p) (pendingAutoPlay p)
    (videoRef p) (audioRef p) (log p).
Definition set_isMuted x p :=
  mkPage (reelStates p) (currentReelIndex p) (slideDirection p)
    (lastScrollTime p) (music p) (isPlaying p) x (pendingAutoPlay p)
    (videoRef p) (audioRef p) (log p).
Definition set_pendingAutoPlay x p :=
  mkPage (reelStates p) (currentReelIndex p) (slideDirection p)
    (lastScrollTime p) (music p) (isPlaying p) (isMuted p) x (videoRef p)
    (audioRef p) (log p).
Definition set_videoRef x p :=
  mkPage (reelStates p) (currentReelIndex p) (slideDirection p)
    (lastScrollTime p) (music p) (isPlaying p) (isMuted p) (pendingAutoPlay p)
    x (audioRef p) (log p).
Definition set_audioRef x p :=
  mkPage (reelStates p) (currentReelIndex p) (slideDirection p)
    (lastScrollTime p) (music p) (isPlaying p) (isMuted p) (pendingAutoPlay p)
    (videoRef p) x (log p).
Definition set_log x p :=
  mkPage (reelStates p) (currentReelIndex p) (slideDirection p)
    (lastScrollTime p) (music p) (isPlaying p) (isMuted p) (pendingAutoPlay p)
    (videoRef p) (audioRef p) x.

Definition scrollCooldown : Z := 500.
Definition touchThreshold : Z := 50.

Definition emit (e : PageEffect) (p : Page) : Page := set_log (log p ++ [e]) p.
Definition on_video (f : Video -> Video) (p : Page) : Page :=
  set_videoRef (f <$> videoRef p) p.
Definition on_audio (f : AudioEl -> AudioEl) (p : Page) : Page :=
  set_audioRef (f <$> audioRef p) p.

Definition currentReel (p : Page) : option Reel :=
  MediaCache.reel_at (reelStates p) (currentReelIndex p).

Definition videoUrl (p : Page) : option string :=
  match currentReel p with
  | Some r => if is_truthy (r_videoUrl r) then r_videoUrl r else None
  | None => None
  end.

Definition music_url (p : Page) : option string :=
  match music p with
  | Some m => if truthy (m_url m) then Some (m_url m) else None
  | None => None
  end.

(** The page as first rendered with a loaded feed; it starts unmuted. *)
Definition mounted (reels : list Reel) : Page :=
  {| reelStates := reels; currentReelIndex := 0; slideDirection := None;
     lastScrollTime := 0; music := None; isPlaying := true; isMuted := false;
     pendingAutoPlay := false; videoRef := None; audioRef := None; log := [] |}.

(** React attaches [<video ... muted={isMuted}>]. *)
Definition mount_video (p : Page) : Page :=
  set_videoRef
    (Some {| v_src := default "" (videoUrl p); v_muted := isMuted p;
             v_volume := 1%Q; v_paused := true; v_currentTime := 0%Q;
             v_loads := 0 |}) p.

(** React attaches [<audio ... muted={isMuted}>]. *)
Definition mount_audio (p : Page) : Page :=
  set_audioRef
    (Some {| a_src := default "" (music_url p); a_muted := isMuted p;
             a_volume := 1%Q; a_paused := true; a_currentTime := 0%Q;
             a_loads := 0 |}) p.

Definition nav_dropped (now : Z) (p : Page) : bool :=
  bool_decide (length (reelStates p) = 0%nat)
  || (now - lastScrollTime p <? scrollCooldown).

Definition nav_commit (now : Z) (d : Direction) (p : Page) : Page :=
  let len := Z.of_nat (length (reelStates p)) in
  let prev := currentReelIndex p in
  let next := match d with
              | up => Z.rem (prev + 1) len
              | down => Z.rem (prev - 1 + len) len
              end in
  set_currentReelIndex next (set_slideDirection (Some d) (set_lastScrollTime now p)).

Definition handleNextReel (now : Z) (p : Page) : Page :=
  if nav_dropped now p then p else nav_commit now up p.

Definition handlePrevReel (now : Z) (p : Page) : Page :=
  if nav_dropped now p then p else nav_commit now down p.

Definition video_play (ok : bool) (p : Page) : Page :=
  emit VideoPlay (if ok then on_video (v_set_paused false) p else p).
Definition audio_play (ok : bool) (p : Page) : Page :=
  emit AudioPlay (if ok then on_audio (a_set_paused false) p else p).

(** [toggleMute] *)
Definition toggleMute (oka oka2 : bool) (p : Page) : Page :=
  let newMutedState := negb (isMuted p) in
  let withVideo := match videoRef p, videoUrl p with
                   | Some _, Some _ => true
                   | _, _ => false
                   end in
  let p1 := if withVideo then on_video (v_set_muted newMutedState) p else p in
  let p2 :=
    match audioRef p1, music_url p1 with
    | Some _, Some _ =>
        let p' := on_audio (a_set_muted newMutedState) p1 in
        if newMutedState then p'
        else
          let p'' := match videoRef p', withVideo with
                     | Some v, true => on_audio (a_set_currentTime (v_currentTime v)) p'
                     | _, _ => p'
                     end in
          let p3 := audio_play oka p'' in
          if oka then p3
          else audio_play oka2 (on_audio (a_set_muted true) (emit Warn p3))
    | _, _ => p1
    end in
  set_isMuted newMutedState p2.

(** The mute button of the side controls. *)
Definition muteButton (p : Page) : Page :=
  let newMutedState := negb (isMuted p) in
  on_audio (a_set_muted newMutedState)
    (on_video (v_set_muted newMutedState) (set_isMuted newMutedState p)).

(** What the environment decides during one run of the playback effect. *)
Record EffEnv := {
  audio_ok : bool;          (* startAudioPlayback: audio.play() with sound *)
  audio_muted_ok : bool;    (* startAudioPlayback: audio.play() muted *)
  video_ok : bool;          (* startVideoPlayback: video.play() *)
  sync_ok : bool;           (* startPlayback: currentAudio.play() with sound *)
  sync_muted_ok : bool      (* startPlayback: currentAudio.play() muted *)
}.

(** [startAudioPlayback], run without interleaving. *)
Definition startAudioPlayback (env : EffEnv) (p : Page) : Page :=
  match audioRef p, music_url p with
  | Some _, Some _ =>
      if pendingAutoPlay p then p
      else
        let p1 := set_pendingAutoPlay true p in
        let p2 := audio_play (audio_ok env) (on_audio (a_set_muted false) p1) in
        let p3 :=
          if audio_ok env then set_isMuted false p2
          else
            let p' := audio_play (audio_muted_ok env)
                        (on_audio (a_set_muted true) (emit Warn p2)) in
            if audio_muted_ok env then set_isMuted true p' else emit Warn p' in
        set_pendingAutoPlay false p3
  | _, _ => p
  end.

(** [startVideoPlayback]; [isMuted0] is the [isMuted] the effect closed over. *)
Definition startVideoPlayback (isMuted0 : bool) (env : EffEnv) (p : Page) : Page :=
  match videoRef p, videoUrl p with
  | Some _, Some _ =>
      let p1 := video_play (video_ok env) (on_video (v_set_muted true) p) in
      if video_ok env
      then set_isPlaying true (on_video (v_set_muted isMuted0) p1)
      else emit Warn p1
  | _, _ => p
  end.

(** [startPlayback], run without interleaving. *)
Definition startPlayback (env : EffEnv) (p : Page) : Page :=
  let isMuted0 := isMuted p in
  let p1 := match music_url p with
            | Some _ => startAudioPlayback env p
            | None => p
            end in
  let p2 := match videoUrl p1 with
            | Some _ => startVideoPlayback isMuted0 env p1
            | None => p1
            end in
  let '(p3, threw) :=
    match videoRef p2, audioRef p2, music_url p2 with
    | Some v, Some _, Some _ =>
        let q1 := on_audio (a_set_currentTime (v_currentTime v)) p2 in
        let q2 := audio_play (sync_ok env) (on_audio (a_set_muted false) q1) in
        if sync_ok env then
          (set_isMuted false (on_video (v_set_muted false) q2), false)
        else
          let q3 := audio_play (sync_muted_ok env)
                      (on_audio (a_set_muted true) (emit Warn q2)) in
          if sync_muted_ok env then
            (set_isMuted false (on_video (v_set_muted false) q3), false)
          else (q3, true)
    | _, _, _ => (p2, false)
    end in
  set_pendingAutoPlay false
    (if threw then set_isPlaying false (emit Warn p3) else set_isPlaying true p3).

Definition index_ok (p : Page) : Prop :=
  0 <= currentReelIndex p < Z.of_nat (length (reelStates p)).

(** Index updates committed by a list of navigation requests. *)
Fixpoint navigate (reqs : list (Z * Direction)) (p : Page) : Page * nat :=
  match reqs with
  | [] => (p, 0%nat)
  | (now, d) :: rest =>
      if nav_dropped now p then navigate rest p
      else
        let '(p', n) := navigate rest (nav_commit now d p) in
        (p', S n)
  end.

End LegacyPage.

(** ** Feed construction and the slideshow *)

Module Feed.

(** The music columns of a product row; [None] is null/undefined. *)
Record ProductMusic := {
  has_music : option bool;
  music_url : option string;
  music_obj_url : option string;        (* product.music?.url *)
  audio_url : option string;
  music_audio_url : option string;
  music_title : option string;
  music_obj_title : option string;      (* product.music?.title *)
  music_artist : option string;
  music_obj_artist : option string      (* product.music?.artist *)
}.

(** [hasMusic] of [generateReelsFromProducts]. *)
Definition hasMusic (p : ProductMusic) : bool :=
  match has_music p with Some true => true | _ => false end
  || is_truthy (music_url p) || is_truthy (music_obj_url p)
  || is_truthy (audio_url p) || is_truthy (music_audio_url p).

(** [musicUrl]: the first truthy operand of the [||] chain that ends in
    [null]. *)
Definition musicUrl (p : ProductMusic) : option string :=
  if is_truthy (music_url p) then music_url p
  else if is_truthy (music_obj_url p) then music_obj_url p
  else if is_truthy (audio_url p) then audio_url p
  else if is_truthy (music_audio_url p) then music_audio_url p
  else None.

(** [a || b || d] on optional strings with a default. *)
Definition first_or (a b : option string) (d : string) : string :=
  match or_else a b with
  | Some s => if truthy s then s else d
  | None => d
  end.

(** The [music] field of the generated reel. *)
Definition embedded_music (p : ProductMusic) : option Music :=
  match musicUrl p with
  | Some u =>
      if hasMusic p && truthy u then
        Some {| m_url := u;
                m_title := Some (first_or (music_title p) (music_obj_title p)
                                   "Background Music");
                m_artist := Some (first_or (music_artist p) (music_obj_artist p)
                                    "Ehsaas Jewels");
                m_startAt := None; m_endAt := None |}
      else None
  | None => None
  end.

(** [generatedReels.findIndex(r => r.id === reelParam)] *)
Fixpoint findIndex_from (i : Z) (param : string) (reels : list Reel) : Z :=
  match reels with
  | [] => -1
  | r :: rest =>
      if String.eqb (r_id r) param then i else findIndex_from (i + 1) param rest
  end.

Definition findIndex (param : string) (reels : list Reel) : Z :=
  findIndex_from 0 param reels.

(** The index the page opens on: the reel named by the [reel] query
    parameter when there is one; the initial state is 0. *)
Definition initial_index (reelParam : option string) (reels : list Reel) : Z :=
  match reelParam with
  | Some param =>
      if truthy param then
        let idx := findIndex param reels in
        if 0 <=? idx then idx else 0
      else 0
  | None => 0
  end.

(** [gallerySlides] of the current reel. *)
Definition gallerySlides (currentReel : option Reel) : list string :=
  match currentReel with
  | Some r =>
      match r_galleryImages r with
      | Some (g :: gs) => g :: gs
      | _ => if truthy (r_posterImage r) then [r_posterImage r] else []
      end
  | None => []
  end.

(** The slideshow runs for image-only reels and after a video error, when
    there is more than one slide. *)
Definition slideshow_runs (hasVideo videoError : bool) (slides : list string) : bool :=
  negb (hasVideo && negb videoError) && (1 <? Z.of_nat (length slides)).

(** One tick of the slideshow interval: [(prev + 1) % gallerySlides.length]. *)
Definition next_slide (slides : list string) (prev : Z) : Z :=
  Z.rem (prev + 1) (Z.of_nat (length slides)).

End Feed.

(** ** Sample feed used by the examples *)

Module Samples.

Definition track_x : Music :=
  {| m_url := "x.mp3"; m_title := None; m_artist := None;
     m_startAt := None; m_endAt := None |}.

(** A video reel for product 52 without embedded music. *)
Definition reel_video : Reel :=
  {| r_id := "fr52"; r_videoUrl := Some "a.mp4"; r_posterImage := "p0.jpg";
     r_galleryImages := Some ["p0.jpg"; "p1.jpg"; "p2.jpg"];
     r_primaryProductId := Some "52"; r_productId := Some (JNum 52);
     r_hasMusic := false; r_music_url := None; r_music_audio_url := None;
     r_music := None |}.

(** An image-only reel for product 7 with embedded music. *)
Definition reel_images : Reel :=
  {| r_id := "fr7"; r_videoUrl := None; r_posterImage := "q0.jpg";
     r_galleryImages := Some ["q0.jpg"; "q1.jpg"];
     r_primaryProductId := Some "7"; r_productId := Some (JNum 7);
     r_hasMusic := true; r_music_url := None; r_music_audio_url := None;
     r_music := Some track_x |}.

(** A reel whose product id is only known as a non-numeric string. *)
Definition reel_bad_id : Reel :=
  {| r_id := "frabc"; r_videoUrl := None; r_posterImage := "z0.jpg";
     r_galleryImages := None;
     r_primaryProductId := Some "abc"; r_productId := None;
     r_hasMusic := false; r_music_url := None; r_music_audio_url := None;
     r_music := None |}.

Definition feed : list Reel :=
  [reel_video; reel_images; reel_bad_id; reel_video; reel_images].

(** The lookup table of the spec's scenario for product 52. *)
Definition table_52 : list MusicResolver.MusicRow :=
  [ {| MusicResolver.mr_product_id := 52; MusicResolver.mr_is_active := true;
       MusicResolver.mr_priority := 2;
       MusicResolver.mr_row :=
         {| MusicResolver.audio_url := Some "y.mp3"; MusicResolver.title := None;
            MusicResolver.artist := None; MusicResolver.start_at_seconds := None;
            MusicResolver.end_at_seconds := None |} |};
    {| MusicResolver.mr_product_id := 52; MusicResolver.mr_is_active := true;
       MusicResolver.mr_priority := 1;
       MusicResolver.mr_row :=
         {| MusicResolver.audio_url := Some "x.mp3"; MusicResolver.title := None;
            MusicResolver.artist := None; MusicResolver.start_at_seconds := None;
            MusicResolver.end_at_seconds := None |} |} ].

End Samples.

(** ** Request timings for the navigation claims *)




(** * Properties *)

(** ** Audio manager: bookkeeping lemmas *)

Section AudioManagerFacts.
Import AudioManager.

Lemma started_emit e m :
  started (emit e m) = (started m + (if is_start e then 1 else 0))%nat.
Proof.
  unfold started, emit; cbn. rewrite List.filter_app, length_app.
  destruct e; cbn; lia.
Qed.

Lemma gain_writes_emit e m :
  gain_writes (emit e m) = (gain_writes m + (if is_gain_set e then 1 else 0))%nat.
Proof.
  unfold gain_writes, emit; cbn. rewrite List.filter_app, length_app.
  destruct e; cbn; lia.
Qed.

Lemma cleanup_released m : released (cleanup m).
Proof.
  unfold released, cleanup.
  destruct (fadeTimeout m) eqn:Ht; cbn; rewrite ?Ht;
    destruct (audioContext m); cbn; rewrite ?Ht; auto 10.
Qed.

Lemma cleanup_started m : started (cleanup m) = started m.
Proof.
  unfold cleanup, setState.
  destruct (fadeTimeout m); cbn; destruct (audioContext m); cbn;
    rewrite ?started_emit; cbn; unfold started; cbn;
    rewrite ?List.filter_app, ?length_app; cbn; lia.
Qed.

Lemma cleanup_gain_writes m : gain_writes (cleanup m) = gain_writes m.
Proof.
  unfold cleanup, setState.
  destruct (fadeTimeout m); cbn; destruct (audioContext m); cbn;
    unfold gain_writes; cbn; rewrite ?List.filter_app, ?length_app; cbn; lia.
Qed.

Lemma cleanup_transitionId m : transitionId (cleanup m) = transitionId m.
Proof.
  unfold cleanup. destruct (fadeTimeout m); cbn; destruct (audioContext m); reflexivity.
Qed.

Lemma cleanup_sound m : sound (cleanup m) = sound m.
Proof.
  unfold cleanup. destruct (fadeTimeout m); cbn; destruct (audioContext m); reflexivity.
Qed.

Lemma play_catch_released m : released (play_catch m).1.
Proof. apply cleanup_released. Qed.

Lemma play_catch_started m : started (play_catch m).1 = started m.
Proof.
  change (started (cleanup (emit Warned m)) = started m).
  rewrite cleanup_started, started_emit; cbn; lia.
Qed.

End AudioManagerFacts.

(** ** Audio manager: what each block leaves untouched *)

Section AudioManagerFrames.
Import AudioManager.

Local Ltac crush_mgr :=
  repeat (first [ progress cbn | case_match ]); try reflexivity; try lia.

Lemma setVolume_keeps v m :
  transitionId (setVolume v m) = transitionId m
  /\ sound (setVolume v m) = sound m
  /\ fadeTimeout (setVolume v m) = fadeTimeout m
  /\ started (setVolume v m) = started m
  /\ state (setVolume v m) = state m.
Proof.
  unfold setVolume; cbn. destruct (gainNode m); cbn; repeat split.
  unfold started; cbn. rewrite List.filter_app, length_app; cbn; lia.
Qed.

Lemma unload_keeps m :
  transitionId (unload m) = transitionId m /\ sound (unload m) = sound m
  /\ started (unload m) = started m.
Proof.
  unfold unload. destruct (SoundState_eqb (state m) idle); [auto|].
  rewrite cleanup_transitionId, cleanup_sound, cleanup_started.
  unfold started.
  destruct m as [ctx buf src gn st url tid vol mu ft snd tr fr]; cbn.
  destruct gn, src; cbn; repeat split;
    rewrite ?List.filter_app, ?length_app; cbn; lia.
Qed.

Lemma unload_fadeTimeout m :
  fadeTimeout m = None -> fadeTimeout (unload m) = None.
Proof.
  intros H. unfold unload. destruct (SoundState_eqb (state m) idle); [auto|].
  apply cleanup_released.
Qed.

Lemma fadeTo_call_keeps from to d env m :
  transitionId (fadeTo_call from to d env m).1 = transitionId m
  /\ sound (fadeTo_call from to d env m).1 = sound m
  /\ started (fadeTo_call from to d env m).1 = started m
  /\ gain_writes (fadeTo_call from to d env m).1 = gain_writes m.
Proof.
  unfold fadeTo_call, started, gain_writes.
  destruct m as [ctx buf src gn st url tid vol mu ft snd tr fr]; cbn.
  destruct ft, snd; cbn; repeat split;
    rewrite ?List.filter_app, ?length_app; cbn; lia.
Qed.

(** With [sound] unset and no timer armed, [fadeTo] does nothing at all. *)
Lemma fadeTo_call_idle from to d env m :
  sound m = false -> fadeTimeout m = None ->
  fadeTo_call from to d env m = (m, []).
Proof. intros Hs Ht. unfold fadeTo_call. rewrite Ht; cbn. now rewrite Hs. Qed.

Lemma stop_call_keeps fadeOut env m :
  transitionId (stop_call fadeOut env m).1 = transitionId m
  /\ sound (stop_call fadeOut env m).1 = sound m
  /\ started (stop_call fadeOut env m).1 = started m.
Proof.
  unfold stop_call.
  destruct (_ || _); [auto|]. destruct (_ || _); [auto|].
  destruct fadeOut.
  - pose proof (fadeTo_call_keeps (volume (setState stopping m)) 0 500 env
                  (setState stopping m)) as (H1 & H2 & H3 & _).
    destruct (fadeTo_call _ _ _ _ _) as [m2 fs]; cbn in *.
    rewrite H1, H2, H3. repeat split.
    unfold started; cbn. rewrite List.filter_app, length_app; cbn; lia.
  - cbn [fst]. destruct (unload_keeps (setState stopping m)) as (H1 & H2 & H3).
    rewrite H1, H2, H3. repeat split.
    unfold started; cbn. rewrite List.filter_app, length_app; cbn; lia.
Qed.

Lemma play_catch_keeps m :
  transitionId (play_catch m).1 = transitionId m
  /\ sound (play_catch m).1 = sound m.
Proof.
  unfold play_catch; cbn [fst].
  now rewrite cleanup_transitionId, cleanup_sound.
Qed.

Local Ltac by_catch :=
  match goal with |- context [play_catch ?x] =>
    let H1 := fresh in let H2 := fresh in
    destruct (play_catch_keeps x) as (H1 & H2); rewrite H1, H2; auto
  end.

Lemma play_build_keeps fadeIn env m :
  transitionId (play_build fadeIn env m).1 = transitionId m
  /\ sound (play_build fadeIn env m).1 = sound m.
Proof.
  unfold play_build; cbv zeta.
  destruct (audioContext m) eqn:Hc; [|apply play_catch_keeps].
  destruct (fails_at env AtCreateSource); [by_catch|].
  destruct (fails_at env AtCreateGain); [by_catch|].
  destruct (fails_at env AtConnect); [by_catch|].
  destruct (fails_at env AtStart); [by_catch|].
  destruct fadeIn.
  - match goal with |- context [fadeTo_call ?a ?b ?c ?e ?x] =>
      pose proof (fadeTo_call_keeps a b c e x) as (H1 & H2 & _);
      destruct (fadeTo_call a b c e x) as [m7 fs] end.
    cbn [fst] in *. rewrite H1, H2. auto.
  - cbn [fst]. match goal with |- context [setVolume ?v ?x] =>
      destruct (setVolume_keeps v x) as (H1 & H2 & _) end.
    rewrite H1, H2. auto.
Qed.

Lemma run_frame_keeps f env m :
  transitionId (run_frame f env m).1 = transitionId m
  /\ sound (run_frame f env m).1 = sound m.
Proof.
  destruct f; cbn [run_frame].
  - destruct (_ || _); [auto|]. cbn [fst].
    match goal with |- context [setVolume ?v ?x] =>
      destruct (setVolume_keeps v x) as (H1 & H2 & _) end. auto.
  - destruct more; auto.
  - destruct (timer_cleared _ _); auto.
  - destruct (SoundState_eqb _ _); auto.
  - cbn [fst]. destruct (unload_keeps m) as (H1 & H2 & _). auto.
  - cbn [fst]. rewrite cleanup_transitionId, cleanup_sound. auto.
  - destruct (negb _); [auto|].
    destruct (audioContext _); [auto|].
    destruct (env_ctx_ok env); [auto|]. by_catch.
  - destruct (env_ok env); [auto|apply play_catch_keeps].
  - destruct (env_ok env); [|apply play_catch_keeps].
    destruct (audioContext m); [auto|apply play_catch_keeps].
  - destruct (env_ok env); [|apply play_catch_keeps].
    destruct (negb _); cbn [fst];
      [rewrite cleanup_transitionId, cleanup_sound; auto|].
    match goal with |- context [play_build ?a ?e ?x] =>
      destruct (play_build_keeps a e x) as (H1 & H2) end.
    rewrite H1, H2. auto.
Qed.

(** The transition counter never decreases, and only [play] moves it. *)
Lemma step_transitionId env inp s :
  transitionId (mgr (step env inp s)) =
  match inp with
  | CallPlay _ _ => S (transitionId (mgr s))
  | _ => transitionId (mgr s)
  end.
Proof.
  destruct inp; cbn.
  - unfold play_call.
    pose proof (stop_call_keeps true env
                  (set_transitionId (S (transitionId (mgr s))) (mgr s))) as (H & _).
    destruct (stop_call _ _ _) as [m2 fs]; cbn in *. exact H.
  - apply stop_call_keeps.
  - unfold setMuted.
    match goal with |- context [setVolume ?v ?x] =>
      destruct (setVolume_keeps v x) as (H & _) end. now rewrite H.
  - unfold dispose_call.
    pose proof (stop_call_keeps true env (mgr s)) as (H & _).
    destruct (stop_call _ _ _) as [m2 fs]; cbn in *. exact H.
  - destruct (tasks s !! i) as [[[|f rest]| |]|]; try reflexivity.
    pose proof (run_frame_keeps f env (mgr s)) as (H & _).
    destruct (run_frame f env (mgr s)) as [m' [fs|]]; cbn in *; exact H.
Qed.



End AudioManagerFrames.

(** ** Audio manager: the fade guard *)

Section AudioManagerQuiet.
Import AudioManager.

Lemma setVolume_quiet v m :
  sound m = false -> fadeTimeout m = None ->
  sound (setVolume v m) = false /\ fadeTimeout (setVolume v m) = None.
Proof.
  intros Hs Ht. destruct (setVolume_keeps v m) as (_ & H1 & H2 & _).
  now rewrite H1, H2.
Qed.

Lemma cleanup_quiet m :
  sound m = false -> sound (cleanup m) = false /\ fadeTimeout (cleanup m) = None.
Proof. intros Hs. rewrite cleanup_sound. split; [done|apply cleanup_released]. Qed.

Lemma unload_quiet m :
  sound m = false -> fadeTimeout m = None ->
  sound (unload m) = false /\ fadeTimeout (unload m) = None.
Proof.
  intros Hs Ht. destruct (unload_keeps m) as (_ & H1 & _).
  rewrite H1. split; [done|now apply unload_fadeTimeout].
Qed.

Lemma stop_call_quiet fadeOut env m :
  sound m = false -> fadeTimeout m = None ->
  let r := stop_call fadeOut env m in
  sound r.1 = false /\ fadeTimeout r.1 = None /\ forallb ramp_free r.2 = true.
Proof.
  intros Hs Ht. unfold stop_call.
  destruct (_ || _); [auto|]. destruct (_ || _); [auto|].
  destruct fadeOut.
  - rewrite fadeTo_call_idle by (cbn; assumption). cbn. auto.
  - cbn [fst snd]. destruct (unload_quiet (setState stopping m)) as (H1 & H2); auto.
Qed.

Lemma play_build_quiet fadeIn env m :
  sound m = false -> fadeTimeout m = None ->
  let r := play_build fadeIn env m in
  sound r.1 = false /\ fadeTimeout r.1 = None
  /\ (r.2 = Push [] \/ r.2 = Throw)
  /\ gain_writes r.1 = (gain_writes m + (if fadeIn then 0 else
                          match r.2 with Push _ => 1 | Throw => 0 end))%nat.
Proof.
  intros Hs Ht.
  assert (Hcatch : forall x, sound x = false -> gain_writes x = gain_writes m ->
            sound (play_catch x).1 = false /\ fadeTimeout (play_catch x).1 = None
            /\ ((play_catch x).2 = Push [] \/ (play_catch x).2 = Throw)
            /\ gain_writes (play_catch x).1 =
               (gain_writes m + (if fadeIn then 0 else 0))%nat).
  { intros x Hx Hg. unfold play_catch; cbn [fst snd].
    destruct (cleanup_quiet (emit Warned x)) as (H1 & H2); [exact Hx|].
    rewrite cleanup_gain_writes, gain_writes_emit, Hg. cbn.
    repeat split; auto. destruct fadeIn; lia. }
  unfold play_build; cbv zeta.
  destruct (audioContext m) eqn:Hc; [|apply Hcatch; auto].
  destruct (fails_at env AtCreateSource); [apply Hcatch; auto|].
  destruct (fails_at env AtCreateGain); [apply Hcatch; auto|].
  destruct (fails_at env AtConnect); [apply Hcatch; auto|].
  destruct (fails_at env AtStart); [apply Hcatch; auto|].
  destruct fadeIn.
  - rewrite fadeTo_call_idle by (cbn; assumption). cbn [fst snd].
    repeat split; auto.
    unfold gain_writes; cbn. rewrite !List.filter_app, !length_app; cbn. lia.
  - cbn [fst snd].
    match goal with |- context [setVolume ?v ?x] =>
      destruct (setVolume_quiet v x) as (H1 & H2); [exact Hs|exact Ht|] end.
    repeat split; auto.
    unfold setVolume, gain_writes. cbn.
    rewrite !List.filter_app, !length_app; cbn. lia.
Qed.

Lemma run_frame_quiet f env m :
  sound m = false -> fadeTimeout m = None -> ramp_free f = true ->
  let r := run_frame f env m in
  sound r.1 = false /\ fadeTimeout r.1 = None
  /\ match r.2 with Push fs => forallb ramp_free fs = true | Throw => True end.
Proof.
  intros Hs Ht Hf.
  assert (Hcatch : forall x, sound x = false ->
            sound (play_catch x).1 = false /\ fadeTimeout (play_catch x).1 = None
            /\ match (play_catch x).2 with
               | Push fs => forallb ramp_free fs = true | Throw => True end).
  { intros x Hx. unfold play_catch; cbn [fst snd].
    destruct (cleanup_quiet (emit Warned x)) as (H1 & H2); auto. }
  destruct f; try discriminate Hf; cbn [run_frame].
  - destruct (SoundState_eqb _ _); cbn; auto.
  - cbn [fst snd]. destruct (unload_quiet m) as (H1 & H2); auto.
  - cbn [fst snd]. destruct (cleanup_quiet m) as (H1 & H2); auto.
  - destruct (negb _); [cbn; auto|].
    destruct (audioContext _); [cbn; auto|].
    destruct (env_ctx_ok env); [cbn; auto|]. apply Hcatch; auto.
  - destruct (env_ok env); [cbn; auto|apply Hcatch; auto].
  - destruct (env_ok env); [|apply Hcatch; auto].
    destruct (audioContext m); [cbn; auto|apply Hcatch; auto].
  - destruct (env_ok env); [|apply Hcatch; auto].
    destruct (negb _); cbn [fst snd].
    + destruct (cleanup_quiet (set_audioBuffer (Some url) m)) as (H1 & H2); auto.
    + match goal with |- context [play_build ?a ?e ?x] =>
        destruct (play_build_quiet a e x) as (H1 & H2 & H3 & _);
          [exact Hs|exact Ht|] end.
      repeat split; auto. destruct H3 as [-> | ->]; auto.
Qed.

Lemma forallb_insert {A} (P : A -> bool) (l : list A) i x :
  forallb P l = true -> P x = true -> forallb P (<[i := x]> l) = true.
Proof.
  revert i. induction l as [|y l IH]; intros i Hl Hx; cbn in *; [done|].
  apply andb_true_iff in Hl as [Hy Hl].
  destruct i; cbn; apply andb_true_iff; auto.
Qed.

Lemma forallb_lookup {A} (P : A -> bool) (l : list A) i x :
  forallb P l = true -> l !! i = Some x -> P x = true.
Proof.
  revert i. induction l as [|y l IH]; intros i Hl Hi; cbn in *; [done|].
  apply andb_true_iff in Hl as [Hy Hl].
  destruct i; cbn in *; [congruence|eauto].
Qed.

Lemma status_of_ramp_free fs :
  forallb ramp_free fs = true -> ramp_free_status (status_of fs) = true.
Proof. destruct fs; cbn; auto. Qed.

Lemma step_quiet env inp s : quiet s -> quiet (step env inp s).
Proof.
  intros (Hs & Ht & Hf). unfold quiet.
  assert (Hspawn : forall r : Mgr * list Frame,
            sound r.1 = false -> fadeTimeout r.1 = None ->
            forallb ramp_free r.2 = true -> quiet (spawn r s)).
  { intros r H1 H2 H3. unfold quiet, spawn; cbn.
    rewrite forallb_app, Hf; cbn. rewrite status_of_ramp_free; auto. }
  destruct inp; cbn [step].
  - unfold play_call.
    pose proof (stop_call_quiet true env
                  (set_transitionId (S (transitionId (mgr s))) (mgr s)) Hs Ht)
      as (H1 & H2 & H3).
    destruct (stop_call _ _ _) as [m2 fs]; cbn [fst snd] in *.
    apply Hspawn; cbn [fst snd]; auto.
    rewrite forallb_app, H3. reflexivity.
  - destruct (stop_call_quiet fadeOut env (mgr s)) as (H1 & H2 & H3); auto.
    apply Hspawn; auto.
  - cbn. unfold setMuted.
    match goal with |- context [setVolume ?v ?x] =>
      destruct (setVolume_quiet v x) as (H1 & H2); [exact Hs|exact Ht|] end.
    rewrite forallb_app, Hf. auto.
  - unfold dispose_call.
    pose proof (stop_call_quiet true env (mgr s) Hs Ht) as (H1 & H2 & H3).
    destruct (stop_call _ _ _) as [m2 fs]; cbn [fst snd] in *.
    apply Hspawn; cbn [fst snd]; auto.
    rewrite forallb_app, H3. reflexivity.
  - destruct (tasks s !! i) as [[[|f rest]| |]|] eqn:Hi; auto.
    pose proof (forallb_lookup _ _ _ _ Hf Hi) as Hfr. cbn in Hfr.
    apply andb_true_iff in Hfr as [Hfr1 Hfr2].
    destruct (run_frame_quiet f env (mgr s) Hs Ht Hfr1) as (H1 & H2 & H3).
    destruct (run_frame f env (mgr s)) as [m' [fs|]]; cbn in *.
    + repeat split; auto. apply forallb_insert; auto.
      apply status_of_ramp_free. rewrite forallb_app, H3, Hfr2. reflexivity.
    + repeat split; auto. apply forallb_insert; auto.
Qed.

Lemma reachable_quiet s : Reachable s -> quiet s.
Proof.
  induction 1 as [|env inp s _ IH]; [repeat split|now apply step_quiet].
Qed.

End AudioManagerQuiet.

(** ** Audio manager: transition stamps *)

Section AudioManagerStamps.
Import AudioManager.









(** A decode that completes under an outdated stamp plays nothing and
    leaves the engine released. *)
Lemma stale_decode my url fadeIn env m :
  my <> transitionId m ->
  let r := run_frame (FPlayDecode my url fadeIn) env m in
  released r.1 /\ started r.1 = started m /\ (r.2 = Push [] \/ r.2 = Throw).
Proof.
  intros Hne. cbn [run_frame].
  destruct (env_ok env).
  - cbn [transitionId set_audioBuffer].
    destruct (Nat.eqb_spec my (transitionId m)) as [->|_]; [done|].
    cbn [negb fst snd]. split; [apply cleanup_released|].
    split; [|auto]. rewrite cleanup_started. reflexivity.
  - split; [apply play_catch_released|].
    split; [apply play_catch_started|auto].
Qed.

End AudioManagerStamps.

(** ** Audio manager: the claims *)

Section AudioManagerClaims.
Import AudioManager.

Lemma sys_loading_reachable : Reachable sys_loading.
Proof. unfold sys_loading. do 2 apply Reach_step. apply Reach_init. Defined.

Lemma sys_playing_reachable : Reachable sys_playing.
Proof. unfold sys_playing. do 3 apply Reach_step. apply sys_loading_reachable. Defined.

(** C1 does not hold of the code for [stop]: a [stop] that arrives while a
    [play] is still fetching returns at once (no source node and no buffer
    exist yet), leaves the transition counter as it was and cancels nothing,
    so the abandoned track starts when its decode completes. [play] itself
    calls [stop] under the comment "Cancel any ongoing operations". *)
Lemma stop_does_not_supersede_play :
  let s1 := step env_good (CallStop true) sys_loading in
  let s2 := run s1 [(env_good, Resume 0); (env_good, Resume 0);
                    (env_good, Resume 0)] in
  mgr s1 = mgr sys_loading
  /\ state (mgr sys_loading) = loading
  /\ started (mgr s2) = 1%nat
  /\ state (mgr s2) = playing
  /\ currentUrl (mgr s2) = Some "a.mp3"
  /\ ~ (forall later : Input,
          is_play_or_stop later = true ->
          started (mgr (run (step env_good later sys_loading)
                          [(env_good, Resume 0); (env_good, Resume 0);
                           (env_good, Resume 0)])) = 0%nat).
Proof.
  cbv zeta. do 5 (split; [vm_compute; reflexivity|]).
  intros H. specialize (H (CallStop true) eq_refl).
  vm_compute in H. discriminate H.
Qed.



(** C2: the sequence [setMuted(true); setMuted(false)] does not restore
    the earlier volume. [setMuted(true)] passes 0 through [setVolume], which
    stores it in [volume]; after unmuting, the stored and the effective
    volume, and the gain when a track plays, are 0 whatever they were. *)
Theorem setMuted_roundtrip_loses_volume (m : Mgr) :
  let m' := setMuted false (setMuted true m) in
  volume m' = 0%Q /\ effective_volume m' = 0%Q /\ isMuted m' = false
  /\ (is_Some (gainNode m) -> gainNode m' = Some 0%Q)
  /\ state m' = state m /\ started m' = started m.
Proof.
  destruct m as [ctx buf src gn st url tid vol mu ft snd tr fr].
  unfold setMuted, setVolume, effective_volume, started; cbn.
  destruct gn; cbn; repeat split; try done;
    try (rewrite !List.filter_app, !length_app; cbn; lia);
    try (intros [? [=]]).
Qed.



(** C10: in every state the engine can reach, the field [sound] is unset,
    so [fadeTo] returns at once and changes nothing; [stop(true)] followed by
    its continuation makes exactly the changes of [stop(false)]; and a [play]
    with [fadeIn] writes no gain at all when its decode completes and leaves
    no ramp pending. *)
Theorem fadeTo_is_inert (s : Sys) (env env' : Env) :
  Reachable s ->
  let m := mgr s in
  sound m = false
  /\ (forall from to d, fadeTo_call from to d env m = (m, []))
  /\ (let r := stop_call true env m in
      match r.2 with
      | [FStopUnload] =>
          run_frame FStopUnload env' r.1 = ((stop_call false env m).1, Push [])
          /\ (stop_call false env m).2 = []
      | _ => stop_call false env m = r
      end)
  /\ (forall my url,
        let r := run_frame (FPlayDecode my url true) env m in
        gain_writes r.1 = gain_writes m /\ (r.2 = Push [] \/ r.2 = Throw)).
Proof.
  intros Hr m. destruct (reachable_quiet s Hr) as (Hs & Ht & _).
  fold m in Hs, Ht. split; [exact Hs|]. split; [|split].
  - intros. now apply fadeTo_call_idle.
  - unfold stop_call.
    destruct (_ || _); [reflexivity|]. destruct (_ || _); [reflexivity|].
    rewrite fadeTo_call_idle by (cbn; assumption). cbn. auto.
  - intros my url. cbn [run_frame].
    destruct (env_ok env).
    + destruct (negb _); cbn [fst snd].
      * rewrite cleanup_gain_writes. unfold gain_writes; cbn. auto.
      * match goal with |- context [play_build ?a ?e ?x] =>
          destruct (play_build_quiet a e x) as (_ & _ & H3 & H4);
            [exact Hs|exact Ht|] end.
        split; [|exact H3]. rewrite H4. unfold gain_writes; cbn.
        rewrite List.filter_app, length_app; cbn. lia.
    + unfold play_catch; cbn [fst snd]. rewrite cleanup_gain_writes.
      rewrite gain_writes_emit. cbn. split; [lia|auto].
Qed.

Lemma fadeTo_is_inert_witness :
  sound (mgr sys_playing) = false
  /\ fadeTo_call 0 1 500 env_good (mgr sys_playing) = (mgr sys_playing, []).
Proof.
  pose proof (fadeTo_is_inert sys_playing env_good env_good sys_playing_reachable)
    as (H1 & H2 & _).
  split; [exact H1|exact (H2 0%Q 1%Q 500%Q)].
Defined.

End AudioManagerClaims.

(** ** Price mapping *)

Section PriceClaims.
Import Prices.

Lemma js_min_max_ordered (a b : Q) :
  (js_min a b <= js_max a b)%Q
  /\ ((js_min a b = a /\ js_max a b = b) \/ (js_min a b = b /\ js_max a b = a)).
Proof.
  unfold js_min, js_max. destruct (Qle_bool a b) eqn:H.
  - apply Qle_bool_iff in H. auto.
  - split; [|auto]. apply Qlt_le_weak, Qnot_le_lt.
    intros Hle. apply Qle_bool_iff in Hle. congruence.
Qed.

(** C7, as stated, fails on the legacy page: it trusts the field order, so
    (price=500, sale_price=800) resolves to current 800 and original 500. *)
Lemma legacy_price_trusts_field_order :
  resolve_price_legacy {| price := Some 500%Q; sale_price := Some 800%Q |}
  = {| current := Some 800%Q; original := Some 500%Q |}
  /\ resolve_price_legacy {| price := Some 500%Q; sale_price := Some 800%Q |}
     <> {| current := Some 500%Q; original := Some 800%Q |}.
Proof. split; [reflexivity|discriminate]. Qed.

(** C7 (amended): on the engine page the resolved pair is normalised:
    with the alternate value absent or equal to the base price, the current
    price is the base and the original is undefined; otherwise current is the
    smaller and original the larger of the two; (500, 800) and (800, 500)
    both resolve to current 500, original 800. The legacy page instead takes
    a non-zero [sale_price] as current and [price] as original. *)
Theorem engine_price_normalized (p : RawProduct) :
  let base := default 0%Q (price p) in
  match sale_price p with
  | None => resolve_price p = {| current := Some base; original := None |}
  | Some alt =>
      if Qeq_bool alt base
      then resolve_price p = {| current := Some base; original := None |}
      else exists c o,
          resolve_price p = {| current := Some c; original := Some o |}
          /\ (c <= o)%Q
          /\ ((c = base /\ o = alt) \/ (c = alt /\ o = base))
  end
  /\ resolve_price {| price := Some 500%Q; sale_price := Some 800%Q |}
     = {| current := Some 500%Q; original := Some 800%Q |}
  /\ resolve_price {| price := Some 800%Q; sale_price := Some 500%Q |}
     = {| current := Some 500%Q; original := Some 800%Q |}
  /\ resolve_price_legacy p
     = if num_truthy (sale_price p)
       then {| current := sale_price p; original := price p |}
       else {| current := price p; original := None |}.
Proof.
  cbv zeta. split; [|repeat split].
  destruct p as [[b|] [alt|]]; unfold resolve_price; cbn; try reflexivity.
  - destruct (Qeq_bool alt b); [reflexivity|].
    destruct (js_min_max_ordered b alt) as (Hle & Hcase).
    exists (js_min b alt), (js_max b alt). repeat split; [exact Hle|].
    destruct Hcase as [[-> ->]|[-> ->]]; auto.
  - destruct (Qeq_bool alt 0); [reflexivity|].
    destruct (js_min_max_ordered 0 alt) as (Hle & Hcase).
    exists (js_min 0 alt), (js_max 0 alt). repeat split; [exact Hle|].
    destruct Hcase as [[-> ->]|[-> ->]]; auto.
Qed.

End PriceClaims.

(** ** Feed navigation *)

Section NavigationClaims.














End NavigationClaims.

(** ** The preload cache *)

Section CacheClaims.
Import MediaCache.



Lemma preloadImage_keeps url c :
  preloadedVideos (preloadImage url c) = preloadedVideos c
  /\ evicted (preloadImage url c) = evicted c.
Proof.
  unfold preloadImage. destruct url as [u|]; [|auto].
  destruct (negb (truthy u)); [auto|].
  destruct (bool_decide _); auto.
Qed.

Lemma addPrefetch_keeps url c :
  preloadedVideos (addPrefetch url c) = preloadedVideos c
  /\ evicted (addPrefetch url c) = evicted c.
Proof. unfold addPrefetch. destruct (_ || _); auto. Qed.

Lemma preloadVideo_keeps url c :
  evicted (preloadVideo url c) = evicted c
  /\ forall u v, preloadedVideos c !! u = Some v ->
                 preloadedVideos (preloadVideo url c) !! u = Some v.
Proof.
  unfold preloadVideo. destruct url as [w|]; [|auto].
  destruct (negb (truthy w)); [auto|].
  destruct (bool_decide (is_Some (preloadedVideos c !! w))) eqn:Hw; [auto|].
  split; [reflexivity|]. intros u v Hu. cbn.
  apply bool_decide_eq_false_1 in Hw.
  destruct (decide (w = u)) as [->|Hne].
  - exfalso. apply Hw. eauto.
  - now rewrite lookup_insert_ne.
Qed.

Lemma foldl_preloadImage_keeps us c :
  preloadedVideos (foldl (fun c u => preloadImage (Some u) c) c us) = preloadedVideos c
  /\ evicted (foldl (fun c u => preloadImage (Some u) c) c us) = evicted c.
Proof.
  revert c. induction us as [|u us IH]; intros c; cbn [foldl]; [auto|].
  destruct (IH (preloadImage (Some u) c)) as [H1 H2].
  destruct (preloadImage_keeps (Some u) c) as [H3 H4].
  rewrite H1, H2, H3, H4. auto.
Qed.

Lemma preload_reel_keeps reels c idx :
  evicted (preload_reel reels c idx) = evicted c
  /\ forall u v, preloadedVideos c !! u = Some v ->
                 preloadedVideos (preload_reel reels c idx) !! u = Some v.
Proof.
  unfold preload_reel. destruct (reel_at reels idx) as [reel|]; [|auto].
  cbv zeta.
  set (c1 := preloadImage (Some (r_posterImage reel)) c).
  set (c2 := match r_galleryImages reel with
             | Some g => foldl (fun c u => preloadImage (Some u) c) c1 (take 2 g)
             | None => c1
             end).
  set (c3 := if is_truthy (r_videoUrl reel)
             then preloadVideo (r_videoUrl reel) c2 else c2).
  assert (H1 : preloadedVideos c1 = preloadedVideos c /\ evicted c1 = evicted c)
    by apply preloadImage_keeps.
  assert (H2 : preloadedVideos c2 = preloadedVideos c /\ evicted c2 = evicted c).
  { unfold c2. destruct (r_galleryImages reel) as [g|]; [|exact H1].
    destruct (foldl_preloadImage_keeps (take 2 g) c1) as [Ha Hb].
    destruct H1 as [Hc Hd]. rewrite Ha, Hb, Hc, Hd. auto. }
  assert (H3 : evicted c3 = evicted c
               /\ forall u v, preloadedVideos c !! u = Some v ->
                              preloadedVideos c3 !! u = Some v).
  { unfold c3. destruct H2 as [Ha Hb].
    destruct (is_truthy (r_videoUrl reel)).
    - destruct (preloadVideo_keeps (r_videoUrl reel) c2) as [Hc Hd].
      rewrite Hc, Hb. split; [reflexivity|].
      intros u v Hu. apply Hd. now rewrite Ha.
    - rewrite Hb, Ha. auto. }
  destruct (music_url_of reel) as [mu|]; [|exact H3].
  destruct (truthy mu); [|exact H3].
  destruct (addPrefetch_keeps mu c3) as [Ha Hb]. rewrite Ha, Hb. exact H3.
Qed.

Lemma foldl_preload_reel_keeps reels idxs c :
  evicted (foldl (preload_reel reels) c idxs) = evicted c
  /\ forall u v, preloadedVideos c !! u = Some v ->
                 preloadedVideos (foldl (preload_reel reels) c idxs) !! u = Some v.
Proof.
  revert c. induction idxs as [|i idxs IH]; intros c; cbn [foldl]; [auto|].
  destruct (IH (preload_reel reels c i)) as [H1 H2].
  destruct (preload_reel_keeps reels c i) as [H3 H4].
  rewrite H1, H3. split; [reflexivity|]. intros u v Hu. apply H2, H4, Hu.
Qed.

Lemma release_video_cleared v :
  ve_src (release_video v) = "" /\ ve_loads (release_video v) = S (ve_loads v).
Proof. split; reflexivity. Qed.


End CacheClaims.


(** ** The music resolver *)

Section ResolverClaims.
Import MusicResolver.

Variable Number : string -> jsnum.
Variable backend : Query -> Response.

Lemma music_effect_falls_back v reel :
  no_embedded_url reel ->
  music_effect Number backend v (Some reel) = fetchMusic Number backend v (Some reel).
Proof.
  unfold no_embedded_url, music_effect.
  destruct (r_music reel) as [mu|]; [|reflexivity]. now intros ->.
Qed.

Lemma fetchMusic_numeric v reel q :
  product_id_of Number reel = Some (JNum q) ->
  fetchMusic Number backend v (Some reel) =
  let qy := music_query (JNum q) in
  {| sent := probe_of v ++ [Select qy];
     set_music :=
       match backend qy with
       | Answer (Some (r :: _)) false =>
           if is_truthy (audio_url r) then
             Some (Some
               {| m_url := default "" (audio_url r);
                  m_title := Some (or_default (title r) "Background Music");
                  m_artist := Some (or_default (artist r) "Ehsaas Jewels");
                  m_startAt := Some (num_or_zero (start_at_seconds r));
                  m_endAt := end_at_seconds r |})
           else Some None
       | _ => Some None
       end |}.
Proof.
  unfold product_id_of, fetchMusic. intros Hid.
  destruct (r_productId reel) as [n|].
  - injection Hid as ->. cbn.
    destruct (backend _) as [|[[|r rows]|] [|]]; destruct v; cbn; try reflexivity;
      destruct (is_truthy (audio_url r)); reflexivity.
  - destruct (r_primaryProductId reel) as [sid|]; [|discriminate].
    cbn in Hid. injection Hid as Hid. cbn. rewrite Hid. cbn.
    destruct (backend _) as [|[[|r rows]|] [|]]; destruct v; cbn; try reflexivity;
      destruct (is_truthy (audio_url r)); reflexivity.
Qed.

End ResolverClaims.

(** C9: on either page, a reel with an embedded [music.url] resolves to
    that track and nothing is sent; otherwise, with a numeric product id, one
    query is sent for the active rows of that product ordered by priority
    ascending, limited to one row, and the first returned row with an audio
    URL becomes the track; an empty answer resolves to no music; a product id
    that is not a number resolves to no music and no query is sent. *)
Theorem resolver_order
    (Number : string -> jsnum) (backend : MusicResolver.Query -> MusicResolver.Response)
    (v : MusicResolver.Variant) (reel : Reel) :
  (forall mu, r_music reel = Some mu -> truthy (m_url mu) = true ->
     let r := MusicResolver.music_effect Number backend v (Some reel) in
     MusicResolver.sent r = []
     /\ exists t, MusicResolver.set_music r = Some (Some t) /\ m_url t = m_url mu)
  /\ (forall q, MusicResolver.no_embedded_url reel -> MusicResolver.product_id_of Number reel = Some (JNum q) ->
        let r := MusicResolver.music_effect Number backend v (Some reel) in
        let qy := MusicResolver.music_query (JNum q) in
        MusicResolver.sent r = MusicResolver.probe_of v ++ [MusicResolver.Select qy]
        /\ MusicResolver.q_product_id qy = JNum q
        /\ MusicResolver.q_is_active qy = true
        /\ MusicResolver.q_order_by qy = "priority"
        /\ MusicResolver.q_ascending qy = true
        /\ MusicResolver.q_limit qy = 1%nat
        /\ (forall row rows url,
              backend qy = MusicResolver.Answer (Some (row :: rows)) false ->
              MusicResolver.audio_url row = Some url -> truthy url = true ->
              exists t, MusicResolver.set_music r = Some (Some t) /\ m_url t = url)
        /\ (backend qy = MusicResolver.Answer (Some []) false ->
              MusicResolver.set_music r = Some None))
  /\ (MusicResolver.no_embedded_url reel -> MusicResolver.product_id_of Number reel = Some JNaN ->
        let r := MusicResolver.music_effect Number backend v (Some reel) in
        MusicResolver.sent r = [] /\ MusicResolver.set_music r = Some None).
Proof.
  split; [|split].
  - intros mu Hmu Hurl. unfold MusicResolver.music_effect.
    rewrite Hmu, Hurl. cbn. split; [reflexivity|]. eexists; split; reflexivity.
  - intros q Hno Hid r qy. unfold r.
    rewrite music_effect_falls_back by exact Hno.
    rewrite (fetchMusic_numeric Number backend v reel q Hid). cbv zeta. cbn [MusicResolver.sent MusicResolver.set_music].
    fold qy. repeat split.
    + intros row rows url Hb Hau Htr. rewrite Hb. rewrite Hau. cbn. rewrite Htr.
      eexists; split; reflexivity.
    + intros Hb. rewrite Hb. reflexivity.
  - intros Hno Hid r. unfold r.
    rewrite music_effect_falls_back by exact Hno.
    unfold MusicResolver.product_id_of in Hid. unfold MusicResolver.fetchMusic.
    destruct (r_productId reel) as [n|].
    + injection Hid as ->. cbn. auto.
    + destruct (r_primaryProductId reel) as [sid|]; [|discriminate].
      cbn in Hid. injection Hid as Hid. cbn. rewrite Hid. cbn. auto.
Qed.

Lemma resolver_order_witness :
  (exists t,
     MusicResolver.set_music
       (MusicResolver.music_effect MusicResolver.Number_digits
          (MusicResolver.table_backend Samples.table_52) MusicResolver.EnginePage
          (Some Samples.reel_video)) = Some (Some t)
     /\ m_url t = "x.mp3")
  /\ MusicResolver.sent
       (MusicResolver.music_effect MusicResolver.Number_digits
          (MusicResolver.table_backend Samples.table_52) MusicResolver.EnginePage
          (Some Samples.reel_bad_id)) = [].
Proof.
  split.
  - destruct (resolver_order MusicResolver.Number_digits
                (MusicResolver.table_backend Samples.table_52) MusicResolver.EnginePage
                Samples.reel_video) as (_ & H & _).
    destruct (H 52%Q I eq_refl) as (_ & _ & _ & _ & _ & _ & Hrow & _).
    exact (Hrow _ _ "x.mp3" eq_refl eq_refl eq_refl).
  - destruct (resolver_order MusicResolver.Number_digits
                (MusicResolver.table_backend Samples.table_52) MusicResolver.EnginePage
                Samples.reel_bad_id) as (_ & _ & H).
    exact (proj1 (H I eq_refl)).
Defined.

(** ** Element-level muting of the video *)

Section VideoMuteClaims.

Lemma km_same (q p : EnginePage.Page) :
  EnginePage.videoRef q = EnginePage.videoRef p ->
  EnginePage.video_muted p -> EnginePage.video_muted q.
Proof. unfold EnginePage.video_muted. intros -> H. exact H. Qed.

Lemma km_on_video f p :
  (forall v, EnginePage.v_muted v = true -> EnginePage.v_muted (f v) = true) ->
  EnginePage.video_muted p -> EnginePage.video_muted (EnginePage.on_video f p).
Proof.
  unfold EnginePage.video_muted, EnginePage.on_video. intros Hf H v'. cbn.
  destruct (EnginePage.videoRef p) as [v|]; cbn; [|discriminate].
  intros [= <-]. apply Hf, H. reflexivity.
Qed.

Lemma km_on_video_mute f p :
  (forall v, EnginePage.v_muted (f v) = true) ->
  EnginePage.video_muted (EnginePage.on_video f p).
Proof.
  unfold EnginePage.video_muted, EnginePage.on_video. intros Hf v'. cbn.
  destruct (EnginePage.videoRef p) as [v|]; cbn; [|discriminate].
  intros [= <-]. apply Hf.
Qed.

Lemma km_mount_video p : EnginePage.video_muted (EnginePage.mount_video p).
Proof. intros v'. cbn. intros [= <-]. reflexivity. Qed.

Lemma km_unmount_video p : EnginePage.video_muted (EnginePage.set_videoRef None p).
Proof. intros v'. cbn. discriminate. Qed.

(** Steps through a handler: record updates that leave the video alone,
    updates of the video that keep or set [muted], and branches. *)
Local Ltac km :=
  repeat first
    [ assumption
    | apply km_mount_video
    | apply km_unmount_video
    | apply km_on_video; [intros [] ?; cbn in *; solve [auto]|]
    | match goal with
      | |- EnginePage.video_muted (if ?b then _ else _) => destruct b
      | |- EnginePage.video_muted (match ?x with _ => _ end) => destruct x
      | |- EnginePage.video_muted (?f ?a ?q) => apply (km_same _ q eq_refl)
      | |- EnginePage.video_muted (?f ?q) => apply (km_same _ q eq_refl)
      end ].

Lemma km_strongStop p :
  EnginePage.video_muted p -> EnginePage.video_muted (EnginePage.strongStopAllMedia p).
Proof. intros H. unfold EnginePage.strongStopAllMedia; cbv zeta. km. Qed.

Lemma km_nav now d p :
  EnginePage.video_muted p ->
  EnginePage.video_muted (EnginePage.nav_commit d (EnginePage.nav_enter now p)).
Proof.
  intros H. unfold EnginePage.nav_commit, EnginePage.nav_enter; cbv zeta.
  apply (km_same _ (EnginePage.strongStopAllMedia (EnginePage.set_lastScrollTime now p))
           eq_refl).
  apply km_strongStop. km.
Qed.

Lemma km_video_play ok p :
  EnginePage.video_muted p -> EnginePage.video_muted (EnginePage.video_play ok p).
Proof. intros H. unfold EnginePage.video_play. km. Qed.

Lemma km_audio_play ok p :
  EnginePage.video_muted p -> EnginePage.video_muted (EnginePage.audio_play ok p).
Proof. intros H. unfold EnginePage.audio_play. km. Qed.

Lemma km_startVideoPlayback env p :
  EnginePage.video_muted p -> EnginePage.video_muted (EnginePage.startVideoPlayback env p).
Proof.
  intros H. unfold EnginePage.startVideoPlayback; cbv zeta.
  destruct (EnginePage.videoRef p); [|exact H].
  destruct (EnginePage.videoUrl p); [|exact H].
  apply (km_same _ _ eq_refl).
  destruct (EnginePage.video_play_ok env).
  - apply km_video_play. km.
  - apply km_video_play. km.
Qed.

Lemma km_startAudioPlayback my env p :
  EnginePage.video_muted p ->
  EnginePage.video_muted (EnginePage.startAudioPlayback my env p).
Proof.
  intros H. unfold EnginePage.startAudioPlayback; cbv zeta.
  destruct (EnginePage.music_url p); [|exact H].
  destruct (negb _); [exact H|]. destruct (EnginePage.pendingAutoPlay p); [exact H|].
  apply (km_same _ _ eq_refl). km.
Qed.

Lemma km_playback_effect env p :
  EnginePage.video_muted p -> EnginePage.video_muted (EnginePage.playback_effect env p).
Proof.
  intros H. unfold EnginePage.playback_effect; cbv zeta.
  set (p3 := EnginePage.set_isPlaying true _).
  assert (H3 : EnginePage.video_muted p3) by (unfold p3; km).
  assert (Hrun : EnginePage.video_muted
            match
              EnginePage.videoUrl
                match EnginePage.music_url (EnginePage.fadeOutAndStopPrevious p3) with
                | Some _ =>
                    EnginePage.startAudioPlayback
                      (S (EnginePage.transitionIdRef (EnginePage.set_preFadeActive false p)))
                      env (EnginePage.fadeOutAndStopPrevious p3)
                | None => EnginePage.fadeOutAndStopPrevious p3
                end
            with
            | Some _ =>
                EnginePage.startVideoPlayback env
                  match EnginePage.music_url (EnginePage.fadeOutAndStopPrevious p3) with
                  | Some _ =>
                      EnginePage.startAudioPlayback
                        (S (EnginePage.transitionIdRef (EnginePage.set_preFadeActive false p)))
                        env (EnginePage.fadeOutAndStopPrevious p3)
                  | None => EnginePage.fadeOutAndStopPrevious p3
                  end
            | None =>
                match EnginePage.music_url (EnginePage.fadeOutAndStopPrevious p3) with
                | Some _ =>
                    EnginePage.startAudioPlayback
                      (S (EnginePage.transitionIdRef (EnginePage.set_preFadeActive false p)))
                      env (EnginePage.fadeOutAndStopPrevious p3)
                | None => EnginePage.fadeOutAndStopPrevious p3
                end
            end).
  { assert (H4 : EnginePage.video_muted (EnginePage.fadeOutAndStopPrevious p3))
      by (unfold EnginePage.fadeOutAndStopPrevious; cbv zeta; km).
    assert (H5 : EnginePage.video_muted
              match EnginePage.music_url (EnginePage.fadeOutAndStopPrevious p3) with
              | Some _ =>
                  EnginePage.startAudioPlayback
                    (S (EnginePage.transitionIdRef (EnginePage.set_preFadeActive false p)))
                    env (EnginePage.fadeOutAndStopPrevious p3)
              | None => EnginePage.fadeOutAndStopPrevious p3
              end).
    { destruct (EnginePage.music_url _); [apply km_startAudioPlayback|]; exact H4. }
    destruct (EnginePage.videoUrl _); [apply km_startVideoPlayback|]; exact H5. }
  destruct (EnginePage.videoRef p3); [|exact Hrun].
  destruct (EnginePage.videoUrl p3); [|exact Hrun].
  destruct (EnginePage.video_ready env); [exact Hrun|exact H3].
Qed.

Lemma km_backgroundClick oka oka2 okv p :
  EnginePage.video_muted p ->
  EnginePage.video_muted (EnginePage.backgroundClick oka oka2 okv p).
Proof.
  intros H. unfold EnginePage.backgroundClick; cbv zeta.
  destruct (EnginePage.hasUserInteracted p); [km|].
  set (p2 := EnginePage.set_hasUserInteracted true _).
  assert (H2 : EnginePage.video_muted p2) by (unfold p2; km).
  set (w := match EnginePage.audioRef p2, EnginePage.music_url p2 with
            | Some _, Some _ => true
            | _, _ => false
            end).
  set (p3 := if w then _ else p2).
  assert (H3 : EnginePage.video_muted p3).
  { unfold p3. destruct w; [|exact H2]. apply km_audio_play. km. }
  set (p4 := match EnginePage.videoRef p3, EnginePage.videoUrl p3 with
             | Some _, Some _ => _
             | _, _ => p3
             end).
  assert (H4 : EnginePage.video_muted p4).
  { unfold p4. destruct (EnginePage.videoRef p3); [|exact H3].
    destruct (EnginePage.videoUrl p3); [|exact H3].
    apply km_video_play. km. }
  destruct (w && negb oka); [|exact H4]. apply km_audio_play. km.
Qed.

Lemma km_togglePlay okv oka p :
  EnginePage.video_muted p -> EnginePage.video_muted (EnginePage.togglePlay okv oka p).
Proof.
  intros H. unfold EnginePage.togglePlay; cbv zeta.
  apply (km_same _ _ eq_refl).
  destruct (EnginePage.videoRef p) eqn:Hv; destruct (EnginePage.videoUrl p).
  - destruct (EnginePage.isPlaying p); [km|].
    destruct (EnginePage.audioRef _);
      [apply km_audio_play|]; apply km_video_play; exact H.
  - destruct (EnginePage.audioRef p) as [a|]; [|exact H].
    destruct (EnginePage.music_url p); [|exact H].
    destruct (EnginePage.a_paused a); [apply km_audio_play; exact H|km].
  - destruct (EnginePage.audioRef p) as [a|]; [|exact H].
    destruct (EnginePage.music_url p); [|exact H].
    destruct (EnginePage.a_paused a); [apply km_audio_play; exact H|km].
  - destruct (EnginePage.audioRef p) as [a|]; [|exact H].
    destruct (EnginePage.music_url p); [|exact H].
    destruct (EnginePage.a_paused a); [apply km_audio_play; exact H|km].
Qed.

Lemma engine_handle_video_muted e p :
  EnginePage.video_muted p -> EnginePage.video_muted (EnginePage.handle e p).
Proof.
  intros H. destruct e; cbn [EnginePage.handle].
  - unfold EnginePage.onFirstInteract. km.
  - unfold EnginePage.onFirstInteract. km.
  - now apply km_backgroundClick.
  - unfold EnginePage.toggleMute; cbv zeta. apply (km_same _ _ eq_refl).
    apply km_on_video_mute. reflexivity.
  - now apply km_togglePlay.
  - unfold EnginePage.handleNextReel.
    destruct (EnginePage.nav_dropped now p); [exact H|now apply km_nav].
  - unfold EnginePage.handlePrevReel.
    destruct (EnginePage.nav_dropped now p); [exact H|now apply km_nav].
  - unfold EnginePage.onTouchEnd, EnginePage.handleNextReel, EnginePage.handlePrevReel.
    destruct (_ <? _); [|exact H].
    destruct (_ <? _); destruct (EnginePage.nav_dropped now p);
      try exact H; now apply km_nav.
  - now apply km_playback_effect.
  - unfold EnginePage.track_index. km.
  - km.
  - apply km_mount_video.
  - apply km_unmount_video.
  - unfold EnginePage.mount_audio. km.
  - km.
  - unfold EnginePage.video_onWaiting. apply km_on_video_mute. reflexivity.
  - unfold EnginePage.video_onStalled. km.
  - unfold EnginePage.video_onPlay; cbv zeta.
    destruct (EnginePage.audioRef _) as [a|]; [|km].
    destruct (negb _); [|km]. apply km_audio_play. km.
  - unfold EnginePage.video_onPause. km.
  - unfold EnginePage.video_onLoaded.
    destruct (EnginePage.videoRef p) as [v|]; [|exact H].
    destruct (_ && _); [now apply km_video_play|exact H].
  - unfold EnginePage.video_onError; cbv zeta. apply km_unmount_video.
  - unfold EnginePage.onVisibilityChange.
    destruct (EnginePage.videoRef p); [|exact H].
    destruct hidden; [km|].
    destruct (EnginePage.videoUrl p); [now apply km_video_play|exact H].
Qed.

Lemma engine_run_video_muted es p :
  EnginePage.video_muted p -> EnginePage.video_muted (EnginePage.run_events p es).
Proof.
  revert p. induction es as [|e es IH]; intros p H; cbn; [exact H|].
  apply IH, engine_handle_video_muted, H.
Qed.

(** C4, as stated, fails on the legacy page: its mute toggle writes the new
    mute state to the video element, and its [startPlayback] unmutes the
    video once the synchronised audio plays. *)
Lemma legacy_video_gets_unmuted :
  (exists v,
     LegacyPage.videoRef
       (LegacyPage.toggleMute true true
          (LegacyPage.mount_video
             (LegacyPage.set_isMuted true (LegacyPage.mounted Samples.feed))))
     = Some v /\ EnginePage.v_muted v = false)
  /\ (exists v,
        LegacyPage.videoRef
          (LegacyPage.startPlayback
             {| LegacyPage.audio_ok := true; LegacyPage.audio_muted_ok := true;
                LegacyPage.video_ok := true; LegacyPage.sync_ok := true;
                LegacyPage.sync_muted_ok := true |}
             (LegacyPage.mount_audio
                (LegacyPage.mount_video
                   (LegacyPage.set_music (Some Samples.track_x)
                      (LegacyPage.set_isMuted true
                         (LegacyPage.mounted Samples.feed))))))
        = Some v /\ EnginePage.v_muted v = false).
Proof. split; eexists; split; reflexivity. Qed.

(** C4 (amended): on the engine page the video element is muted after
    any sequence of page events (mounting, playback start and restart, mute
    toggles, navigation, taps, media events). On the legacy page the mute
    toggle instead writes the new mute state to the video element. *)
Theorem engine_video_always_muted
    (reels : list Reel) (es : list EnginePage.Event)
    (pl : LegacyPage.Page) (v : EnginePage.Video) (oka oka2 : bool) :
  EnginePage.video_muted (EnginePage.run_events (EnginePage.mounted reels) es)
  /\ (LegacyPage.videoRef pl = Some v ->
      is_Some (LegacyPage.videoUrl pl) ->
      LegacyPage.videoRef (LegacyPage.toggleMute oka oka2 pl)
      = Some (EnginePage.v_set_muted (negb (LegacyPage.isMuted pl)) v)).
Proof.
  split.
  - apply engine_run_video_muted. intros v' Hv'. discriminate Hv'.
  - intros Hv [u Hu]. unfold LegacyPage.toggleMute; cbv zeta.
    rewrite Hv, Hu.
    assert (Hon : LegacyPage.videoRef
                    (LegacyPage.on_video
                       (EnginePage.v_set_muted (negb (LegacyPage.isMuted pl))) pl)
                  = Some (EnginePage.v_set_muted (negb (LegacyPage.isMuted pl)) v)).
    { unfold LegacyPage.on_video. cbn. now rewrite Hv. }
    set (p1 := LegacyPage.on_video _ pl) in *.
    cbn [LegacyPage.videoRef LegacyPage.set_isMuted].
    destruct (LegacyPage.audioRef p1); [|exact Hon].
    destruct (LegacyPage.music_url p1); [|exact Hon].
    destruct (negb (LegacyPage.isMuted pl)); [exact Hon|].
    cbn [LegacyPage.videoRef LegacyPage.on_audio LegacyPage.set_audioRef] in *.
    rewrite Hon.
    destruct oka; cbn; try destruct oka2; exact Hon.
Qed.

Lemma engine_video_always_muted_witness :
  LegacyPage.videoRef
    (LegacyPage.toggleMute true true
       (LegacyPage.mount_video (LegacyPage.mounted Samples.feed)))
  = Some (EnginePage.v_set_muted true
            {| EnginePage.v_src := "a.mp4"; EnginePage.v_muted := false;
               EnginePage.v_volume := 1%Q; EnginePage.v_paused := true;
               EnginePage.v_currentTime := 0%Q; EnginePage.v_loads := 0 |}).
Proof.
  refine (proj2 (engine_video_always_muted Samples.feed []
                   (LegacyPage.mount_video (LegacyPage.mounted Samples.feed))
                   _ true true) eq_refl _).
  eexists. reflexivity.
Defined.

End VideoMuteClaims.

(** ** The first-interaction gate *)

Section InteractionClaims.

Lemma amr_same (q p : EnginePage.Page) (b : bool) :
  EnginePage.audioManagerRef q = EnginePage.audioManagerRef p ->
  EnginePage.audioManagerRef p = b -> EnginePage.audioManagerRef q = b.
Proof. congruence. Qed.

(** Steps through a handler towards the page it started from. *)
Local Ltac amr :=
  repeat first
    [ assumption
    | match goal with
      | |- EnginePage.audioManagerRef (if ?b then _ else _) = _ => destruct b
      | |- EnginePage.audioManagerRef (match ?x with _ => _ end) = _ => destruct x
      | |- EnginePage.audioManagerRef (?f ?a ?q) = _ => apply (amr_same _ q _ eq_refl)
      | |- EnginePage.audioManagerRef (?f ?q) = _ => apply (amr_same _ q _ eq_refl)
      end ].

Lemma amr_startVideoPlayback env p b :
  EnginePage.audioManagerRef p = b ->
  EnginePage.audioManagerRef (EnginePage.startVideoPlayback env p) = b.
Proof.
  intros H. unfold EnginePage.startVideoPlayback, EnginePage.video_play; cbv zeta.
  destruct (EnginePage.videoRef p); [|exact H].
  destruct (EnginePage.videoUrl p); [|exact H]. amr.
Qed.

Lemma amr_startAudioPlayback my env p b :
  EnginePage.audioManagerRef p = b ->
  EnginePage.audioManagerRef (EnginePage.startAudioPlayback my env p) = b.
Proof.
  intros H. unfold EnginePage.startAudioPlayback; cbv zeta.
  destruct (EnginePage.music_url p); [|exact H].
  destruct (negb _); [exact H|].
  destruct (EnginePage.pendingAutoPlay p); [exact H|]. amr.
Qed.

Lemma amr_playback_effect env p b :
  EnginePage.audioManagerRef p = b ->
  EnginePage.audioManagerRef (EnginePage.playback_effect env p) = b.
Proof.
  intros H. unfold EnginePage.playback_effect; cbv zeta.
  set (p3 := EnginePage.set_isPlaying true _).
  assert (H3 : EnginePage.audioManagerRef p3 = b) by exact H.
  assert (H4 : EnginePage.audioManagerRef (EnginePage.fadeOutAndStopPrevious p3) = b).
  { apply (amr_same _ p3); [|exact H3].
    unfold EnginePage.fadeOutAndStopPrevious; cbv zeta.
    destruct (_ || _); reflexivity. }
  set (p4 := EnginePage.fadeOutAndStopPrevious p3) in *.
  set (my := S _).
  assert (H5 : EnginePage.audioManagerRef
                 match EnginePage.music_url p4 with
                 | Some _ => EnginePage.startAudioPlayback my env p4
                 | None => p4
                 end = b)
    by (destruct (EnginePage.music_url p4); [apply amr_startAudioPlayback|];
        exact H4).
  set (p5 := match EnginePage.music_url p4 with Some _ => _ | None => p4 end) in *.
  assert (H6 : EnginePage.audioManagerRef
                 match EnginePage.videoUrl p5 with
                 | Some _ => EnginePage.startVideoPlayback env p5
                 | None => p5
                 end = b)
    by (destruct (EnginePage.videoUrl p5); [apply amr_startVideoPlayback|];
        exact H5).
  destruct (EnginePage.videoRef p3); [|exact H6].
  destruct (EnginePage.videoUrl p3); [|exact H6].
  destruct (EnginePage.video_ready env); [exact H6|exact H3].
Qed.

Lemma amr_nav now d p b :
  EnginePage.audioManagerRef p = b ->
  EnginePage.audioManagerRef
    (EnginePage.nav_commit d (EnginePage.nav_enter now p)) = b.
Proof. intros H. exact H. Qed.

Lemma amr_handle e p b :
  EnginePage.audioManagerRef p = b ->
  EnginePage.audioManagerRef (EnginePage.handle e p) = b.
Proof.
  intros H. destruct e; cbn [EnginePage.handle]; try exact H.
  - unfold EnginePage.onFirstInteract. amr.
  - unfold EnginePage.onFirstInteract. amr.
  - unfold EnginePage.backgroundClick, EnginePage.audio_play, EnginePage.video_play;
      cbv zeta. amr.
  - apply (amr_same _ p); [|exact H].
    unfold EnginePage.toggleMute; cbv zeta.
    destruct (EnginePage.audioManagerRef p) eqn:E; exact E.
  - unfold EnginePage.togglePlay, EnginePage.audio_play, EnginePage.video_play;
      cbv zeta. amr.
  - unfold EnginePage.handleNextReel.
    destruct (EnginePage.nav_dropped now p); exact H.
  - unfold EnginePage.handlePrevReel.
    destruct (EnginePage.nav_dropped now p); exact H.
  - unfold EnginePage.onTouchEnd, EnginePage.handleNextReel, EnginePage.handlePrevReel.
    destruct (_ <? _); [|exact H].
    destruct (_ <? _); destruct (EnginePage.nav_dropped now p); exact H.
  - now apply amr_playback_effect.
  - unfold EnginePage.video_onPlay, EnginePage.audio_play; cbv zeta. amr.
  - unfold EnginePage.video_onLoaded, EnginePage.video_play. amr.
  - unfold EnginePage.onVisibilityChange, EnginePage.video_play. amr.
Qed.

(** Nothing in the page ever attaches an engine to [audioManagerRef]. *)
Lemma engine_never_attached reels es :
  EnginePage.audioManagerRef (EnginePage.run_events (EnginePage.mounted reels) es)
  = false.
Proof.
  assert (H : forall p, EnginePage.audioManagerRef p = false ->
              EnginePage.audioManagerRef (EnginePage.run_events p es) = false).
  { induction es as [|e es IH]; intros p Hp; cbn; [exact Hp|].
    apply IH, amr_handle, Hp. }
  apply H. reflexivity.
Qed.

Lemma audio_attempts_emit e p :
  EnginePage.audio_attempts (EnginePage.emit e p)
  = (EnginePage.audio_attempts p
     + (if EnginePage.is_audio_attempt e then 1 else 0))%nat.
Proof.
  unfold EnginePage.audio_attempts, EnginePage.emit; cbn.
  rewrite List.filter_app, length_app. destruct e; cbn; lia.
Qed.

Lemma aa_same (q p : EnginePage.Page) :
  EnginePage.log q = EnginePage.log p ->
  EnginePage.audio_attempts q = EnginePage.audio_attempts p.
Proof. unfold EnginePage.audio_attempts. now intros ->. Qed.

Lemma aa_startVideoPlayback env p :
  EnginePage.audio_attempts (EnginePage.startVideoPlayback env p)
  = EnginePage.audio_attempts p.
Proof.
  unfold EnginePage.startVideoPlayback, EnginePage.video_play; cbv zeta.
  destruct (EnginePage.videoRef p); [|reflexivity].
  destruct (EnginePage.videoUrl p); [|reflexivity].
  destruct (EnginePage.video_play_ok env); [|destruct (EnginePage.video_retry_ok env)];
    unfold EnginePage.audio_attempts; cbn;
    rewrite ?List.filter_app, ?length_app; cbn; lia.
Qed.

Lemma detached_fadeOut p :
  EnginePage.audioManagerRef p = false -> EnginePage.fadeOutAndStopPrevious p = p.
Proof.
  intros H. unfold EnginePage.fadeOutAndStopPrevious; cbv zeta.
  rewrite H. cbn. now rewrite orb_true_r.
Qed.

Lemma detached_startAudioPlayback my env p :
  EnginePage.audioManagerRef p = false -> EnginePage.startAudioPlayback my env p = p.
Proof.
  intros H. unfold EnginePage.startAudioPlayback.
  destruct (EnginePage.music_url p); [|reflexivity]. now rewrite H.
Qed.

Lemma detached_playback_effect env p :
  EnginePage.audioManagerRef p = false ->
  EnginePage.audio_attempts (EnginePage.playback_effect env p)
  = EnginePage.audio_attempts p.
Proof.
  intros H. unfold EnginePage.playback_effect; cbv zeta.
  set (p3 := EnginePage.set_isPlaying true _).
  assert (H3 : EnginePage.audioManagerRef p3 = false) by exact H.
  assert (L3 : EnginePage.audio_attempts p3 = EnginePage.audio_attempts p)
    by (apply aa_same; reflexivity).
  rewrite (detached_fadeOut p3 H3).
  rewrite (detached_startAudioPlayback _ env p3 H3).
  assert (Hrun : EnginePage.audio_attempts
            match EnginePage.videoUrl
                    match EnginePage.music_url p3 with Some _ => p3 | None => p3 end
            with
            | Some _ =>
                EnginePage.startVideoPlayback env
                  match EnginePage.music_url p3 with Some _ => p3 | None => p3 end
            | None => match EnginePage.music_url p3 with Some _ => p3 | None => p3 end
            end = EnginePage.audio_attempts p).
  { destruct (EnginePage.music_url p3);
      (destruct (EnginePage.videoUrl p3);
       [rewrite aa_startVideoPlayback|]; exact L3). }
  destruct (EnginePage.videoRef p3); [|exact Hrun].
  destruct (EnginePage.videoUrl p3) eqn:Hu; [|exact Hrun].
  destruct (EnginePage.video_ready env); [exact Hrun|exact L3].
Qed.

(** C5: the gate on the first interaction is not what the page does.
    As the page is written no engine is ever attached, so after the first
    key-down or pointer-down and the re-run of the playback effect no audio
    playback attempt has been issued; and [startAudioPlayback] never consults
    [hasUserInteracted]: with an engine attached it issues [play] before any
    interaction. Only the overlay follows the flag. *)
Theorem interaction_gate_not_enforced
    (reels : list Reel) (es : list EnginePage.Event) (env : EnginePage.EffEnv)
    (q : EnginePage.Page) (url : string) :
  let p := EnginePage.run_events (EnginePage.mounted reels) es in
  EnginePage.audio_attempts
    (EnginePage.playback_effect env (EnginePage.handle EnginePage.EvKeyDown p))
  = EnginePage.audio_attempts p
  /\ EnginePage.audio_attempts
       (EnginePage.playback_effect env (EnginePage.handle EnginePage.EvPointerDown p))
     = EnginePage.audio_attempts p
  /\ EnginePage.overlay_visible q
     = bool_decide (is_Some (EnginePage.music_url q))
       && negb (EnginePage.hasUserInteracted q)
  /\ (EnginePage.music_url q = Some url ->
      EnginePage.audioManagerRef q = true ->
      EnginePage.pendingAutoPlay q = false ->
      EnginePage.hasUserInteracted q = false ->
      In (EnginePage.MgrPlay url true)
         (EnginePage.log
            (EnginePage.startAudioPlayback (EnginePage.transitionIdRef q) env q))).
Proof.
  intros p.
  assert (Hp : EnginePage.audioManagerRef p = false) by apply engine_never_attached.
  assert (Hk : forall e, e = EnginePage.EvKeyDown \/ e = EnginePage.EvPointerDown ->
            EnginePage.audio_attempts
              (EnginePage.playback_effect env (EnginePage.handle e p))
            = EnginePage.audio_attempts p).
  { intros e He. rewrite detached_playback_effect by (apply amr_handle, Hp).
    apply aa_same. destruct He as [-> | ->]; cbn;
      unfold EnginePage.onFirstInteract;
      destruct (EnginePage.hasUserInteracted p); reflexivity. }
  split; [apply Hk; auto|]. split; [apply Hk; auto|]. split; [reflexivity|].
  intros Hmu Hmgr Hpend _. unfold EnginePage.startAudioPlayback.
  rewrite Hmu, Hmgr, Hpend. cbn. rewrite Nat.eqb_refl. cbn.
  destruct (EnginePage.mgr_play_ok env); cbn;
    rewrite ?in_app_iff; cbn; auto 10.
Qed.

Lemma interaction_gate_not_enforced_witness :
  In (EnginePage.MgrPlay "x.mp3" true)
     (EnginePage.log
        (EnginePage.startAudioPlayback 0
           {| EnginePage.video_ready := true; EnginePage.video_play_ok := true;
              EnginePage.video_retry_ok := true; EnginePage.mgr_play_ok := true |}
           (EnginePage.set_audioManagerRef true
              (EnginePage.set_music (Some Samples.track_x)
                 (EnginePage.mounted Samples.feed))))).
Proof.
  refine (proj2 (proj2 (proj2
            (interaction_gate_not_enforced Samples.feed []
               {| EnginePage.video_ready := true; EnginePage.video_play_ok := true;
                  EnginePage.video_retry_ok := true; EnginePage.mgr_play_ok := true |}
               (EnginePage.set_audioManagerRef true
                  (EnginePage.set_music (Some Samples.track_x)
                     (EnginePage.mounted Samples.feed)))
               "x.mp3"))) eq_refl eq_refl eq_refl eq_refl).
Defined.

End InteractionClaims.

(** ** Audio manager: further properties *)

Section AudioManagerMore.
Import AudioManager.

(** The transition counter is the number of [play] calls made so far. *)
Theorem transitionId_counts_plays (sched : list (Env * Input)) (s : Sys) :
  transitionId (mgr (run s sched))
  = (transitionId (mgr s) + count_plays sched)%nat.
Proof.
  revert s. induction sched as [|[env inp] sched IH]; intros s; cbn [run foldl].
  - unfold count_plays; cbn. lia.
  - change (foldl _ (step env inp s) sched) with (run (step env inp s) sched).
    rewrite IH, step_transitionId. unfold count_plays; cbn.
    destruct inp; cbn; lia.
Qed.

(** A first [play] on a fresh engine that nothing interrupts ends with the
    requested URL playing in a loop, started exactly once, through one newly
    created audio context. *)
Theorem uninterrupted_play_starts_track (url : string) (fadeIn : bool) :
  let s := run init_sys
             [(env_good, CallPlay url fadeIn); (env_good, Resume 0);
              (env_good, Resume 0); (env_good, Resume 0); (env_good, Resume 0)] in
  state (mgr s) = playing
  /\ currentUrl (mgr s) = Some url
  /\ sourceNode (mgr s) = Some {| sn_buffer := Some url; sn_loop := true |}
  /\ started (mgr s) = 1%nat
  /\ open_contexts (mgr s) = 1
  /\ tasks s = [Resolved].
Proof. destruct fadeIn; repeat split; reflexivity. Qed.

Lemma open_contexts_emit e m :
  open_contexts (emit e m)
  = open_contexts m + (if is_created e then 1 else 0) - (if is_closed e then 1 else 0).
Proof.
  unfold open_contexts, emit; cbn. rewrite !List.filter_app, !length_app.
  destruct e; cbn; lia.
Qed.

Lemma cleanup_ctx m : ctx_ok m -> ctx_ok (cleanup m).
Proof.
  unfold ctx_ok, cleanup, setState, open_contexts.
  destruct m as [ctx buf src gn st url tid vol mu ft snd tr fr]; cbn.
  destruct ft, ctx; cbn; rewrite ?List.filter_app, ?length_app; cbn; lia.
Qed.

Lemma setVolume_ctx v m : ctx_ok m -> ctx_ok (setVolume v m).
Proof.
  unfold ctx_ok, setVolume, open_contexts.
  destruct m as [ctx buf src gn st url tid vol mu ft snd tr fr]; cbn.
  destruct gn; cbn; rewrite ?List.filter_app, ?length_app; cbn; lia.
Qed.

Lemma unload_ctx m : ctx_ok m -> ctx_ok (unload m).
Proof.
  intros H. unfold unload. destruct (SoundState_eqb _ _); [exact H|].
  apply cleanup_ctx. revert H. unfold ctx_ok, setState, open_contexts.
  destruct m as [ctx buf src gn st url tid vol mu ft snd tr fr]; cbn.
  destruct gn, src; cbn; rewrite ?List.filter_app, ?length_app; cbn; lia.
Qed.

Lemma fadeTo_call_ctx from to d env m :
  ctx_ok m -> ctx_ok (fadeTo_call from to d env m).1.
Proof.
  unfold ctx_ok, fadeTo_call, open_contexts.
  destruct m as [ctx buf src gn st url tid vol mu ft snd tr fr]; cbn.
  destruct ft, snd; cbn; rewrite ?List.filter_app, ?length_app; cbn; lia.
Qed.

Lemma setState_ctx st m : ctx_ok m -> ctx_ok (setState st m).
Proof.
  unfold ctx_ok, setState, open_contexts; cbn.
  rewrite !List.filter_app, !length_app; cbn. lia.
Qed.

Lemma stop_call_ctx fadeOut env m :
  ctx_ok m -> ctx_ok (stop_call fadeOut env m).1.
Proof.
  intros H. unfold stop_call.
  destruct (_ || _); [exact H|]. destruct (_ || _); [exact H|].
  destruct fadeOut.
  - pose proof (fadeTo_call_ctx (volume (setState stopping m)) 0 500 env
                  (setState stopping m) (setState_ctx stopping m H)) as H1.
    destruct (fadeTo_call _ _ _ _ _) as [m2 fs]. exact H1.
  - cbn [fst]. apply unload_ctx, setState_ctx, H.
Qed.

Lemma play_catch_ctx m : ctx_ok m -> ctx_ok (play_catch m).1.
Proof.
  intros H. unfold play_catch; cbn [fst]. apply cleanup_ctx.
  revert H. unfold ctx_ok. rewrite open_contexts_emit. cbn. lia.
Qed.

Lemma play_build_ctx fadeIn env m :
  ctx_ok m -> ctx_ok (play_build fadeIn env m).1.
Proof.
  intros H. unfold play_build; cbv zeta.
  assert (Hset : forall x, open_contexts x = open_contexts m ->
                   audioContext x = audioContext m -> ctx_ok x).
  { intros x H1 H2. unfold ctx_ok in *. now rewrite H1, H2. }
  assert (H6 : forall x, open_contexts x = open_contexts m ->
                 audioContext x = audioContext m ->
                 forall e, is_created e = false -> is_closed e = false ->
                 ctx_ok (setState playing (emit e x))).
  { intros x H1 H2 e He1 He2. apply setState_ctx. unfold ctx_ok in *.
    rewrite open_contexts_emit, He1, He2, H1. cbn [audioContext emit].
    rewrite H2. lia. }
  destruct (audioContext m) eqn:Hc; [|now apply play_catch_ctx].
  destruct (fails_at env AtCreateSource); [now apply play_catch_ctx|].
  destruct (fails_at env AtCreateGain);
    [apply play_catch_ctx, Hset; [reflexivity|exact Hc]|].
  destruct (fails_at env AtConnect);
    [apply play_catch_ctx, Hset; [reflexivity|exact Hc]|].
  destruct (fails_at env AtStart);
    [apply play_catch_ctx, Hset; [reflexivity|exact Hc]|].
  destruct fadeIn.
  - match goal with |- context [fadeTo_call ?a ?b ?c ?e ?x] =>
      pose proof (fadeTo_call_ctx a b c e x) as Hf;
      destruct (fadeTo_call a b c e x) as [m7 fs] end.
    cbn [fst] in *. apply Hf. apply H6; [reflexivity|exact Hc|reflexivity..].
  - cbn [fst]. apply setVolume_ctx. apply H6; [reflexivity|exact Hc|reflexivity..].
Qed.

Lemma run_frame_ctx f env m :
  ctx_ok m -> ctx_ok (run_frame f env m).1.
Proof.
  intros H. destruct f; cbn [run_frame].
  - destruct (_ || _); [exact H|]. cbn [fst]. now apply setVolume_ctx.
  - destruct more; cbn [fst]; revert H; unfold ctx_ok, open_contexts; cbn;
      rewrite ?List.filter_app, ?length_app; cbn; lia.
  - destruct (timer_cleared _ _); exact H.
  - destruct (SoundState_eqb _ _); exact H.
  - cbn [fst]. now apply unload_ctx.
  - cbn [fst]. now apply cleanup_ctx.
  - destruct (negb _); [exact H|].
    assert (H1 : ctx_ok (setState loading (set_currentUrl (Some url) m))).
    { apply setState_ctx. exact H. }
    cbn [audioContext setState set_state emit set_currentUrl].
    destruct (audioContext m) eqn:Hc.
    + cbn [fst]. revert H1. unfold ctx_ok.
      rewrite !open_contexts_emit. cbn. rewrite Hc. lia.
    + destruct (env_ctx_ok env); [|now apply play_catch_ctx].
      cbn [fst]. revert H1. unfold ctx_ok.
      rewrite !open_contexts_emit. cbn. unfold open_contexts; cbn.
      rewrite !List.filter_app, !length_app; cbn. rewrite Hc. lia.
  - destruct (env_ok env); [exact H|now apply play_catch_ctx].
  - destruct (env_ok env); [|now apply play_catch_ctx].
    destruct (audioContext m); [exact H|now apply play_catch_ctx].
  - destruct (env_ok env); [|now apply play_catch_ctx].
    destruct (negb _); cbn [fst].
    + apply cleanup_ctx. exact H.
    + apply play_build_ctx, setState_ctx. exact H.
Qed.

(** The engine never holds more than one open audio context: every context
    it created has been closed, except the one it still references. *)
Theorem at_most_one_open_context (s : Sys) :
  Reachable s ->
  open_contexts (mgr s) = match audioContext (mgr s) with Some _ => 1 | None => 0 end.
Proof.
  induction 1 as [|env inp s _ IH]; [reflexivity|].
  change (ctx_ok (mgr (step env inp s))).
  change (ctx_ok (mgr s)) in IH.
  destruct inp; cbn [step spawn mgr].
  - unfold play_call.
    pose proof (stop_call_ctx true env
                  (set_transitionId (S (transitionId (mgr s))) (mgr s)) IH) as H.
    destruct (stop_call _ _ _) as [m2 fs]. exact H.
  - now apply stop_call_ctx.
  - unfold setMuted. apply setVolume_ctx. exact IH.
  - unfold dispose_call.
    pose proof (stop_call_ctx true env (mgr s) IH) as H.
    destruct (stop_call _ _ _) as [m2 fs]. exact H.
  - destruct (tasks s !! i) as [[[|f rest]| |]|]; try exact IH.
    pose proof (run_frame_ctx f env (mgr s) IH) as H.
    destruct (run_frame f env (mgr s)) as [m' [fs|]]; exact H.
Qed.

Lemma at_most_one_open_context_witness :
  open_contexts (mgr sys_playing) = 1.
Proof. exact (at_most_one_open_context sys_playing sys_playing_reachable). Defined.

Lemma in_unit_0 : in_unit 0.
Proof. split; discriminate. Qed.

Lemma in_unit_1 : in_unit 1.
Proof. split; discriminate. Qed.

Lemma clamp_in_unit (v : Q) : in_unit (js_max 0 (js_min 1 v)).
Proof.
  unfold js_max, js_min.
  destruct (Qle_bool 1 v) eqn:H1.
  - cbn. apply in_unit_1.
  - destruct (Qle_bool 0 v) eqn:H0.
    + apply Qle_bool_iff in H0. split; [exact H0|].
      apply Qlt_le_weak, Qnot_le_lt. intros Hle.
      apply Qle_bool_iff in Hle. congruence.
    + apply in_unit_0.
Qed.

Lemma vol_ok_same (q p : Mgr) :
  volume q = volume p -> gainNode q = gainNode p -> vol_ok p -> vol_ok q.
Proof. unfold vol_ok. intros -> ->. auto. Qed.

Lemma vol_ok_gain (q p : Mgr) (g : option Q) :
  volume q = volume p -> gainNode q = g ->
  (forall x, g = Some x -> in_unit x) -> vol_ok p -> vol_ok q.
Proof. unfold vol_ok. intros -> -> Hg [Hv _]. auto. Qed.

Lemma setVolume_vol v m : vol_ok (setVolume v m).
Proof.
  unfold vol_ok, setVolume.
  destruct m as [ctx buf src gn st url tid vol mu ft snd tr fr]; cbn.
  destruct gn; cbn; (split; [apply clamp_in_unit|]); intros g [= <-].
  destruct mu; [apply in_unit_0|apply clamp_in_unit].
Qed.

Lemma cleanup_vol m : vol_ok m -> vol_ok (cleanup m).
Proof.
  apply vol_ok_gain with (g := None); [| |discriminate].
  - unfold cleanup. destruct (fadeTimeout m); cbn; destruct (audioContext m); reflexivity.
  - apply cleanup_released.
Qed.

Lemma unload_vol m : vol_ok m -> vol_ok (unload m).
Proof.
  intros H. unfold unload. destruct (SoundState_eqb _ _); [exact H|].
  apply cleanup_vol. revert H. unfold vol_ok.
  destruct m as [ctx buf src gn st url tid vol mu ft snd tr fr]; cbn.
  intros [Hv Hg]. destruct gn, src; cbn; (split; [exact Hv|discriminate]).
Qed.

Lemma fadeTo_call_vol from to d env m :
  vol_ok m -> vol_ok (fadeTo_call from to d env m).1.
Proof.
  apply vol_ok_same; unfold fadeTo_call;
    destruct (fadeTimeout m); cbn; destruct (sound m); reflexivity.
Qed.

Lemma stop_call_vol fadeOut env m : vol_ok m -> vol_ok (stop_call fadeOut env m).1.
Proof.
  intros H. unfold stop_call.
  destruct (_ || _); [exact H|]. destruct (_ || _); [exact H|].
  destruct fadeOut.
  - pose proof (fadeTo_call_vol (volume (setState stopping m)) 0 500 env
                  (setState stopping m) H) as H1.
    destruct (fadeTo_call _ _ _ _ _) as [m2 fs]. exact H1.
  - cbn [fst]. apply unload_vol. exact H.
Qed.

Lemma play_catch_vol m : vol_ok m -> vol_ok (play_catch m).1.
Proof. intros H. unfold play_catch; cbn [fst]. apply cleanup_vol. exact H. Qed.

Lemma play_build_vol fadeIn env m : vol_ok m -> vol_ok (play_build fadeIn env m).1.
Proof.
  intros H. unfold play_build; cbv zeta.
  destruct (audioContext m); [|now apply play_catch_vol].
  destruct (fails_at env AtCreateSource); [now apply play_catch_vol|].
  destruct (fails_at env AtCreateGain); [now apply play_catch_vol|].
  assert (H1 : forall x, volume x = volume m -> gainNode x = Some 1%Q -> vol_ok x).
  { intros x Hv Hg. apply (vol_ok_gain x m (Some 1%Q)); try assumption.
    intros y [= <-]. apply in_unit_1. }
  destruct (fails_at env AtConnect); [apply play_catch_vol, H1; reflexivity|].
  destruct (fails_at env AtStart); [apply play_catch_vol, H1; reflexivity|].
  destruct fadeIn.
  - match goal with |- context [fadeTo_call ?a ?b ?c ?e ?x] =>
      pose proof (fadeTo_call_vol a b c e x) as Hf;
      destruct (fadeTo_call a b c e x) as [m7 fs] end.
    cbn [fst] in *. apply Hf, H1; reflexivity.
  - cbn [fst]. apply setVolume_vol.
Qed.

Lemma run_frame_vol f env m : vol_ok m -> vol_ok (run_frame f env m).1.
Proof.
  intros H. destruct f; cbn [run_frame].
  - destruct (_ || _); [exact H|]. cbn [fst]. apply setVolume_vol.
  - destruct more; exact H.
  - destruct (timer_cleared _ _); exact H.
  - destruct (SoundState_eqb _ _); exact H.
  - cbn [fst]. now apply unload_vol.
  - cbn [fst]. now apply cleanup_vol.
  - destruct (negb _); [exact H|].
    cbn [audioContext setState set_state emit set_currentUrl].
    destruct (audioContext m); [exact H|].
    destruct (env_ctx_ok env); [exact H|]. apply play_catch_vol. exact H.
  - destruct (env_ok env); [exact H|now apply play_catch_vol].
  - destruct (env_ok env); [|now apply play_catch_vol].
    destruct (audioContext m); [exact H|now apply play_catch_vol].
  - destruct (env_ok env); [|now apply play_catch_vol].
    destruct (negb _); cbn [fst].
    + apply cleanup_vol. exact H.
    + apply play_build_vol. exact H.
Qed.

(** In every state the engine can reach, the stored volume lies in [0, 1],
    and so does the gain whenever a gain node exists. *)
Theorem volume_stays_in_unit_interval (s : Sys) :
  Reachable s ->
  in_unit (volume (mgr s))
  /\ forall g, gainNode (mgr s) = Some g -> in_unit g.
Proof.
  induction 1 as [|env inp s _ IH].
  - split; [apply in_unit_1|discriminate].
  - change (vol_ok (mgr (step env inp s))). change (vol_ok (mgr s)) in IH.
    destruct inp; cbn [step spawn mgr].
    + unfold play_call.
      pose proof (stop_call_vol true env
                    (set_transitionId (S (transitionId (mgr s))) (mgr s)) IH) as H.
      destruct (stop_call _ _ _) as [m2 fs]. exact H.
    + now apply stop_call_vol.
    + unfold setMuted. apply setVolume_vol.
    + unfold dispose_call.
      pose proof (stop_call_vol true env (mgr s) IH) as H.
      destruct (stop_call _ _ _) as [m2 fs]. exact H.
    + destruct (tasks s !! i) as [[[|f rest]| |]|]; try exact IH.
      pose proof (run_frame_vol f env (mgr s) IH) as H.
      destruct (run_frame f env (mgr s)) as [m' [fs|]]; exact H.
Qed.

Lemma volume_stays_in_unit_interval_witness : in_unit (volume (mgr sys_playing)).
Proof.
  exact (proj1 (volume_stays_in_unit_interval sys_playing sys_playing_reachable)).
Defined.

(** When the decode of an outdated [play] completes, its cleanup closes the
    audio context it shares with the newest [play]; the newest call is then
    rejected when it reaches its decode, and never starts its track. *)
Theorem stale_completion_rejects_newest_play
    (m : Mgr) (env env' : Env) (old my : nat) (oldUrl url : string)
    (oldFade fadeIn : bool) :
  old <> transitionId m ->
  my = transitionId m ->
  let m1 := (run_frame (FPlayDecode old oldUrl oldFade) env m).1 in
  audioContext m1 = None
  /\ (run_frame (FPlayArrayBuffer my url fadeIn) env' m1).2 = Throw
  /\ (run_frame (FPlayDecode my url fadeIn) env' m1).2 = Throw
  /\ started (run_frame (FPlayDecode my url fadeIn) env' m1).1 = started m.
Proof.
  intros Hold Hmy m1.
  destruct (stale_decode old oldUrl oldFade env m Hold) as (Hrel & Hst & _).
  fold m1 in Hrel, Hst. destruct Hrel as (_ & Hctx & _).
  destruct (run_frame_keeps (FPlayDecode old oldUrl oldFade) env m) as (Htid & _).
  fold m1 in Htid.
  split; [exact Hctx|]. cbn [run_frame].
  split; [destruct (env_ok env'); [rewrite Hctx|]; reflexivity|].
  cbn [transitionId set_audioBuffer]. rewrite Htid, <- Hmy, Nat.eqb_refl.
  cbn [negb]. unfold play_build.
  cbn [audioContext setState set_state emit set_audioBuffer]. rewrite Hctx.
  destruct (env_ok env'); (split; [reflexivity|]).
  - rewrite play_catch_started. unfold setState. rewrite started_emit. cbn.
    unfold started in *; cbn. lia.
  - rewrite play_catch_started. exact Hst.
Qed.

Lemma stale_completion_rejects_newest_play_witness :
  (run_frame (FPlayArrayBuffer 2 "b.mp3" true) env_good
     (run_frame (FPlayDecode 1 "a.mp3" true) env_good
        (mgr (step env_good (CallPlay "b.mp3" true) sys_loading))).1).2 = Throw.
Proof.
  refine (proj1 (proj2 (stale_completion_rejects_newest_play
            (mgr (step env_good (CallPlay "b.mp3" true) sys_loading))
            env_good env_good 1 2 "a.mp3" "b.mp3" true true _ eq_refl))).
  vm_compute. discriminate.
Defined.

(** A [play] with [fadeIn] leaves the gain at the node's default 1 even on
    a muted engine, while without [fadeIn] the gain follows the mute state. *)
Theorem fadeIn_start_ignores_mute (m : Mgr) (env : Env) (c : nat) :
  sound m = false -> fadeTimeout m = None ->
  audioContext m = Some c -> env_build env = None ->
  gainNode (play_build true env m).1 = Some 1%Q
  /\ gainNode (play_build false env m).1
     = Some (if isMuted m then 0%Q else js_max 0 (js_min 1 (volume m)))
  /\ started (play_build true env m).1 = S (started m).
Proof.
  intros Hs Ht Hc Hb. unfold play_build; cbv zeta.
  rewrite Hc. unfold fails_at. rewrite Hb.
  rewrite fadeTo_call_idle by (cbn; assumption).
  cbn [fst]. split; [reflexivity|]. split.
  - unfold setVolume. cbn. destruct (isMuted m); reflexivity.
  - unfold setState, started; cbn.
    rewrite !List.filter_app, !length_app; cbn. lia.
Qed.

Lemma fadeIn_start_ignores_mute_witness :
  gainNode (play_build true env_good
              (set_isMuted true (set_audioContext (Some 0%nat) new_manager))).1
  = Some 1%Q.
Proof.
  exact (proj1 (fadeIn_start_ignores_mute
                  (set_isMuted true (set_audioContext (Some 0%nat) new_manager))
                  env_good 0 eq_refl eq_refl eq_refl eq_refl)).
Defined.

Lemma cleanup_stops m : stops (cleanup m) = stops m.
Proof.
  unfold cleanup, setState, stops.
  destruct (fadeTimeout m); cbn; destruct (audioContext m); cbn;
    rewrite ?List.filter_app, ?length_app; cbn; lia.
Qed.

(** [stop(false)] on an engine that holds a track tears it down in one go:
    nothing is awaited, the source is stopped if there is one, and the
    engine is left released. *)
Theorem stop_without_fade_releases (m : Mgr) (env : Env) :
  state m <> idle -> state m <> stopping -> state m <> unloading ->
  is_Some (sourceNode m) \/ is_Some (audioBuffer m) ->
  let r := stop_call false env m in
  r.2 = [] /\ released r.1
  /\ stops r.1 = (stops m + match sourceNode m with Some _ => 1 | None => 0 end)%nat
  /\ started r.1 = started m.
Proof.
  intros H1 H2 H3 Hl. unfold stop_call.
  assert (Hg1 : SoundState_eqb (state m) idle
                || negb (bool_decide (is_Some (sourceNode m)))
                   && negb (bool_decide (is_Some (audioBuffer m))) = false).
  { apply orb_false_iff. split; [destruct (state m); try reflexivity; done|].
    destruct Hl as [Hl|Hl]; rewrite (bool_decide_eq_true_2 _ Hl); cbn;
      [reflexivity|apply andb_false_r]. }
  assert (Hg2 : SoundState_eqb (state m) stopping
                || SoundState_eqb (state m) unloading = false).
  { destruct (state m); try reflexivity; done. }
  rewrite Hg1, Hg2. cbn [fst snd]. split; [reflexivity|].
  unfold unload. cbn [state setState set_state emit SoundState_eqb].
  split; [apply cleanup_released|].
  rewrite cleanup_stops, cleanup_started. unfold stops, started.
  destruct m as [ctx buf src gn st url tid vol mu ft snd tr fr]; cbn.
  destruct gn, src; cbn; rewrite ?List.filter_app, ?length_app; cbn; lia.
Qed.

Lemma stop_without_fade_releases_witness :
  released (stop_call false env_good (mgr sys_playing)).1.
Proof.
  assert (H1 : state (mgr sys_playing) <> idle) by (vm_compute; discriminate).
  assert (H2 : state (mgr sys_playing) <> stopping) by (vm_compute; discriminate).
  assert (H3 : state (mgr sys_playing) <> unloading) by (vm_compute; discriminate).
  assert (H4 : is_Some (sourceNode (mgr sys_playing))
               \/ is_Some (audioBuffer (mgr sys_playing)))
    by (left; vm_compute; eauto).
  exact (proj1 (proj2 (stop_without_fade_releases (mgr sys_playing) env_good
                         H1 H2 H3 H4))).
Defined.

(** [dispose()] on an engine that is not in the middle of a stop releases
    everything: once its (at most two) continuations have run, the call is
    resolved and the engine is idle with context, buffer and nodes cleared. *)
Theorem dispose_releases (s : Sys) (env env1 env2 : Env) :
  Reachable s ->
  state (mgr s) <> stopping -> state (mgr s) <> unloading ->
  let i := length (tasks s) in
  let s' := step env2 (Resume i) (step env1 (Resume i) (step env CallDispose s)) in
  released (mgr s') /\ tasks s' !! i = Some Resolved.
Proof.
  intros Hr H1 H2 i s'.
  destruct (reachable_quiet s Hr) as (Hs & Ht & _).
  assert (Hmid : forall l x, (l ++ [x] : list Status) !! length l = Some x).
  { intros l x. rewrite lookup_app_r by lia. now rewrite Nat.sub_diag. }
  assert (Hins : forall l (x y : Status), (<[length l := y]> (l ++ [x]) : list Status) !! length l = Some y).
  { intros l x y. apply list_lookup_insert_eq. rewrite length_app; cbn; lia. }
  subst s' i. cbn [step]. unfold dispose_call, stop_call, spawn.
  destruct (SoundState_eqb (state (mgr s)) idle
            || negb (bool_decide (is_Some (sourceNode (mgr s))))
               && negb (bool_decide (is_Some (audioBuffer (mgr s))))) eqn:Hg1.
  - cbn [fst snd app status_of mgr tasks].
    rewrite !Hmid. cbn [run_frame fst snd app status_of mgr tasks].
    rewrite !Hins. split; [apply cleanup_released|cbn [tasks]; apply Hins].
  - assert (Hg2 : SoundState_eqb (state (mgr s)) stopping
                  || SoundState_eqb (state (mgr s)) unloading = false).
    { destruct (state (mgr s)); try reflexivity; done. }
    rewrite Hg2. rewrite fadeTo_call_idle by (cbn; assumption).
    cbn [fst snd app status_of mgr tasks].
    rewrite !Hmid. cbn [run_frame fst snd app status_of mgr tasks].
    rewrite !Hins. cbn [run_frame fst snd app status_of mgr tasks].
    split; [apply cleanup_released|].
    cbn [tasks]. rewrite list_insert_insert_eq. apply Hins.
Qed.

Lemma dispose_releases_witness :
  released
    (mgr (step env_good (Resume 1)
            (step env_good (Resume 1) (step env_good CallDispose sys_loading)))).
Proof.
  assert (H1 : state (mgr sys_loading) <> stopping) by (vm_compute; discriminate).
  assert (H2 : state (mgr sys_loading) <> unloading) by (vm_compute; discriminate).
  exact (proj1 (dispose_releases sys_loading env_good env_good env_good
                  sys_loading_reachable H1 H2)).
Defined.

End AudioManagerMore.

(** ** Engine page: further properties *)

Section EnginePageMore.

(** Steps through a handler towards the page it started from, for any
    field the step leaves alone. *)
Local Ltac keep_field :=
  repeat first
    [ reflexivity
    | match goal with
      | |- ?pr (if ?b then _ else _) = _ => destruct b
      | |- ?pr (match ?x with _ => _ end) = _ => destruct x
      | |- ?pr (?f ?a ?q) = _ => transitivity (pr q); [reflexivity|]
      | |- ?pr (?f ?q) = _ => transitivity (pr q); [reflexivity|]
      end ].

Lemma startVideoPlayback_keeps env p :
  EnginePage.hasUserInteracted (EnginePage.startVideoPlayback env p)
  = EnginePage.hasUserInteracted p
  /\ EnginePage.currentReelIndex (EnginePage.startVideoPlayback env p)
     = EnginePage.currentReelIndex p
  /\ EnginePage.reelStates (EnginePage.startVideoPlayback env p)
     = EnginePage.reelStates p.
Proof.
  unfold EnginePage.startVideoPlayback, EnginePage.video_play; cbv zeta.
  destruct (EnginePage.videoRef p); [|auto].
  destruct (EnginePage.videoUrl p); [|auto].
  destruct (EnginePage.video_play_ok env); [|destruct (EnginePage.video_retry_ok env)];
    auto.
Qed.

Lemma startAudioPlayback_keeps my env p :
  EnginePage.hasUserInteracted (EnginePage.startAudioPlayback my env p)
  = EnginePage.hasUserInteracted p
  /\ EnginePage.currentReelIndex (EnginePage.startAudioPlayback my env p)
     = EnginePage.currentReelIndex p
  /\ EnginePage.reelStates (EnginePage.startAudioPlayback my env p)
     = EnginePage.reelStates p.
Proof.
  unfold EnginePage.startAudioPlayback; cbv zeta.
  destruct (EnginePage.music_url p); [|auto].
  destruct (negb _); [auto|]. destruct (EnginePage.pendingAutoPlay p); [auto|].
  destruct (negb _); [auto|]. destruct (EnginePage.mgr_play_ok env); auto.
Qed.

Lemma playback_effect_keeps env p :
  EnginePage.hasUserInteracted (EnginePage.playback_effect env p)
  = EnginePage.hasUserInteracted p
  /\ EnginePage.currentReelIndex (EnginePage.playback_effect env p)
     = EnginePage.currentReelIndex p
  /\ EnginePage.reelStates (EnginePage.playback_effect env p)
     = EnginePage.reelStates p.
Proof.
  unfold EnginePage.playback_effect; cbv zeta.
  set (p3 := EnginePage.set_isPlaying true _).
  set (my := S _).
  assert (H3 : EnginePage.hasUserInteracted p3 = EnginePage.hasUserInteracted p
               /\ EnginePage.currentReelIndex p3 = EnginePage.currentReelIndex p
               /\ EnginePage.reelStates p3 = EnginePage.reelStates p) by auto.
  set (p4 := EnginePage.fadeOutAndStopPrevious p3).
  assert (H4 : EnginePage.hasUserInteracted p4 = EnginePage.hasUserInteracted p
               /\ EnginePage.currentReelIndex p4 = EnginePage.currentReelIndex p
               /\ EnginePage.reelStates p4 = EnginePage.reelStates p).
  { unfold p4, EnginePage.fadeOutAndStopPrevious; cbv zeta.
    destruct (_ || _); exact H3. }
  set (p5 := match EnginePage.music_url p4 with
             | Some _ => EnginePage.startAudioPlayback my env p4
             | None => p4
             end).
  assert (H5 : EnginePage.hasUserInteracted p5 = EnginePage.hasUserInteracted p
               /\ EnginePage.currentReelIndex p5 = EnginePage.currentReelIndex p
               /\ EnginePage.reelStates p5 = EnginePage.reelStates p).
  { unfold p5. destruct (EnginePage.music_url p4); [|exact H4].
    destruct (startAudioPlayback_keeps my env p4) as (-> & -> & ->). exact H4. }
  assert (H6 : let r := match EnginePage.videoUrl p5 with
                        | Some _ => EnginePage.startVideoPlayback env p5
                        | None => p5
                        end in
               EnginePage.hasUserInteracted r = EnginePage.hasUserInteracted p
               /\ EnginePage.currentReelIndex r = EnginePage.currentReelIndex p
               /\ EnginePage.reelStates r = EnginePage.reelStates p).
  { cbv zeta. destruct (EnginePage.videoUrl p5); [|exact H5].
    destruct (startVideoPlayback_keeps env p5) as (-> & -> & ->). exact H5. }
  cbv zeta in H6.
  destruct (EnginePage.videoRef p3); [|exact H6].
  destruct (EnginePage.videoUrl p3); [|exact H6].
  destruct (EnginePage.video_ready env); [exact H6|exact H3].
Qed.

(** Events other than navigation leave the feed and the index alone. *)
Lemma handle_keeps_feed e p :
  EnginePage.reelStates (EnginePage.handle e p) = EnginePage.reelStates p.
Proof.
  destruct e; cbn [EnginePage.handle];
    try apply playback_effect_keeps;
    unfold EnginePage.onTouchEnd, EnginePage.handleNextReel,
      EnginePage.handlePrevReel, EnginePage.onFirstInteract,
      EnginePage.backgroundClick, EnginePage.toggleMute, EnginePage.togglePlay,
      EnginePage.video_onPlay, EnginePage.video_onLoaded, EnginePage.video_onError,
      EnginePage.onVisibilityChange, EnginePage.audio_play, EnginePage.video_play;
    cbv zeta; keep_field.
Qed.

Lemma nav_commit_index_ok now d p :
  EnginePage.index_ok p ->
  EnginePage.index_ok (EnginePage.nav_commit d (EnginePage.nav_enter now p)).
Proof.
  unfold EnginePage.index_ok, EnginePage.nav_commit, EnginePage.nav_enter; cbn.
  set (len := Z.of_nat (length (EnginePage.reelStates p))).
  set (i := EnginePage.currentReelIndex p). intros Hi.
  destruct d; apply Z.rem_bound_pos; lia.
Qed.

Lemma handle_index_ok e p :
  EnginePage.index_ok p -> EnginePage.index_ok (EnginePage.handle e p).
Proof.
  intros H.
  assert (Hsame : forall q,
            EnginePage.currentReelIndex q = EnginePage.currentReelIndex p ->
            EnginePage.reelStates q = EnginePage.reelStates p ->
            EnginePage.index_ok q).
  { intros q H1 H2. unfold EnginePage.index_ok in *. now rewrite H1, H2. }
  assert (Hnav : forall now d,
            EnginePage.index_ok
              (if EnginePage.nav_dropped now p then p
               else EnginePage.nav_commit d (EnginePage.nav_enter now p))).
  { intros now d. destruct (EnginePage.nav_dropped now p);
      [exact H|now apply nav_commit_index_ok]. }
  destruct e; cbn [EnginePage.handle];
    lazymatch goal with
    | |- EnginePage.index_ok (EnginePage.handleNextReel _ _) => apply Hnav
    | |- EnginePage.index_ok (EnginePage.handlePrevReel _ _) => apply Hnav
    | |- EnginePage.index_ok (EnginePage.onTouchEnd _ _ _) =>
        unfold EnginePage.onTouchEnd;
        destruct (_ <? _); [|exact H]; destruct (_ <? _); apply Hnav
    | |- EnginePage.index_ok (EnginePage.playback_effect _ _) =>
        apply Hsame; apply playback_effect_keeps
    | |- _ =>
        apply Hsame;
        unfold EnginePage.onFirstInteract, EnginePage.backgroundClick,
          EnginePage.toggleMute, EnginePage.togglePlay, EnginePage.video_onPlay,
          EnginePage.video_onLoaded, EnginePage.video_onError,
          EnginePage.onVisibilityChange, EnginePage.audio_play,
          EnginePage.video_play;
        cbv zeta; keep_field
    end.
Qed.

(** On a non-empty feed the current index always addresses a feed item,
    whatever sequence of events the page goes through. *)
Theorem engine_index_stays_in_range (reels : list Reel) (es : list EnginePage.Event) :
  reels <> [] ->
  EnginePage.index_ok (EnginePage.run_events (EnginePage.mounted reels) es)
  /\ is_Some (EnginePage.currentReel
                (EnginePage.run_events (EnginePage.mounted reels) es)).
Proof.
  intros Hne.
  assert (H0 : EnginePage.index_ok (EnginePage.mounted reels)).
  { unfold EnginePage.index_ok; cbn. destruct reels; [done|cbn; lia]. }
  assert (H : forall p, EnginePage.index_ok p ->
              EnginePage.index_ok (EnginePage.run_events p es)).
  { induction es as [|e es IH]; intros p Hp; cbn; [exact Hp|].
    apply IH, handle_index_ok, Hp. }
  specialize (H _ H0). split; [exact H|].
  unfold EnginePage.currentReel, MediaCache.reel_at, EnginePage.index_ok in *.
  destruct (Z.ltb_spec (EnginePage.currentReelIndex
                          (EnginePage.run_events (EnginePage.mounted reels) es)) 0);
    [lia|].
  apply lookup_lt_is_Some. lia.
Qed.

Lemma engine_index_stays_in_range_witness :
  EnginePage.index_ok
    (EnginePage.run_events (EnginePage.mounted Samples.feed)
       [EnginePage.EvPrev 1000; EnginePage.EvNext 2000]).
Proof.
  assert (Hne : Samples.feed <> []) by discriminate.
  exact (proj1 (engine_index_stays_in_range Samples.feed
                  [EnginePage.EvPrev 1000; EnginePage.EvNext 2000] Hne)).
Defined.

Lemma handle_keeps_interacted e p :
  EnginePage.hasUserInteracted p = true ->
  EnginePage.hasUserInteracted (EnginePage.handle e p) = true.
Proof.
  intros H.
  assert (Hsame : forall q,
            EnginePage.hasUserInteracted q = EnginePage.hasUserInteracted p ->
            EnginePage.hasUserInteracted q = true) by (intros q ->; exact H).
  destruct e; cbn [EnginePage.handle];
    lazymatch goal with
    | |- EnginePage.hasUserInteracted (EnginePage.onFirstInteract _) = _ =>
        unfold EnginePage.onFirstInteract; rewrite H; exact H
    | |- EnginePage.hasUserInteracted (EnginePage.backgroundClick _ _ _ _) = _ =>
        unfold EnginePage.backgroundClick; cbv zeta; rewrite H; exact H
    | |- EnginePage.hasUserInteracted (EnginePage.playback_effect _ _) = _ =>
        apply Hsame; apply playback_effect_keeps
    | |- _ =>
        apply Hsame;
        unfold EnginePage.onTouchEnd, EnginePage.handleNextReel,
          EnginePage.handlePrevReel, EnginePage.toggleMute, EnginePage.togglePlay,
          EnginePage.video_onPlay, EnginePage.video_onLoaded,
          EnginePage.video_onError, EnginePage.onVisibilityChange,
          EnginePage.audio_play, EnginePage.video_play;
        cbv zeta; keep_field
    end.
Qed.

(** Each of the three first-interaction paths (pointer-down, key-down, a
    click on the background) records the interaction, and no event ever
    resets it: from then on the "Tap to enable sound" overlay stays hidden. *)
Theorem overlay_never_reappears
    (p : EnginePage.Page) (e : EnginePage.Event) (es : list EnginePage.Event) :
  e = EnginePage.EvPointerDown \/ e = EnginePage.EvKeyDown
  \/ (exists a b c, e = EnginePage.EvBackgroundClick a b c) ->
  let p' := EnginePage.run_events (EnginePage.handle e p) es in
  EnginePage.hasUserInteracted p' = true /\ EnginePage.overlay_visible p' = false.
Proof.
  intros He p'.
  assert (H1 : EnginePage.hasUserInteracted (EnginePage.handle e p) = true).
  { destruct He as [-> | [-> | (a & b & c & ->)]]; cbn [EnginePage.handle].
    - unfold EnginePage.onFirstInteract.
      destruct (EnginePage.hasUserInteracted p) eqn:E; [exact E|reflexivity].
    - unfold EnginePage.onFirstInteract.
      destruct (EnginePage.hasUserInteracted p) eqn:E; [exact E|reflexivity].
    - unfold EnginePage.backgroundClick, EnginePage.audio_play,
        EnginePage.video_play; cbv zeta.
      destruct (EnginePage.hasUserInteracted p) eqn:E; [exact E|].
      keep_field. }
  assert (H : forall q, EnginePage.hasUserInteracted q = true ->
              EnginePage.hasUserInteracted (EnginePage.run_events q es) = true).
  { induction es as [|e' es IH]; intros q Hq; cbn; [exact Hq|].
    apply IH, handle_keeps_interacted, Hq. }
  specialize (H _ H1). fold p' in H. split; [exact H|].
  unfold EnginePage.overlay_visible. rewrite H. apply andb_false_r.
Qed.

Lemma overlay_never_reappears_witness :
  EnginePage.overlay_visible
    (EnginePage.run_events
       (EnginePage.handle EnginePage.EvKeyDown
          (EnginePage.set_music (Some Samples.track_x)
             (EnginePage.mounted Samples.feed)))
       [EnginePage.EvNext 1000; EnginePage.EvSetMusic (Some Samples.track_x)])
  = false.
Proof.
  refine (proj2 (overlay_never_reappears _ EnginePage.EvKeyDown _ _)).
  right. left. reflexivity.
Defined.

(** What an accepted navigation does before the index moves: it records the
    time, clears the music, invalidates running transitions, and leaves both
    media elements paused, rewound and muted, the audio element emptied. *)
Theorem accepted_navigation_silences_media
    (now : Z) (p : EnginePage.Page) :
  EnginePage.nav_dropped now p = false ->
  let p' := EnginePage.handleNextReel now p in
  EnginePage.lastScrollTime p' = now
  /\ EnginePage.music p' = None
  /\ EnginePage.transitionIdRef p' = S (EnginePage.transitionIdRef p)
  /\ EnginePage.pendingAutoPlay p' = false
  /\ EnginePage.slideDirection p' = Some EnginePage.up
  /\ (forall v, EnginePage.videoRef p' = Some v ->
        EnginePage.v_paused v = true /\ EnginePage.v_muted v = true
        /\ EnginePage.v_currentTime v = 0%Q)
  /\ (forall a, EnginePage.audioRef p' = Some a ->
        EnginePage.a_paused a = true /\ EnginePage.a_muted a = true
        /\ EnginePage.a_volume a = 0%Q /\ EnginePage.a_src a = ""
        /\ EnginePage.a_currentTime a = 0%Q).
Proof.
  intros Hacc p'. unfold p', EnginePage.handleNextReel. rewrite Hacc.
  unfold EnginePage.nav_commit, EnginePage.nav_enter, EnginePage.strongStopAllMedia,
    EnginePage.on_video, EnginePage.on_audio, EnginePage.emit; cbn.
  do 5 (split; [reflexivity|]). split.
  - intros v Hv. destruct (EnginePage.videoRef p) as [v0|]; cbn in Hv;
      [injection Hv as <-; auto|discriminate].
  - intros a Ha. destruct (EnginePage.audioRef p) as [a0|]; cbn in Ha;
      [injection Ha as <-; auto 10|discriminate].
Qed.

Lemma accepted_navigation_silences_media_witness :
  EnginePage.music
    (EnginePage.handleNextReel 1000
       (EnginePage.set_music (Some Samples.track_x)
          (EnginePage.mounted Samples.feed))) = None.
Proof.
  exact (proj1 (proj2 (accepted_navigation_silences_media 1000
                         (EnginePage.set_music (Some Samples.track_x)
                            (EnginePage.mounted Samples.feed)) eq_refl))).
Defined.

Lemma rem_next_prev (i len : Z) :
  0 <= i < len ->
  Z.rem (Z.rem (i + 1) len - 1 + len) len = i
  /\ Z.rem (Z.rem (i - 1 + len) len + 1) len = i.
Proof.
  intros Hi. rewrite !Z.rem_mod_nonneg; try lia.
  - split.
    + destruct (Z.eq_dec (i + 1) len) as [E|E].
      * rewrite E, Z.mod_same by lia. rewrite Z.mod_small; lia.
      * rewrite (Z.mod_small (i + 1)) by lia.
        replace (i + 1 - 1 + len) with (i + 1 * len) by lia.
        rewrite Z.mod_add by lia. apply Z.mod_small; lia.
    + destruct (Z.eq_dec i 0) as [E|E].
      * subst i. rewrite (Z.mod_small (0 - 1 + len)) by lia.
        replace (0 - 1 + len + 1) with len by lia. apply Z.mod_same; lia.
      * replace (i - 1 + len) with (i - 1 + 1 * len) by lia.
        rewrite Z.mod_add by lia. rewrite (Z.mod_small (i - 1)) by lia.
        replace (i - 1 + 1) with i by lia. apply Z.mod_small; lia.
  - pose proof (Z.rem_bound_pos (i - 1 + len) len). lia.
  - pose proof (Z.rem_bound_pos (i + 1) len). lia.
Qed.

(** Navigation wraps around on both pages: next from the last item goes to
    the first, previous from the first goes to the last, and on each page an
    accepted next followed by an accepted previous, and an accepted previous
    followed by an accepted next, return to the item they started from. *)
Theorem navigation_wraps_and_round_trips
    (pe : EnginePage.Page) (pl : LegacyPage.Page) (t1 t2 : Z) :
  EnginePage.index_ok pe -> LegacyPage.index_ok pl ->
  let lenE := Z.of_nat (length (EnginePage.reelStates pe)) in
  let lenL := Z.of_nat (length (LegacyPage.reelStates pl)) in
  let goE d t p := EnginePage.nav_commit d (EnginePage.nav_enter t p) in
  (EnginePage.currentReelIndex pe = lenE - 1 ->
     EnginePage.currentReelIndex (goE EnginePage.up t1 pe) = 0)
  /\ (EnginePage.currentReelIndex pe = 0 ->
        EnginePage.currentReelIndex (goE EnginePage.down t1 pe) = lenE - 1)
  /\ EnginePage.currentReelIndex (goE EnginePage.down t2 (goE EnginePage.up t1 pe))
     = EnginePage.currentReelIndex pe
  /\ EnginePage.currentReelIndex (goE EnginePage.up t2 (goE EnginePage.down t1 pe))
     = EnginePage.currentReelIndex pe
  /\ (LegacyPage.currentReelIndex pl = lenL - 1 ->
        LegacyPage.currentReelIndex (LegacyPage.nav_commit t1 EnginePage.up pl) = 0)
  /\ (LegacyPage.currentReelIndex pl = 0 ->
        LegacyPage.currentReelIndex (LegacyPage.nav_commit t1 EnginePage.down pl)
        = lenL - 1)
  /\ LegacyPage.currentReelIndex
       (LegacyPage.nav_commit t2 EnginePage.down
          (LegacyPage.nav_commit t1 EnginePage.up pl))
     = LegacyPage.currentReelIndex pl
  /\ LegacyPage.currentReelIndex
       (LegacyPage.nav_commit t2 EnginePage.up
          (LegacyPage.nav_commit t1 EnginePage.down pl))
     = LegacyPage.currentReelIndex pl.
Proof.
  intros HE HL lenE lenL goE.
  unfold EnginePage.index_ok, LegacyPage.index_ok in HE, HL.
  unfold goE, EnginePage.nav_commit, EnginePage.nav_enter, LegacyPage.nav_commit;
    cbn. fold lenE lenL.
  destruct (rem_next_prev _ _ HE) as [HE1 HE2].
  destruct (rem_next_prev _ _ HL) as [HL1 HL2].
  split; [|split; [|split; [|split; [|split; [|split; [|split]]]]]].
  - intros ->. replace (lenE - 1 + 1) with lenE by lia.
    rewrite Z.rem_mod_nonneg by lia. apply Z.mod_same; lia.
  - intros ->. replace (0 - 1 + lenE) with (lenE - 1) by lia.
    rewrite Z.rem_mod_nonneg by lia. apply Z.mod_small; lia.
  - exact HE1.
  - exact HE2.
  - intros ->. replace (lenL - 1 + 1) with lenL by lia.
    rewrite Z.rem_mod_nonneg by lia. apply Z.mod_same; lia.
  - intros ->. replace (0 - 1 + lenL) with (lenL - 1) by lia.
    rewrite Z.rem_mod_nonneg by lia. apply Z.mod_small; lia.
  - exact HL1.
  - exact HL2.
Qed.

Lemma navigation_wraps_and_round_trips_witness :
  EnginePage.currentReelIndex
    (EnginePage.nav_commit EnginePage.down
       (EnginePage.nav_enter 1000 (EnginePage.mounted Samples.feed))) = 5 - 1.
Proof.
  assert (HE : EnginePage.index_ok (EnginePage.mounted Samples.feed))
    by (unfold EnginePage.index_ok; cbn; lia).
  assert (HL : LegacyPage.index_ok (LegacyPage.mounted Samples.feed))
    by (unfold LegacyPage.index_ok; cbn; lia).
  exact (proj1 (proj2 (navigation_wraps_and_round_trips
                         (EnginePage.mounted Samples.feed)
                         (LegacyPage.mounted Samples.feed) 1000 2000 HE HL))
           eq_refl).
Defined.

End EnginePageMore.

(** ** Preload cache: further properties *)

Section CacheMore.
Import MediaCache.

Lemma map_size_le_keys {A} (l : list string) (m : gmap string A) :
  (forall k, is_Some (m !! k) -> k ∈ l) -> (size m <= length l)%nat.
Proof.
  revert m. induction l as [|x l IH]; intros m Hk.
  - assert (m = ∅) as ->; [|rewrite map_size_empty; cbn; lia].
    apply map_empty. intros i. destruct (m !! i) eqn:E; [|reflexivity].
    exfalso. eapply not_elem_of_nil. apply Hk. eauto.
  - assert (Hd : (size (delete x m) <= length l)%nat).
    { apply IH. intros k [v Hv].
      apply lookup_delete_Some in Hv as [Hne Hv].
      specialize (Hk k (ex_intro _ v Hv)).
      apply elem_of_cons in Hk as [->|Hk]; [done|exact Hk]. }
    rewrite map_size_delete in Hd. cbn.
    destruct (m !! x) eqn:E; cbn in Hd; lia.
Qed.

Lemma length_concat_map_le {A B} (f : A -> list B) (n : nat) (l : list A) :
  (forall x, (length (f x) <= n)%nat) ->
  (length (concat (map f l)) <= n * length l)%nat.
Proof.
  intros Hf. induction l as [|x l IH]; cbn; [lia|].
  rewrite length_app. specialize (Hf x). lia.
Qed.

Lemma reel_urls_length r : (length (reel_urls r) <= 5)%nat.
Proof.
  unfold reel_urls. rewrite !length_app.
  assert (H1 : (length (if truthy (r_posterImage r) then [r_posterImage r] else [])
                <= 1)%nat) by (destruct (truthy _); cbn; lia).
  assert (H2 : (length match r_galleryImages r with
                       | Some g => take 2 g
                       | None => []
                       end <= 2)%nat).
  { destruct (r_galleryImages r); [rewrite length_take|cbn]; lia. }
  assert (H3 : (length match r_videoUrl r with
                       | Some v => if truthy v then [v] else []
                       | None => []
                       end <= 1)%nat).
  { destruct (r_videoUrl r) as [v|]; [destruct (truthy v)|]; cbn; lia. }
  assert (H4 : (length match music_url_of r with
                       | Some a => if truthy a then [a] else []
                       | None => []
                       end <= 1)%nat).
  { destruct (music_url_of r) as [a|]; [destruct (truthy a)|]; cbn; lia. }
  lia.
Qed.

Lemma urlsInWindow_length reels cur : (length (urlsInWindow reels cur) <= 20)%nat.
Proof.
  unfold urlsInWindow.
  etransitivity; [apply (length_concat_map_le _ 5)|].
  - intros i. destruct (reel_at reels i); [apply reel_urls_length|cbn; lia].
  - unfold window_indices, minKeep, maxKeep, PRELOAD_AHEAD, PRELOAD_BEHIND.
    rewrite length_map, length_seq. lia.
Qed.

(** The pruning keeps memory bounded: after the effect has run on a
    non-empty feed, each of the two caches holds at most 20 entries, whatever
    the feed length and whatever the caches held before. *)
Theorem cache_size_is_bounded (reels : list Reel) (k : Z) (c : Caches) :
  reels <> [] ->
  (size (preloadedImages (preload_effect reels k c)) <= 20)%nat
  /\ (size (preloadedVideos (preload_effect reels k c)) <= 20)%nat.
Proof.
  intros Hne. unfold preload_effect.
  destruct reels as [|r0 reels']; [done|].
  set (reels := r0 :: reels').
  cbn [prune preloadedImages preloadedVideos].
  split;
    (etransitivity; [apply (map_size_le_keys (urlsInWindow reels k))
                    |apply urlsInWindow_length]);
    intros url [x Hx]; apply map_lookup_filter_Some in Hx as [_ Hin]; exact Hin.
Qed.

Lemma cache_size_is_bounded_witness :
  (size (preloadedVideos (preload_effect Samples.feed 2 empty_caches)) <= 20)%nat.
Proof.
  assert (Hne : Samples.feed <> []) by discriminate.
  exact (proj2 (cache_size_is_bounded Samples.feed 2 empty_caches Hne)).
Defined.

Lemma preloadImage_links url c :
  prefetchLinks (preloadImage url c) = prefetchLinks c.
Proof.
  unfold preloadImage. destruct url as [u|]; [|reflexivity].
  destruct (negb _); [reflexivity|]. destruct (bool_decide _); reflexivity.
Qed.

Lemma preloadVideo_links url c :
  prefetchLinks (preloadVideo url c) = prefetchLinks c.
Proof.
  unfold preloadVideo. destruct url as [u|]; [|reflexivity].
  destruct (negb _); [reflexivity|]. destruct (bool_decide _); reflexivity.
Qed.

Lemma addPrefetch_links url c :
  prefetchLinks c ⊆ prefetchLinks (addPrefetch url c).
Proof. unfold addPrefetch. destruct (_ || _); cbn; set_solver. Qed.

Lemma preload_reel_links reels c idx :
  prefetchLinks c ⊆ prefetchLinks (preload_reel reels c idx).
Proof.
  unfold preload_reel. destruct (reel_at reels idx) as [reel|]; [|done].
  cbv zeta.
  set (c1 := preloadImage (Some (r_posterImage reel)) c).
  set (c2 := match r_galleryImages reel with
             | Some g => foldl (fun c u => preloadImage (Some u) c) c1 (take 2 g)
             | None => c1
             end).
  set (c3 := if is_truthy (r_videoUrl reel)
             then preloadVideo (r_videoUrl reel) c2 else c2).
  assert (H1 : prefetchLinks c1 = prefetchLinks c) by apply preloadImage_links.
  assert (H2 : prefetchLinks c2 = prefetchLinks c).
  { unfold c2. destruct (r_galleryImages reel) as [g|]; [|exact H1].
    rewrite <- H1. generalize c1. induction (take 2 g) as [|u us IH]; intros c0;
      cbn [foldl]; [reflexivity|].
    rewrite IH. apply preloadImage_links. }
  assert (H3 : prefetchLinks c3 = prefetchLinks c).
  { unfold c3. destruct (is_truthy _); [rewrite preloadVideo_links|]; exact H2. }
  destruct (music_url_of reel) as [mu|]; [|now rewrite H3].
  destruct (truthy mu); [|now rewrite H3].
  rewrite <- H3. apply addPrefetch_links.
Qed.

(** Prefetch links only accumulate: neither the preload effect nor the
    unmount cleanup ever removes one. *)
Theorem prefetch_links_only_grow (reels : list Reel) (k : Z) (c : Caches) :
  prefetchLinks c ⊆ prefetchLinks (preload_effect reels k c)
  /\ prefetchLinks (unmount_cleanup c) = prefetchLinks c.
Proof.
  split; [|reflexivity].
  unfold preload_effect. destruct reels as [|r0 reels]; [done|].
  cbn [prune prefetchLinks].
  generalize (indicesToPreload k (Z.of_nat (length (r0 :: reels)))).
  intros idxs. revert c. induction idxs as [|i idxs IH]; intros c; cbn [foldl];
    [done|].
  etransitivity; [apply (preload_reel_links (r0 :: reels) c i)|apply IH].
Qed.

Lemma preloadVideo_inserts v c :
  truthy v = true -> is_Some (preloadedVideos (preloadVideo (Some v) c) !! v).
Proof.
  intros Hv. unfold preloadVideo. rewrite Hv. cbn [negb].
  destruct (bool_decide (is_Some (preloadedVideos c !! v))) eqn:E.
  - now apply bool_decide_eq_true_1 in E.
  - cbn. rewrite lookup_insert_eq. eauto.
Qed.

Lemma preload_reel_caches_video reels c idx r v :
  reel_at reels idx = Some r -> r_videoUrl r = Some v -> truthy v = true ->
  is_Some (preloadedVideos (preload_reel reels c idx) !! v).
Proof.
  intros Hr Hv Ht. unfold preload_reel. rewrite Hr. cbv zeta.
  set (c2 := match r_galleryImages r with Some g => _ | None => _ end).
  assert (H3 : is_Some (preloadedVideos
                          (if is_truthy (r_videoUrl r)
                           then preloadVideo (r_videoUrl r) c2 else c2) !! v)).
  { rewrite Hv. cbn [is_truthy]. rewrite Ht. now apply preloadVideo_inserts. }
  destruct (music_url_of r) as [mu|]; [|exact H3].
  destruct (truthy mu); [|exact H3].
  now rewrite (proj1 (addPrefetch_keeps mu _)).
Qed.

Lemma foldl_preload_caches_video reels idxs c idx r v :
  In idx idxs ->
  reel_at reels idx = Some r -> r_videoUrl r = Some v -> truthy v = true ->
  is_Some (preloadedVideos (foldl (preload_reel reels) c idxs) !! v).
Proof.
  intros Hin Hr Hv Ht. revert c. induction idxs as [|i idxs IH]; intros c;
    [destruct Hin|]. cbn [foldl].
  destruct Hin as [->|Hin]; [|now apply IH].
  destruct (preload_reel_caches_video reels c idx r v Hr Hv Ht) as [x Hx].
  exists x. now apply foldl_preload_reel_keeps.
Qed.

(** After the effect has run for an index k, the video of each neighbour
    it looks at (k+1, k+2 and k-1, when they exist) is in the video cache. *)
Theorem neighbours_are_preloaded
    (reels : list Reel) (k d : Z) (c : Caches) (r : Reel) (v : string) :
  d = 1 \/ d = 2 \/ d = -1 ->
  reel_at reels (k + d) = Some r ->
  r_videoUrl r = Some v -> truthy v = true ->
  is_Some (preloadedVideos (preload_effect reels k c) !! v).
Proof.
  intros Hd Hr Hv Ht.
  assert (Hrange : 0 <= k + d < Z.of_nat (length reels)).
  { unfold reel_at in Hr. destruct (Z.ltb_spec (k + d) 0); [discriminate|].
    apply lookup_lt_Some in Hr. lia. }
  unfold preload_effect. destruct reels as [|r0 reels']; [cbn in Hrange; lia|].
  set (reels := r0 :: reels') in *.
  assert (Hidx : In (k + d) (indicesToPreload k (Z.of_nat (length reels)))).
  { unfold indicesToPreload. apply in_app_iff.
    destruct Hd as [->|[->| ->]].
    - left. apply list_elem_of_In, list_elem_of_filter. split; [lia|].
      apply list_elem_of_In; cbn; auto.
    - left. apply list_elem_of_In, list_elem_of_filter. split; [lia|].
      apply list_elem_of_In; cbn; auto.
    - right. apply list_elem_of_In, list_elem_of_filter.
      split; [lia|]. replace (k + -1) with (k - 1) by lia.
      apply list_elem_of_In; cbn; auto. }
  destruct (foldl_preload_caches_video reels _ c (k + d) r v Hidx Hr Hv Ht)
    as [x Hx].
  exists x. cbn [prune preloadedVideos].
  apply map_lookup_filter_Some. split; [exact Hx|]. cbn.
  apply list_elem_of_In. unfold urlsInWindow. apply in_concat.
  exists (reel_urls r). split.
  - apply in_map_iff. exists (k + d). rewrite Hr. split; [reflexivity|].
    unfold window_indices, minKeep, maxKeep, PRELOAD_AHEAD, PRELOAD_BEHIND.
    apply in_map_iff. exists (Z.to_nat (k + d - Z.max 0 (k - 1))).
    split; [lia|]. apply in_seq. lia.
  - unfold reel_urls. rewrite Hv, Ht. rewrite !in_app_iff. cbn. auto.
Qed.

Lemma neighbours_are_preloaded_witness :
  is_Some (preloadedVideos (preload_effect Samples.feed 2 empty_caches) !! "a.mp4").
Proof.
  apply (neighbours_are_preloaded Samples.feed 2 1 empty_caches
           Samples.reel_video "a.mp4"); [auto|reflexivity..].
Defined.

Lemma video_url_in_window reels k i r v :
  minKeep k <= i <= maxKeep k (Z.of_nat (length reels)) ->
  reel_at reels i = Some r -> r_videoUrl r = Some v -> truthy v = true ->
  v ∈ urlsInWindow reels k.
Proof.
  intros Hi Hr Hv Ht. apply list_elem_of_In. unfold urlsInWindow.
  apply in_concat. exists (reel_urls r). split.
  - apply in_map_iff. exists i. rewrite Hr. split; [reflexivity|].
    unfold window_indices. apply in_map_iff.
    exists (Z.to_nat (i - minKeep k)). split; [lia|]. apply in_seq. lia.
  - unfold reel_urls. rewrite Hv, Ht. rewrite !in_app_iff. cbn. auto.
Qed.

(** Preloading pays off on a forward or backward step: the video element
    cached for a neighbour (k+1 or k-1) by the effect at index k is the very
    element still cached, not released and not created anew, after the effect
    has run again at that neighbour's index. *)
Theorem preloaded_neighbour_survives_navigation
    (reels : list Reel) (k d : Z) (c : Caches) (r : Reel) (v : string) :
  d = 1 \/ d = -1 ->
  reel_at reels (k + d) = Some r ->
  r_videoUrl r = Some v -> truthy v = true ->
  exists el,
    preloadedVideos (preload_effect reels k c) !! v = Some el
    /\ preloadedVideos (preload_effect reels (k + d) (preload_effect reels k c)) !! v
       = Some el.
Proof.
  intros Hd Hr Hv Ht.
  assert (Hrange : 0 <= k + d < Z.of_nat (length reels)).
  { unfold reel_at in Hr. destruct (Z.ltb_spec (k + d) 0); [discriminate|].
    apply lookup_lt_Some in Hr. lia. }
  unfold preload_effect. destruct reels as [|r0 reels']; [cbn in Hrange; lia|].
  set (reels := r0 :: reels') in *.
  assert (Hidx : In (k + d) (indicesToPreload k (Z.of_nat (length reels)))).
  { unfold indicesToPreload. apply in_app_iff.
    destruct Hd as [->| ->].
    - left. apply list_elem_of_In, list_elem_of_filter. split; [lia|].
      apply list_elem_of_In; cbn; auto.
    - right. apply list_elem_of_In, list_elem_of_filter.
      split; [lia|]. replace (k + -1) with (k - 1) by lia.
      apply list_elem_of_In; cbn; auto. }
  destruct (foldl_preload_caches_video reels _ c (k + d) r v Hidx Hr Hv Ht)
    as [el Hel].
  exists el.
  assert (H1 : preloadedVideos
                 (prune (urlsInWindow reels k)
                    (foldl (preload_reel reels) c
                       (indicesToPreload k (Z.of_nat (length reels))))) !! v
               = Some el).
  { cbn [prune preloadedVideos]. apply map_lookup_filter_Some.
    split; [exact Hel|]. cbn.
    apply (video_url_in_window reels k (k + d) r v); try assumption.
    unfold minKeep, maxKeep, PRELOAD_AHEAD, PRELOAD_BEHIND. lia. }
  split; [exact H1|].
  cbn [prune preloadedVideos]. apply map_lookup_filter_Some. split.
  - apply (proj2 (foldl_preload_reel_keeps reels _ _)). exact H1.
  - cbn. apply (video_url_in_window reels (k + d) (k + d) r v); try assumption.
    unfold minKeep, maxKeep, PRELOAD_AHEAD, PRELOAD_BEHIND. lia.
Qed.

Lemma preloaded_neighbour_survives_navigation_witness :
  exists el,
    preloadedVideos (preload_effect Samples.feed 2 empty_caches) !! "a.mp4" = Some el
    /\ preloadedVideos
         (preload_effect Samples.feed (2 + 1) (preload_effect Samples.feed 2 empty_caches))
         !! "a.mp4" = Some el.
Proof.
  apply (preloaded_neighbour_survives_navigation Samples.feed 2 1 empty_caches
           Samples.reel_video "a.mp4"); [auto|reflexivity..].
Defined.

End CacheMore.

(** ** Feed construction, deep link and slideshow *)

Section FeedMore.
Import Feed.

(** A reel gets an embedded track exactly when one of the four URL columns
    of its product is non-empty, and then its URL is the first non-empty one
    in the order [music_url], [music.url], [audio_url], [music_audio_url];
    the [has_music] flag alone embeds nothing. The title is [music_title],
    else [music.title], else "Background Music"; the artist is
    [music_artist], else [music.artist], else "Ehsaas Jewels". *)
Theorem embedded_music_follows_url_columns (p : ProductMusic) :
  (is_Some (embedded_music p) <->
     is_truthy (music_url p) || is_truthy (music_obj_url p)
     || is_truthy (audio_url p) || is_truthy (music_audio_url p) = true)
  /\ (forall mu, embedded_music p = Some mu ->
        truthy (m_url mu) = true
        /\ (is_truthy (music_url p) = true -> music_url p = Some (m_url mu))
        /\ (is_truthy (music_url p) = false ->
            is_truthy (music_obj_url p) = true ->
            music_obj_url p = Some (m_url mu))
        /\ (is_truthy (music_url p) = false ->
            is_truthy (music_obj_url p) = false ->
            is_truthy (audio_url p) = true ->
            audio_url p = Some (m_url mu))
        /\ (is_truthy (music_url p) = false ->
            is_truthy (music_obj_url p) = false ->
            is_truthy (audio_url p) = false ->
            music_audio_url p = Some (m_url mu))
        /\ (is_truthy (music_title p) = true -> m_title mu = music_title p)
        /\ (is_truthy (music_title p) = false ->
            is_truthy (music_obj_title p) = true ->
            m_title mu = music_obj_title p)
        /\ (is_truthy (music_title p) = false ->
            is_truthy (music_obj_title p) = false ->
            m_title mu = Some "Background Music")
        /\ (is_truthy (music_artist p) = true -> m_artist mu = music_artist p)
        /\ (is_truthy (music_artist p) = false ->
            is_truthy (music_obj_artist p) = true ->
            m_artist mu = music_obj_artist p)
        /\ (is_truthy (music_artist p) = false ->
            is_truthy (music_obj_artist p) = false ->
            m_artist mu = Some "Ehsaas Jewels")).
Proof.
  split.
  - unfold embedded_music, hasMusic, musicUrl.
    destruct (music_url p) as [a|]; cbn [is_truthy];
      [destruct (truthy a) eqn:Ta|];
      (destruct (music_obj_url p) as [b|]; cbn [is_truthy];
        [destruct (truthy b) eqn:Tb|]);
      (destruct (audio_url p) as [c|]; cbn [is_truthy];
        [destruct (truthy c) eqn:Tc|]);
      (destruct (music_audio_url p) as [d|]; cbn [is_truthy];
        [destruct (truthy d) eqn:Td|]);
      rewrite ?orb_true_r, ?orb_false_r; cbn [orb andb];
      rewrite ?Ta, ?Tb, ?Tc, ?Td; cbn [orb andb];
      (split; [intros [x Hx]; first [reflexivity|discriminate Hx]
              |intros Hx; first [eexists; reflexivity|discriminate Hx]]).
  - intros mu Hmu.
    assert (Hurl : musicUrl p = Some (m_url mu) /\ truthy (m_url mu) = true
                   /\ m_title mu = Some (first_or (music_title p) (music_obj_title p)
                                           "Background Music")
                   /\ m_artist mu = Some (first_or (music_artist p) (music_obj_artist p)
                                            "Ehsaas Jewels")).
    { unfold embedded_music in Hmu. destruct (musicUrl p) as [u|]; [|discriminate].
      destruct (hasMusic p); [|discriminate]. cbn [andb] in Hmu.
      destruct (truthy u) eqn:Tu; [|discriminate].
      injection Hmu as <-. cbn. auto. }
    destruct Hurl as (Hu & Ht & Hti & Har).
    split; [exact Ht|].
    unfold musicUrl in Hu.
    split; [intros H; rewrite H in Hu; exact Hu|].
    split; [intros H1 H2; rewrite H1, H2 in Hu; exact Hu|].
    split; [intros H1 H2 H3; rewrite H1, H2, H3 in Hu; exact Hu|].
    split.
    { intros H1 H2 H3. rewrite H1, H2, H3 in Hu.
      destruct (is_truthy (music_audio_url p)); [exact Hu|discriminate]. }
    rewrite Hti, Har. unfold first_or, or_else.
    split.
    { destruct (music_title p) as [x|]; cbn [is_truthy]; [|discriminate].
      intros H. now rewrite !H. }
    split.
    { destruct (music_title p) as [x|]; cbn [is_truthy];
        [intros H; rewrite H|intros _];
        (destruct (music_obj_title p) as [y|]; cbn [is_truthy]; [|discriminate];
         intros H2; now rewrite H2). }
    split.
    { destruct (music_title p) as [x|]; cbn [is_truthy];
        [intros H; rewrite H|intros _];
        (destruct (music_obj_title p) as [y|]; cbn [is_truthy];
         [intros H2; now rewrite H2|reflexivity]). }
    split.
    { destruct (music_artist p) as [x|]; cbn [is_truthy]; [|discriminate].
      intros H. now rewrite !H. }
    split.
    { destruct (music_artist p) as [x|]; cbn [is_truthy];
        [intros H; rewrite H|intros _];
        (destruct (music_obj_artist p) as [y|]; cbn [is_truthy]; [|discriminate];
         intros H2; now rewrite H2). }
    destruct (music_artist p) as [x|]; cbn [is_truthy];
      [intros H; rewrite H|intros _];
      (destruct (music_obj_artist p) as [y|]; cbn [is_truthy];
       [intros H2; now rewrite H2|reflexivity]).
Qed.

Lemma findIndex_from_spec param reels i :
  0 <= i ->
  (findIndex_from i param reels = -1
   /\ Forall (fun r => r_id r <> param) reels)
  \/ (i <= findIndex_from i param reels < i + Z.of_nat (length reels)
      /\ (exists r, reels !! Z.to_nat (findIndex_from i param reels - i) = Some r
                    /\ r_id r = param)
      /\ Forall (fun r => r_id r <> param)
           (take (Z.to_nat (findIndex_from i param reels - i)) reels)).
Proof.
  revert i. induction reels as [|r reels IH]; intros i Hi; cbn [findIndex_from].
  - left. split; [reflexivity|constructor].
  - destruct (String.eqb_spec (r_id r) param) as [E|E].
    + right. cbn [length]. split; [lia|]. rewrite Z.sub_diag.
      split; [exists r; split; [reflexivity|exact E]|constructor].
    + destruct (IH (i + 1) ltac:(lia)) as [(H1 & H2)|(H1 & (r' & Hr' & Hid) & H3)].
      * left. split; [exact H1|constructor; assumption].
      * right. cbn [length]. split; [lia|].
        replace (Z.to_nat (findIndex_from (i + 1) param reels - i))
          with (S (Z.to_nat (findIndex_from (i + 1) param reels - (i + 1)))) by lia.
        split; [exists r'; split; [exact Hr'|exact Hid]
               |rewrite firstn_cons; constructor; assumption].
Qed.

(** The deep link opens the first reel whose id equals the [reel] query
    parameter; with an unknown id, an empty parameter or no parameter the
    page opens on index 0. The index it opens on is never negative and, on a
    non-empty feed, addresses a feed item. *)
Theorem deep_link_opens_named_reel (reelParam : option string) (reels : list Reel) :
  let idx := initial_index reelParam reels in
  0 <= idx
  /\ (reels <> [] -> idx < Z.of_nat (length reels))
  /\ (forall param, reelParam = Some param -> truthy param = true ->
        (Exists (fun r => r_id r = param) reels ->
           (exists r, reels !! Z.to_nat idx = Some r /\ r_id r = param)
           /\ Forall (fun r => r_id r <> param) (take (Z.to_nat idx) reels))
        /\ (Forall (fun r => r_id r <> param) reels -> idx = 0))
  /\ (forall param, reelParam = Some param -> truthy param = false -> idx = 0)
  /\ (reelParam = None -> idx = 0).
Proof.
  unfold initial_index, findIndex. cbv zeta.
  assert (Hlen : reels <> [] -> 0 < Z.of_nat (length reels))
    by (intros Hne; destruct reels; [done|cbn [length]; lia]).
  destruct reelParam as [param|].
  2: { split; [lia|]. split; [exact Hlen|]. split; [discriminate|].
       split; [discriminate|reflexivity]. }
  destruct (truthy param) eqn:Tp.
  2: { split; [lia|]. split; [exact Hlen|]. split; [|split; [|discriminate]].
       - intros q [= <-] Hq. congruence.
       - intros q _ _. reflexivity. }
  destruct (findIndex_from_spec param reels 0 ltac:(lia))
    as [(H1 & H2)|(H1 & (r & Hr & Hid) & H3)].
  - rewrite H1. change (0 <=? -1) with false. cbv iota.
    split; [lia|]. split; [exact Hlen|].
    split; [|split; [intros q [= <-] Hq; congruence|discriminate]].
    intros q [= <-] _. split; [|reflexivity].
    intros Hex. exfalso. apply Exists_exists in Hex as (x & Hx & Hxid).
    rewrite Forall_forall in H2. exact (H2 x Hx Hxid).
  - rewrite Z.sub_0_r in Hr, H3.
    destruct (Z.leb_spec 0 (findIndex_from 0 param reels)) as [_|Hneg]; [|lia].
    split; [lia|]. split; [lia|].
    split; [|split; [intros q [= <-] Hq; congruence|discriminate]].
    intros q [= <-] _. split.
    + intros _. split; [exists r; split; [exact Hr|exact Hid]|exact H3].
    + intros Hall. exfalso. rewrite Forall_forall in Hall.
      apply (Hall r); [|exact Hid]. eapply list_elem_of_lookup_2. exact Hr.
Qed.

Lemma deep_link_opens_named_reel_witness :
  initial_index (Some "does-not-exist") Samples.feed = 0.
Proof.
  refine (proj2 (proj1 (proj2 (proj2 (deep_link_opens_named_reel
            (Some "does-not-exist") Samples.feed)))
            "does-not-exist" eq_refl eq_refl) _).
  repeat constructor; discriminate.
Defined.

Lemma iter_next_slide slides prev n :
  0 <= prev -> slides <> [] ->
  Nat.iter n (next_slide slides) prev
  = if Nat.eqb n 0 then prev
    else (prev + Z.of_nat n) mod Z.of_nat (length slides).
Proof.
  intros Hp Hne.
  assert (Hlen : 0 < Z.of_nat (length slides)) by (destruct slides; [done|cbn; lia]).
  induction n as [|n IH]; [reflexivity|].
  rewrite Nat.iter_succ, IH. cbn [Nat.eqb]. unfold next_slide.
  destruct (Nat.eqb_spec n 0) as [->|Hn].
  - rewrite Z.rem_mod_nonneg by lia. reflexivity.
  - pose proof (Z.mod_pos_bound (prev + Z.of_nat n) _ Hlen) as Hb.
    rewrite Z.rem_mod_nonneg by lia.
    rewrite Zplus_mod_idemp_l. f_equal; lia.
Qed.

(** The slideshow never runs over a video that plays without error; when it
    runs, each tick keeps the slide index inside the gallery, and after as
    many ticks as there are slides the show is back on the slide it started
    from. *)
Theorem slideshow_cycles (slides : list string) (prev : Z) :
  0 <= prev < Z.of_nat (length slides) ->
  slideshow_runs true false slides = false
  /\ 0 <= next_slide slides prev < Z.of_nat (length slides)
  /\ Nat.iter (length slides) (next_slide slides) prev = prev.
Proof.
  intros Hp. split; [reflexivity|].
  assert (Hne : slides <> []) by (destruct slides; [cbn in Hp; lia|done]).
  split.
  - unfold next_slide. apply Z.rem_bound_pos; lia.
  - rewrite iter_next_slide by (lia || assumption).
    destruct (Nat.eqb_spec (length slides) 0) as [E|E]; [reflexivity|].
    replace (prev + Z.of_nat (length slides))
      with (prev + 1 * Z.of_nat (length slides)) by lia.
    rewrite Z.mod_add by lia. apply Z.mod_small. lia.
Qed.

Lemma slideshow_cycles_witness :
  Nat.iter 2 (next_slide ["q0.jpg"; "q1.jpg"]) 1 = 1.
Proof.
  refine (proj2 (proj2 (slideshow_cycles ["q0.jpg"; "q1.jpg"] 1 _))).
  cbn. lia.
Defined.

End FeedMore.

(** ** More on the resolver and the price mapping *)

Section ResolverMore.
Import MusicResolver.

Variable Number : string -> jsnum.
Variable backend : Query -> Response.

(** Whatever the reel and the backend, [fetchMusic] sends at most one query,
    always the music query for a numeric product id; it calls [setMusic]
    exactly when there is a current reel; and the two pages resolve the same
    track, the legacy page only adding its probe. *)
Theorem fetch_sends_at_most_one_query (v : Variant) (currentReel : option Reel) :
  let r := fetchMusic Number backend v currentReel in
  (sent r = [] \/ exists q, sent r = probe_of v ++ [Select (music_query (JNum q))])
  /\ (is_Some (set_music r) <-> is_Some currentReel)
  /\ set_music (fetchMusic Number backend EnginePage currentReel)
     = set_music (fetchMusic Number backend LegacyPage currentReel).
Proof.
  cbv zeta. unfold fetchMusic.
  destruct currentReel as [reel|].
  2: { cbn. split; [auto|]. split; [|reflexivity].
       split; intros [x Hx]; discriminate Hx. }
  assert (Hs : forall x : Reel, is_Some (Some x)) by (intros x; eexists; reflexivity).
  destruct (r_productId reel) as [n|]; [|destruct (r_primaryProductId reel) as [sid|]];
    cbn [fmap option_fmap option_map].
  - destruct n as [|q]; cbn [is_NaN].
    + cbn. split; [auto|]. split; [|reflexivity]. split; intros _; [apply Hs|eexists; reflexivity].
    + destruct (backend (music_query (JNum q))) as [|[[|row rows]|] [|]];
        try destruct (is_truthy (audio_url row));
        (split; [right; exists q; destruct v; reflexivity|]);
        (split; [|reflexivity]);
        destruct v; (split; intros _; [apply Hs|eexists; reflexivity]).
  - destruct (Number sid) as [|q]; cbn [is_NaN].
    + cbn. split; [auto|]. split; [|reflexivity]. split; intros _; [apply Hs|eexists; reflexivity].
    + destruct (backend (music_query (JNum q))) as [|[[|row rows]|] [|]];
        try destruct (is_truthy (audio_url row));
        (split; [right; exists q; destruct v; reflexivity|]);
        (split; [|reflexivity]);
        destruct v; (split; intros _; [apply Hs|eexists; reflexivity]).
  - cbn. split; [auto|]. split; [|reflexivity]. split; intros _; [apply Hs|eexists; reflexivity].
Qed.

(** With a numeric product id, [fetchMusic] sets a track exactly when the
    query is answered without error and its first row has a non-empty
    [audio_url]; the track then takes that URL, the row's title and artist
    with their defaults, a start offset defaulting to 0 and the row's end
    offset. A rejected query, an answer that carries an error and an answer
    without rows all end in [setMusic(null)], after the query was sent. *)
Theorem fetch_sets_track_only_from_clean_answer (v : Variant) (reel : Reel) (q : Q) :
  product_id_of Number reel = Some (JNum q) ->
  let r := fetchMusic Number backend v (Some reel) in
  let qy := music_query (JNum q) in
  sent r = probe_of v ++ [Select qy]
  /\ (forall t, set_music r = Some (Some t) <->
        exists row rows,
          backend qy = Answer (Some (row :: rows)) false
          /\ is_truthy (audio_url row) = true
          /\ t = {| m_url := default "" (audio_url row);
                    m_title := Some (or_default (title row) "Background Music");
                    m_artist := Some (or_default (artist row) "Ehsaas Jewels");
                    m_startAt := Some (num_or_zero (start_at_seconds row));
                    m_endAt := end_at_seconds row |})
  /\ (backend qy = Rejects -> set_music r = Some None)
  /\ (forall data, backend qy = Answer data true -> set_music r = Some None)
  /\ (backend qy = Answer None false -> set_music r = Some None).
Proof.
  intros Hid r qy. unfold r.
  rewrite (fetchMusic_numeric Number backend v reel q Hid). cbv zeta.
  cbn [sent set_music]. fold qy.
  split; [reflexivity|]. split; [|split; [|split]].
  - intros t. split.
    + destruct (backend qy) as [|[[|row rows]|] [|]]; try discriminate.
      destruct (is_truthy (audio_url row)) eqn:Hu; [|discriminate].
      intros [= <-]. exists row, rows. auto.
    + intros (row & rows & Hb & Hu & ->). rewrite Hb, Hu. reflexivity.
  - intros ->. reflexivity.
  - intros data ->. destruct data as [[|row rows]|]; reflexivity.
  - intros ->. reflexivity.
Qed.

End ResolverMore.

Lemma fetch_sets_track_only_from_clean_answer_witness :
  MusicResolver.set_music
    (MusicResolver.fetchMusic MusicResolver.Number_digits (fun _ => MusicResolver.Rejects)
       MusicResolver.LegacyPage (Some Samples.reel_video))
  = Some None.
Proof.
  refine (proj1 (proj2 (proj2 (fetch_sets_track_only_from_clean_answer
            MusicResolver.Number_digits (fun _ => MusicResolver.Rejects)
            MusicResolver.LegacyPage Samples.reel_video 52%Q _))) eq_refl).
  reflexivity.
Defined.

Section PriceMore.
Import Prices.

(** On the engine page a current price is always shown, and a compare-at
    price, when shown, is strictly greater than the current price. *)
Theorem engine_discount_is_strict (p : RawProduct) :
  is_Some (current (resolve_price p))
  /\ forall c o, current (resolve_price p) = Some c ->
                 original (resolve_price p) = Some o -> (c < o)%Q.
Proof.
  unfold resolve_price.
  set (base := match price p with Some b => b | None => 0%Q end).
  destruct (sale_price p) as [alt|]; cbn.
  2: { split; [eexists; reflexivity|]. intros c o _ Ho. discriminate Ho. }
  destruct (Qeq_bool alt base) eqn:He; cbn.
  { split; [eexists; reflexivity|]. intros c o _ Ho. discriminate Ho. }
  split; [eexists; reflexivity|].
  intros c o [= <-] [= <-].
  assert (Hne : ~ (alt == base)%Q).
  { intros Heq. apply Qeq_bool_iff in Heq. congruence. }
  unfold js_min, js_max. destruct (Qle_bool base alt) eqn:Hle.
  - apply Qle_bool_iff in Hle. apply Qle_lteq in Hle as [Hlt|Heq]; [exact Hlt|].
    exfalso. apply Hne. symmetry. exact Heq.
  - apply Qnot_le_lt. intros H. apply Qle_bool_iff in H. congruence.
Qed.

(** A product row without a price is priced 0: with a positive
    [sale_price] the page shows 0 as the current price and the sale price as
    the compare-at price. *)
Theorem missing_price_counts_as_zero (s : Q) :
  (0 < s)%Q ->
  resolve_price {| price := None; sale_price := Some s |}
  = {| current := Some 0%Q; original := Some s |}.
Proof.
  intros Hs. unfold resolve_price. cbn.
  assert (He : Qeq_bool s 0 = false).
  { destruct (Qeq_bool s 0) eqn:E; [|reflexivity].
    apply Qeq_bool_iff in E. rewrite E in Hs. exfalso. exact (Qlt_irrefl _ Hs). }
  rewrite He. unfold js_min, js_max.
  assert (Hle : Qle_bool 0 s = true) by (apply Qle_bool_iff, Qlt_le_weak, Hs).
  rewrite Hle. reflexivity.
Qed.

Lemma missing_price_counts_as_zero_witness :
  resolve_price {| price := None; sale_price := Some 450%Q |}
  = {| current := Some 0%Q; original := Some 450%Q |}.
Proof. apply (missing_price_counts_as_zero 450%Q). reflexivity. Defined.

End PriceMore.

(** ** Autoplay fall-backs of the legacy page *)

Section LegacyPageMore.
Import LegacyPage.
Import EnginePage (Video, AudioEl, a_muted, a_paused, v_muted).

Ltac legacy_open p Ha Hm :=
  destruct p as [rs idx sd lst mu pl im pa vr ar lg];
  cbn in Ha; unfold music_url in Hm; cbn in Hm; subst;
  destruct mu as [m|]; [destruct (truthy (m_url m)) eqn:Tm|]; try discriminate Hm.

(** [startAudioPlayback] on a page with an audio element and a track: while
    an attempt is pending it does nothing; otherwise it tries with sound and
    then muted, [isMuted] ends up telling which attempt succeeded (and is
    left as it was when both fail), the element is muted exactly when the
    first attempt failed, and the pending flag is cleared again. *)
Theorem legacy_autoplay_falls_back_to_muted
    (env : EffEnv) (p : Page) (a : AudioEl) (u : string) :
  audioRef p = Some a -> music_url p = Some u ->
  let p' := startAudioPlayback env p in
  (pendingAutoPlay p = true -> p' = p)
  /\ (pendingAutoPlay p = false ->
        pendingAutoPlay p' = false
        /\ a_muted <$> audioRef p' = Some (negb (audio_ok env))
        /\ a_paused <$> audioRef p'
           = Some (if audio_ok env || audio_muted_ok env then false else a_paused a)
        /\ isMuted p'
           = (if audio_ok env then false
              else if audio_muted_ok env then true else isMuted p)
        /\ videoRef p' = videoRef p).
Proof.
  intros Ha Hm. legacy_open p Ha Hm.
  cbv zeta. unfold startAudioPlayback, music_url. cbn. rewrite Tm.
  destruct pa; cbn; (split; [intros Hp; first [reflexivity|discriminate Hp]|]);
    (intros Hp; try discriminate Hp).
  destruct env as [ok mok vok sok smok]; cbn.
  destruct ok, mok; cbn; repeat split.
Qed.

Lemma legacy_autoplay_falls_back_to_muted_witness :
  isMuted (startAudioPlayback
             {| audio_ok := false; audio_muted_ok := true; video_ok := true;
                sync_ok := true; sync_muted_ok := true |}
             (mount_audio (set_music (Some Samples.track_x) (mounted Samples.feed))))
  = true.
Proof.
  pose proof (legacy_autoplay_falls_back_to_muted
    {| audio_ok := false; audio_muted_ok := true; video_ok := true;
       sync_ok := true; sync_muted_ok := true |}
    (mount_audio (set_music (Some Samples.track_x) (mounted Samples.feed)))
    _ "x.mp3" eq_refl eq_refl) as H.
  exact (proj1 (proj2 (proj2 (proj2 (proj2 H eq_refl))))).
Defined.

Lemma legacy_startAudioPlayback_keeps env p :
  videoRef (startAudioPlayback env p) = videoRef p
  /\ music (startAudioPlayback env p) = music p
  /\ (is_Some (audioRef p) -> is_Some (audioRef (startAudioPlayback env p))).
Proof.
  destruct p as [rs idx sd lst mu pl im pa vr ar lg].
  unfold startAudioPlayback, music_url. cbn.
  destruct ar as [a|]; [|cbn; auto].
  destruct mu as [m|]; [|cbn; auto].
  destruct (truthy (m_url m)); [|cbn; auto].
  destruct pa; [cbn; auto|].
  destruct env as [ok mok vok sok smok]; cbn.
  destruct ok, mok; cbn; repeat split; intros; eexists; reflexivity.
Qed.

Lemma legacy_startVideoPlayback_keeps im0 env p :
  audioRef (startVideoPlayback im0 env p) = audioRef p
  /\ music (startVideoPlayback im0 env p) = music p
  /\ (is_Some (videoRef p) -> is_Some (videoRef (startVideoPlayback im0 env p))).
Proof.
  destruct p as [rs idx sd lst mu pl im pa vr ar lg].
  unfold startVideoPlayback. cbn [videoRef].
  destruct vr as [v|]; [|cbn; auto].
  destruct (videoUrl _); [|cbn; auto].
  destruct env as [ok mok vok sok smok]; cbn.
  destruct vok; cbn; repeat split; intros; eexists; reflexivity.
Qed.

Lemma legacy_music_url_music p q : music q = music p -> music_url q = music_url p.
Proof. unfold music_url. now intros ->. Qed.

(** [startPlayback] with both a video and an audio element and a track: when
    the synchronised [play()] with sound is refused but the muted retry
    succeeds, the page ends up reporting "unmuted" and the video element is
    unmuted although the audio element was left muted; when both are refused
    the page stops playing; in every case the pending flag is cleared. *)
Theorem legacy_sync_fallback_reports_unmuted
    (env : EffEnv) (p : Page) (v : Video) (a : AudioEl) (u : string) :
  videoRef p = Some v -> audioRef p = Some a -> music_url p = Some u ->
  let p' := startPlayback env p in
  pendingAutoPlay p' = false
  /\ (sync_ok env = true ->
        isMuted p' = false /\ isPlaying p' = true
        /\ a_muted <$> audioRef p' = Some false
        /\ v_muted <$> videoRef p' = Some false)
  /\ (sync_ok env = false -> sync_muted_ok env = true ->
        isMuted p' = false /\ isPlaying p' = true
        /\ a_muted <$> audioRef p' = Some true
        /\ v_muted <$> videoRef p' = Some false)
  /\ (sync_ok env = false -> sync_muted_ok env = false ->
        isPlaying p' = false
        /\ a_muted <$> audioRef p' = Some true).
Proof.
  intros Hv Ha Hm. cbv zeta. unfold startPlayback.
  rewrite Hm.
  set (p1 := startAudioPlayback env p).
  destruct (legacy_startAudioPlayback_keeps env p) as (Hv1 & Hm1 & Ha1).
  fold p1 in Hv1, Hm1, Ha1.
  specialize (Ha1 ltac:(rewrite Ha; eexists; reflexivity)).
  set (p2 := match videoUrl p1 with
             | Some _ => startVideoPlayback (isMuted p) env p1
             | None => p1
             end).
  assert (H2 : audioRef p2 = audioRef p1 /\ music p2 = music p1
               /\ is_Some (videoRef p2)).
  { unfold p2. destruct (videoUrl p1).
    - destruct (legacy_startVideoPlayback_keeps (isMuted p) env p1) as (Hx & Hy & Hz).
      split; [exact Hx|]. split; [exact Hy|]. apply Hz. rewrite Hv1, Hv.
      eexists; reflexivity.
    - split; [reflexivity|]. split; [reflexivity|]. rewrite Hv1, Hv.
      eexists; reflexivity. }
  destruct H2 as (Ha2 & Hm2 & [v2 Hv2]).
  rewrite <- Ha2 in Ha1. destruct Ha1 as [a2 Ha2'].
  assert (Hmu2 : music_url p2 = Some u).
  { rewrite (legacy_music_url_music p p2); [exact Hm|]. now rewrite Hm2, Hm1. }
  clearbody p2. clear Ha2 Hm2 Hv1 Hm1 p1.
  rewrite Hv2, Ha2', Hmu2.
  destruct p2 as [rs idx sd lst mu pl im pa vr ar lg].
  cbn in Hv2, Ha2'. subst vr ar.
  destruct (sync_ok env); [|destruct (sync_muted_ok env)]; cbn;
    repeat split; intros; try discriminate; reflexivity.
Qed.

Lemma legacy_sync_fallback_reports_unmuted_witness :
  let env := {| audio_ok := false; audio_muted_ok := true; video_ok := true;
                sync_ok := false; sync_muted_ok := true |} in
  let p' := startPlayback env
              (mount_audio (mount_video
                 (set_music (Some Samples.track_x) (mounted Samples.feed)))) in
  isMuted p' = false /\ a_muted <$> audioRef p' = Some true.
Proof.
  cbv zeta.
  pose proof (legacy_sync_fallback_reports_unmuted
    {| audio_ok := false; audio_muted_ok := true; video_ok := true;
       sync_ok := false; sync_muted_ok := true |}
    (mount_audio (mount_video
       (set_music (Some Samples.track_x) (mounted Samples.feed))))
    _ _ "x.mp3" eq_refl eq_refl eq_refl) as H.
  destruct (proj1 (proj2 (proj2 H)) eq_refl eq_refl) as (H1 & _ & H2 & _).
  split; [exact H1|exact H2].
Defined.

(** [toggleMute] on the legacy page flips [isMuted]; a video element showing
    a video is always left with [muted] equal to the new [isMuted]; the audio
    element follows too, except that unmuting whose [play()] is refused
    leaves the audio element muted while the page reports "unmuted". *)
Theorem legacy_toggleMute_keeps_video_in_step
    (oka oka2 : bool) (p : Page) (v : Video) (url : string) :
  videoRef p = Some v -> videoUrl p = Some url ->
  let p' := toggleMute oka oka2 p in
  isMuted p' = negb (isMuted p)
  /\ v_muted <$> videoRef p' = Some (isMuted p')
  /\ (forall a u, audioRef p = Some a -> music_url p = Some u ->
        a_muted <$> audioRef p'
        = Some (if isMuted p then negb oka else true)).
Proof.
  intros Hv Hu.
  destruct p as [rs idx sd lst mu pl im pa vr ar lg].
  cbn in Hv. subst vr. cbv zeta. unfold toggleMute.
  rewrite Hu. cbn [videoRef].
  unfold videoUrl, currentReel, music_url in *. cbn in *.
  destruct ar as [a0|]; cbn;
    [destruct mu as [m|]; cbn; [destruct (truthy (m_url m)) eqn:Tm; cbn|]|];
    destruct im, oka, oka2; cbn; repeat split; intros; try discriminate;
    reflexivity.
Qed.

Lemma legacy_toggleMute_keeps_video_in_step_witness :
  isMuted (toggleMute true true (mount_video (mounted Samples.feed))) = true.
Proof.
  exact (proj1 (legacy_toggleMute_keeps_video_in_step true true
           (mount_video (mounted Samples.feed)) _ "a.mp4" eq_refl eq_refl)).
Defined.

End LegacyPageMore.

(** ** Play toggle and video error handling of the engine page *)

Section EngineControlsMore.
Import EnginePage.

(** [togglePlay] on a reel with a video always flips [isPlaying]; pausing
    pauses the video and the audio element; resuming leaves the video paused
    when its [play()] is refused, so the page then reports "playing" over a
    paused video. *)
Theorem togglePlay_flag_can_disagree_with_video
    (okv oka : bool) (p : Page) (v : Video) (url : string) :
  videoRef p = Some v -> videoUrl p = Some url ->
  let p' := togglePlay okv oka p in
  isPlaying p' = negb (isPlaying p)
  /\ (isPlaying p = true ->
        v_paused <$> videoRef p' = Some true
        /\ forall a, audioRef p = Some a -> a_paused <$> audioRef p' = Some true)
  /\ (isPlaying p = false ->
        v_paused <$> videoRef p' = Some (if okv then false else v_paused v)).
Proof.
  intros Hv Hu. cbv zeta. unfold togglePlay. rewrite Hv, Hu.
  destruct p as [rs idx sd lst mu pl im hui sc ve pa tid pix pfa vr ar amr lg].
  cbn in Hv. subst vr. clear Hu. cbn [isPlaying].
  destruct pl; cbn.
  - split; [reflexivity|]. split; [|discriminate].
    intros _. split; [reflexivity|]. intros a ->. reflexivity.
  - split; [|split; [discriminate|]].
    + destruct okv; cbn; destruct ar; cbn; destruct oka; reflexivity.
    + intros _. destruct okv; cbn; destruct ar; cbn; destruct oka; reflexivity.
Qed.

Lemma togglePlay_flag_can_disagree_with_video_witness :
  let p' := togglePlay false true
              (set_isPlaying false (mount_video (mounted Samples.feed))) in
  isPlaying p' = true /\ v_paused <$> videoRef p' = Some true.
Proof.
  cbv zeta.
  pose proof (togglePlay_flag_can_disagree_with_video false true
    (set_isPlaying false (mount_video (mounted Samples.feed))) _ "a.mp4"
    eq_refl eq_refl) as H.
  split; [exact (proj1 H)|exact (proj2 (proj2 H) eq_refl)].
Defined.








End EngineControlsMore.
